(** * sat-frontend-framework: SAT.Format / SAT.Parse and the Validator class

    A shallow embedding of [assets/app/core/SAT.js] (Roman numerals, the date
    formatter and parser, the masking of e-mail addresses) and of [assets/app/core/Validator.js] (the form validator), with
    the JavaScript built-ins they call: strings, [parseInt], [parseFloat],
    regular expressions with backtracking, and the part of jQuery and of the
    DOM the validator reads and writes. *)

From stdpp Require Import gmap strings list pretty.
From Stdlib Require Import ZArith QArith Qround Qabs Ascii.

Close Scope Q_scope.

(** ** JavaScript values *)

(** Numbers are modelled by their exact mathematical value; the rounding of
    IEEE binary64 is left out (every integer below 2^53 is exact). *)
Inductive num : Type :=
| NaN
| Inf (negative : bool)
| Fin (q : Q).

Inductive jsval : Type :=
| VUndefined
| VNull
| VStr (s : string)
| VNum (n : num)
| VArr (l : list string).

Inductive js_error : Type :=
| Error (message : string)
| TypeError.

(** What running a piece of code ends in: a value, or a thrown exception. *)
Inductive completion (A : Type) : Type :=
| Normal (a : A)
| Throw (e : js_error).
Arguments Normal {A} a.
Arguments Throw {A} e.

Module Js.

(** *** Characters: code units 0..255 *)

Definition code (c : ascii) : N := N_of_ascii c.

Definition between (lo hi : N) (c : ascii) : bool :=
  ((lo <=? code c) && (code c <=? hi))%N.

Definition is_digit : ascii -> bool := between 48 57.
Definition is_upper : ascii -> bool := between 65 90.
Definition is_lower : ascii -> bool := between 97 122.
Definition is_alpha (c : ascii) : bool := is_upper c || is_lower c.

(** [\w] *)
Definition is_word (c : ascii) : bool :=
  is_alpha c || is_digit c || (code c =? 95)%N.

(** [\s]: tab, line feed, vertical tab, form feed, carriage return, space
    and the no-break space. *)
Definition is_space (c : ascii) : bool :=
  between 9 13 c || (code c =? 32)%N || (code c =? 160)%N.

Definition is_char (x : ascii) (c : ascii) : bool := (code c =? code x)%N.

(** The lower-case letter of an upper-case one: A..Z and, past 127, the
    accented capitals 192..222 but for the sign at 215. *)
Definition lower (c : ascii) : ascii :=
  if is_upper c || (between 192 222 c && negb (code c =? 215)%N)
  then ascii_of_N (code c + 32)
  else c.

Definition chars (s : string) : list ascii := String.list_ascii_of_string s.
Definition text (l : list ascii) : string := String.string_of_list_ascii l.

(** [String.prototype.toLowerCase] *)
Definition toLowerCase (s : string) : string := text (lower <$> chars s).

(** *** Numbers *)

Definition of_Z (z : Z) : num := Fin (inject_Z z).

Definition Qltb (a b : Q) : bool :=
  (Qnum a * Z.pos (Qden b) <? Qnum b * Z.pos (Qden a))%Z.

(** [a < b] on numbers: false as soon as one side is NaN. *)
Definition lt (a b : num) : bool :=
  match a, b with
  | NaN, _ | _, NaN => false
  | Inf true, Inf true => false
  | Inf true, _ => true
  | _, Inf true => false
  | Inf false, _ => false
  | _, Inf false => true
  | Fin x, Fin y => Qltb x y
  end.

Definition gt (a b : num) : bool := lt b a.

Definition strict_eq_num (a b : num) : bool :=
  match a, b with
  | Fin x, Fin y => Qeq_bool x y
  | Inf s, Inf t => Bool.eqb s t
  | _, _ => false
  end.

(** The digits of the fractional part [r / d], at most [n] of them. *)
Fixpoint fraction_digits (n : nat) (r d : Z) : string :=
  match n with
  | O => ""
  | S n' =>
      if (r =? 0)%Z then ""
      else pretty (10 * r / d)%Z +:+ fraction_digits n' ((10 * r) mod d)%Z d
  end.

(** [Number.prototype.toString]: exact on integers; a fraction is printed
    positionally, cut after 20 digits. *)
Definition num_to_string (n : num) : string :=
  match n with
  | NaN => "NaN"
  | Inf false => "Infinity"
  | Inf true => "-Infinity"
  | Fin q =>
      let d := Z.pos (Qden q) in
      let a := Z.abs (Qnum q) in
      let frac := fraction_digits 20 (a mod d)%Z d in
      (if (Qnum q <? 0)%Z then "-" else "")
        +:+ pretty (a / d)%Z
        +:+ (if (a mod d =? 0)%Z then "" else "." +:+ frac)
  end.

Fixpoint join (sep : string) (l : list string) : string :=
  match l with
  | [] => ""
  | [s] => s
  | s :: l' => s +:+ sep +:+ join sep l'
  end.

(** [ToString], as used by template literals, [+] and [RegExp.test]. *)
Definition to_string (v : jsval) : string :=
  match v with
  | VUndefined => "undefined"
  | VNull => "null"
  | VStr s => s
  | VNum n => num_to_string n
  | VArr l => join "," l
  end.

(** [v === ''] and [v === undefined] *)
Definition is_empty_string (v : jsval) : bool :=
  match v with VStr "" => true | _ => false end.
Definition is_undefined (v : jsval) : bool :=
  match v with VUndefined => true | _ => false end.

Definition strict_eq (a b : jsval) : bool :=
  match a, b with
  | VUndefined, VUndefined | VNull, VNull => true
  | VStr s, VStr t => bool_decide (s = t)
  | VNum x, VNum y => strict_eq_num x y
  | _, _ => false
  end.

(** *** parseInt and parseFloat *)

Fixpoint drop_spaces (l : list ascii) : list ascii :=
  match l with
  | c :: l' => if is_space c then drop_spaces l' else l
  | [] => []
  end.

Fixpoint take_while (p : ascii -> bool) (l : list ascii) : list ascii :=
  match l with
  | c :: l' => if p c then c :: take_while p l' else []
  | [] => []
  end.

Fixpoint drop_while (p : ascii -> bool) (l : list ascii) : list ascii :=
  match l with
  | c :: l' => if p c then drop_while p l' else l
  | [] => []
  end.

Definition digit_value (c : ascii) : Z :=
  if is_digit c then Z.of_N (code c) - 48
  else if between 97 102 c then Z.of_N (code c) - 87
  else Z.of_N (code c) - 55.

Definition is_hex_digit (c : ascii) : bool :=
  is_digit c || between 97 102 c || between 65 70 c.

(** The value of a run of digits in the given radix, most significant
    first. *)
Definition digits_value (radix : Z) (l : list ascii) : Z :=
  foldl (fun acc c => acc * radix + digit_value c)%Z 0%Z l.

(** A leading [+] or [-]: the sign and what follows it. *)
Definition split_sign (l : list ascii) : bool * list ascii :=
  match l with
  | c :: l' =>
      if is_char "-" c then (true, l')
      else if is_char "+" c then (false, l')
      else (false, l)
  | [] => (false, [])
  end.

Definition signed (negative : bool) (z : Z) : Z :=
  if negative then (- z)%Z else z.

(** [parseInt(s)] with no radix argument. *)
Definition parseInt_chars (l : list ascii) : num :=
  let '(neg, l1) := split_sign (drop_spaces l) in
  let '(radix, is_d, l2) :=
    match l1 with
    | z :: x :: l' =>
        if is_char "0" z && (is_char "x" x || is_char "X" x)
        then (16%Z, is_hex_digit, l')
        else (10%Z, is_digit, l1)
    | _ => (10%Z, is_digit, l1)
    end in
  match take_while is_d l2 with
  | [] => NaN
  | ds => of_Z (signed neg (digits_value radix ds))
  end.

Definition parseInt (v : jsval) : num := parseInt_chars (chars (to_string v)).

Fixpoint starts_with (p l : list ascii) : bool :=
  match p, l with
  | [], _ => true
  | a :: p', b :: l' => is_char a b && starts_with p' l'
  | _ :: _, [] => false
  end.

(** The exponent part [e±ddd] of a decimal literal, 0 when there is none
    or when no digit follows the [e]. *)
Definition exponent (l : list ascii) : Z :=
  match l with
  | e :: l' =>
      if is_char "e" e || is_char "E" e then
        let '(neg, l2) := split_sign l' in
        match take_while is_digit l2 with
        | [] => 0%Z
        | ds => signed neg (digits_value 10 ds)
        end
      else 0%Z
  | [] => 0%Z
  end.

Definition pow10 (e : Z) : Q :=
  if (e <? 0)%Z then (1 # Pos.pow 10 (Z.to_pos (- e)))%Q
  else inject_Z (10 ^ e).

(** [parseFloat(s)]: the longest prefix that is a decimal literal. *)
Definition parseFloat_chars (l : list ascii) : num :=
  let '(neg, l1) := split_sign (drop_spaces l) in
  if starts_with (chars "Infinity") l1 then Inf neg
  else
    let ip := take_while is_digit l1 in
    let l2 := drop_while is_digit l1 in
    let '(fp, l3) :=
      match l2 with
      | d :: l' =>
          if is_char "." d
          then (take_while is_digit l', drop_while is_digit l')
          else ([], l2)
      | [] => ([], [])
      end in
    match (ip ++ fp)%list with
    | [] => NaN
    | ds =>
        let m := signed neg (digits_value 10 ds) in
        let e := (exponent l3 - Z.of_nat (length fp))%Z in
        Fin (Qred (inject_Z m * pow10 e))
    end.

Definition parseFloat (v : jsval) : num :=
  parseFloat_chars (chars (to_string v)).

Definition div (a : num) (b : Z) : num :=
  match a with
  | Fin q => Fin (q / inject_Z b)%Q
  | _ => a
  end.

(** [x.toFixed(2)] below 10^21: the nearest multiple of 1/100, the larger
    one on a tie. *)
Definition toFixed2 (x : num) : string :=
  match x with
  | Fin q =>
      let n := Qfloor (Qabs q * 100 + (1 # 2))%Q in
      (if Qltb q 0 then "-" else "")
        +:+ pretty (n / 100)%Z +:+ "."
        +:+ pretty (n mod 100 / 10)%Z +:+ pretty (n mod 10)%Z
  | _ => num_to_string x
  end.

(** *** split and padStart *)

(** [s.split(sep)] for a one-character separator. *)
Fixpoint split_chars (sep : ascii) (cur : list ascii) (l : list ascii)
  : list string :=
  match l with
  | [] => [text (rev cur)]
  | c :: l' =>
      if is_char sep c then text (rev cur) :: split_chars sep [] l'
      else split_chars sep (c :: cur) l'
  end.

Definition split (sep : ascii) (s : string) : list string :=
  split_chars sep [] (chars s).

(** Reading index [i] of an array of strings. *)
Definition index (l : list string) (i : nat) : jsval :=
  match l !! i with Some s => VStr s | None => VUndefined end.

(** [s.padStart(n, c)] for a one-character filler. *)
Definition padStart (n : nat) (c : ascii) (s : string) : string :=
  text (replicate (n - String.length s) c) +:+ s.

(** *** What the helpers of SAT.js use besides *)

(** [isNaN(n)] on a number. *)
Definition isNaN (n : num) : bool :=
  match n with
  | NaN => true
  | _ => false
  end.

(** [a >= b] on numbers: false as soon as one side is NaN. *)
Definition ge (a b : num) : bool :=
  match a, b with
  | NaN, _ | _, NaN => false
  | _, _ => negb (lt a b)
  end.

(** [a - b] for an integer [b]. *)
Definition sub (a : num) (b : Z) : num :=
  match a with
  | Fin q => Fin (q - inject_Z b)%Q
  | _ => a
  end.

(** [s.substring(start, end)]: the two indices are swapped when they come
    in the wrong order. *)
Definition substring (start end_ : nat) (s : string) : string :=
  text (take (Nat.max start end_ - Nat.min start end_)
          (drop (Nat.min start end_) (chars s))).

(** [s.repeat(count)] for an integer [count]: a RangeError, here [None],
    when it is negative. *)
Definition repeat (s : string) (count : Z) : option string :=
  if (count <? 0)%Z then None
  else Some (text (concat (replicate (Z.to_nat count) (chars s)))).

End Js.

(** ** Regular expressions

    The backtracking matcher of ECMAScript: a pattern is run against a
    continuation, an alternative or a quantifier tries its first choice and
    falls back to the next one when the continuation fails. *)

Module RegExp.

Import Js.

Inductive regex : Type :=
| Empty
| Bol                                      (* ^ *)
| Eol                                      (* $ *)
| Set_ (p : ascii -> bool)                 (* a character class *)
| Seq (r1 r2 : regex)
| Alt (r1 r2 : regex)
| Rep (min : nat) (max : option nat) (r : regex)   (* greedy quantifier *)
| Group (i : nat) (r : regex).             (* capturing parentheses *)

Definition Opt := Rep 0 (Some 1).
Definition Star := Rep 0 None.
Definition Plus := Rep 1 None.
Definition Chr (c : ascii) := Set_ (is_char c).

Fixpoint seq (l : list regex) : regex :=
  match l with
  | [] => Empty
  | [r] => r
  | r :: l' => Seq r (seq l')
  end.

Record mstate : Type := {
  m_pos : nat;                   (* index of the next character *)
  m_rest : list ascii;           (* the input from that index on *)
  m_caps : gmap nat string       (* the captures made so far *)
}.

Definition cont : Type := mstate -> option mstate.

(** The groups of a pattern, cleared at each turn of a quantifier. *)
Fixpoint groups_in (r : regex) : list nat :=
  match r with
  | Seq r1 r2 | Alt r1 r2 => groups_in r1 ++ groups_in r2
  | Rep _ _ r' => groups_in r'
  | Group i r' => i :: groups_in r'
  | _ => []
  end.

Definition clear (gs : list nat) (x : mstate) : mstate :=
  {| m_pos := m_pos x; m_rest := m_rest x;
     m_caps := foldr delete (m_caps x) gs |}.

Definition capture (i : nat) (x y : mstate) : mstate :=
  {| m_pos := m_pos y; m_rest := m_rest y;
     m_caps := <[i := text (take (m_pos y - m_pos x) (m_rest x))]>
                 (m_caps y) |}.

Definition or_else (a : option mstate) (b : unit -> option mstate)
  : option mstate :=
  match a with Some z => Some z | None => b tt end.

(** RepeatMatcher: [m] between [min] and [max] times, as many as
    possible first. A turn that starts once [min] is reached has to
    consume input, so [min] plus the length of the input bounds the
    number of turns. *)
Fixpoint repeatMatcher (turns : nat) (m : cont -> cont) (gs : list nat)
    (min : nat) (max : option nat) (c : cont) (x : mstate) : option mstate :=
  match turns with
  | O => None
  | S turns' =>
      match max with
      | Some O => c x
      | _ =>
          let d : cont := fun y =>
            if (min =? 0) && (m_pos y =? m_pos x) then None
            else repeatMatcher turns' m gs (pred min) (pred <$> max) c y in
          let xr := clear gs x in
          if negb (min =? 0) then m d xr
          else or_else (m d xr) (fun _ => c x)
      end
  end.

Fixpoint matcher (r : regex) (c : cont) (x : mstate) {struct r}
  : option mstate :=
  match r with
  | Empty => c x
  | Bol => if m_pos x =? 0 then c x else None
  | Eol => match m_rest x with [] => c x | _ :: _ => None end
  | Set_ p =>
      match m_rest x with
      | ch :: rest =>
          if p ch
          then c {| m_pos := S (m_pos x); m_rest := rest; m_caps := m_caps x |}
          else None
      | [] => None
      end
  | Seq r1 r2 => matcher r1 (matcher r2 c) x
  | Alt r1 r2 => or_else (matcher r1 c x) (fun _ => matcher r2 c x)
  | Rep min max r' =>
      repeatMatcher (S (S (min + length (m_rest x)))) (matcher r')
        (groups_in r') min max c x
  | Group i r' => matcher r' (fun y => c (capture i x y)) x
  end.

(** The match starting at index [pos], group 0 being the whole match. *)
Definition match_at (r : regex) (pos : nat) (rest : list ascii)
  : option mstate :=
  let x := {| m_pos := pos; m_rest := rest; m_caps := ∅ |} in
  matcher r (fun y => Some (capture 0 x y)) x.

(** [exec] with [lastIndex] 0: the first index at which the pattern
    matches. *)
Fixpoint exec_from (r : regex) (pos : nat) (rest : list ascii)
  : option mstate :=
  match match_at r pos rest with
  | Some y => Some y
  | None =>
      match rest with
      | [] => None
      | _ :: rest' => exec_from r (S pos) rest'
      end
  end.

Definition exec (r : regex) (s : string) : option (gmap nat string) :=
  m_caps <$> exec_from r 0 (chars s).

(** [regex.test(v)] *)
Definition test (r : regex) (v : jsval) : bool :=
  bool_decide (is_Some (exec r (to_string v))).

(** Index [i] of the array [s.match(regex)] returns. *)
Definition matched (m : gmap nat string) (i : nat) : jsval :=
  match m !! i with Some s => VStr s | None => VUndefined end.

End RegExp.

(** ** SAT.js *)

Module SAT.

Import Js RegExp.

Module Format.

Definition months_id : list string :=
  ["Januari"; "Februari"; "Maret"; "April"; "Mei"; "Juni";
   "Juli"; "Agustus"; "September"; "Oktober"; "November"; "Desember"].

Definition months_en : list string :=
  ["January"; "February"; "March"; "April"; "May"; "June";
   "July"; "August"; "September"; "October"; "November"; "December"].

(** [months[locale]] for the two keys of the object and for a locale that is
    no property of it; the properties an object inherits ([constructor] and
    the like) are left out. *)
Definition months (locale : string) : option (list string) :=
  if bool_decide (locale = "id") then Some months_id
  else if bool_decide (locale = "en") then Some months_en
  else None.

(** [a[n]] for a number [n]: an element only at an integer index. *)
Definition at_num (a : list string) (n : num) : jsval :=
  match n with
  | Fin q =>
      if (Z.pos (Qden (Qred q)) =? 1)%Z && (0 <=? Qnum (Qred q))%Z
      then index a (Z.to_nat (Qnum (Qred q)))
      else VUndefined
  | _ => VUndefined
  end.

Definition minus_one (n : num) : num :=
  match n with
  | Fin q => Fin (q - 1)%Q
  | _ => n
  end.

Definition _getMonthName (month : jsval) (locale : string)
  : completion jsval :=
  match months locale with
  | None => Throw TypeError
  | Some a => Normal (at_num a (minus_one (parseInt month)))
  end.

Definition ToDate (date : string) (locale : string) : completion string :=
  let parts := split "-" date in
  let year := index parts 0 in
  let month := index parts 1 in
  let day := index parts 2 in
  match _getMonthName month locale with
  | Throw e => Throw e
  | Normal name =>
      Normal (num_to_string (parseInt day) +:+ " " +:+ to_string name
                +:+ " " +:+ to_string year)
  end.

Definition romanNumerals : list (Z * string) :=
  [(1000, "M"); (900, "CM"); (500, "D"); (400, "CD"); (100, "C"); (90, "XC");
   (50, "L"); (40, "XL"); (10, "X"); (9, "IX"); (5, "V"); (4, "IV");
   (1, "I")]%Z.

(** [while (num >= value) { result += numeral; num -= value; }], run for at
    most [turns] tests of the condition: [None] when the loop is still
    running then. *)
Fixpoint while_ge (turns : nat) (value : Z) (numeral : string)
    (state : string * num) : option (string * num) :=
  match turns with
  | O => None
  | S turns' =>
      let (result, num) := state in
      if ge num (of_Z value)
      then while_ge turns' value numeral (result +:+ numeral, sub num value)
      else Some state
  end.

(** [romanNumerals.forEach(...)] on the variables [result] and [num]. *)
Fixpoint forEach_numeral (turns : nat) (l : list (Z * string))
    (state : string * num) : option (string * num) :=
  match l with
  | [] => Some state
  | (value, numeral) :: l' =>
      match while_ge turns value numeral state with
      | Some state' => forEach_numeral turns l' state'
      | None => None
      end
  end.

(** The argument is a number; [turns] bounds each of the loops. *)
Definition ToRoman (turns : nat) (num : num) : option string :=
  if isNaN num then Some ""
  else fst <$> forEach_numeral turns romanNumerals ("", num).

End Format.

Module Parse.

(** The pattern of [ToDate], its parts set apart by spaces:
    [^ (?: \w+ ,? \s* )? (\d{1,2}) \s+ (\w+) \s+ (\d{4})] with the
    flag [i], which changes nothing as the pattern has no letter of its
    own. *)
Definition datePattern : regex :=
  seq [ Bol;
        Opt (seq [Plus (Set_ is_word); Opt (Chr ","); Star (Set_ is_space)]);
        Group 1 (Rep 1 (Some 2) (Set_ is_digit));
        Plus (Set_ is_space);
        Group 2 (Plus (Set_ is_word));
        Plus (Set_ is_space);
        Group 3 (Rep 4 (Some 4) (Set_ is_digit)) ].

Definition month_names : list string :=
  ["januari"; "februari"; "maret"; "april"; "mei"; "juni";
   "juli"; "agustus"; "september"; "oktober"; "november"; "desember"].

(** [a.indexOf(s)], [None] standing for -1. *)
Fixpoint indexOf (a : list string) (s : string) : option nat :=
  match a with
  | [] => None
  | t :: a' =>
      if bool_decide (t = s) then Some 0 else S <$> indexOf a' s
  end.

(** The month number 1..12, or -1. *)
Definition _getMonthNumber (monthName : string) : Z :=
  match indexOf month_names (toLowerCase monthName) with
  | Some index => Z.of_nat index + 1
  | None => -1
  end.

Definition _padZero (num : jsval) : string :=
  padStart 2 "0" (to_string num).

(** Groups 1 to 3 take part in every match of the pattern, so [day],
    [monthName] and [year] are strings. *)
Definition ToDate (dateString : string) : completion string :=
  match exec datePattern dateString with
  | None => Throw (Error "Format tanggal tidak dikenali.")
  | Some m =>
      let day := matched m 1 in
      let monthName := matched m 2 in
      let year := matched m 3 in
      let month := _getMonthNumber (to_string monthName) in
      if (month =? -1)%Z then Throw (Error "Nama bulan tidak valid.")
      else Normal (to_string year +:+ "-"
                     +:+ _padZero (VNum (of_Z month)) +:+ "-"
                     +:+ _padZero day)
  end.

End Parse.

(** [Parse.ToDate(Format.ToDate(date))] with the default locale. *)
Definition roundtrip (date : string) : completion string :=
  match Format.ToDate date "id" with
  | Throw e => Throw e
  | Normal s => Parse.ToDate s
  end.

Module Util.

(** How a call of [AnonymizeText] ends: with a string, in the RangeError
    of [repeat] on a negative count, or in the TypeError of reading the
    length of undefined. *)
Inductive outcome : Type :=
| Returns (s : string)
| RangeError
| LengthOfUndefined.

Definition AnonymizeText (email : string) : outcome :=
  let parts := split "@" email in
  match index parts 0 with
  | VStr localPart =>
      let domain := index parts 1 in
      let visibleCount := if String.length localPart <? 4 then 1 else 3 in
      match repeat "*" (Z.of_nat (String.length localPart)
                        - Z.of_nat visibleCount) with
      | Some stars =>
          Returns (substring 0 visibleCount localPart +:+ stars +:+ "@"
                     +:+ to_string domain)
      | None => RangeError
      end
  | _ => LengthOfUndefined
  end.

End Util.

End SAT.

(** ** The document, as the validator sees it *)

Module Dom.

(** What the selectors of the validator tell apart: an [input] by its
    [type] attribute, [select], [textarea], and any other element. *)
Inductive kind : Type :=
| InputText | InputEmail | InputPassword | InputNumber
| InputRadio | InputCheckbox | InputFile
| InputDate | InputDatetimeLocal | InputTime | InputUrl | InputTel
| InputOther | Select | Textarea | OtherElement.

#[global] Instance kind_eq_dec : EqDecision kind.
Proof. solve_decision. Defined.

Record file : Type := {
  f_name : string;
  f_type : string;
  f_size : num
}.

(** The attributes and properties of an element the validator reads. *)
Record node : Type := {
  n_kind : kind;
  n_id : jsval;                     (* attr('id'): a string or undefined *)
  n_value : jsval;                  (* what val() reads on the element *)
  n_checked : bool;                 (* :checked *)
  n_files : option (list file);     (* the files property of a file input *)
  n_group : option nat              (* closest(parentClass) *)
}.

Inductive event : Type := Keyup | Change.

#[global] Instance event_eq_dec : EqDecision event.
Proof. solve_decision. Defined.

(** The one listener the validator registers:
    [() => this.#setErrorMessage(element)], on the events it names. *)
Record handler : Type := {
  h_events : list event;
  h_element : list nat
}.

(** Inside a container matching [parentClass]: the class [is-invalid] of
    each [.select2-selection] and the html of each message region. *)
Record group : Type := {
  g_select2 : list bool;
  g_messages : list string
}.

Record dom : Type := {
  nodes : gmap nat node;
  invalid : gset nat;                  (* the elements with class is-invalid *)
  handlers : gmap nat (list handler);  (* the listeners, oldest first *)
  groups : gmap nat group
}.

End Dom.

(** ** jQuery objects: a list of elements of the document *)

Module Jq.

Import Dom.

Definition jq : Type := list nat.
Definition selector : Type := list kind.

Definition elems (ns : gmap nat node) (el : jq) : list node :=
  omap (fun i => ns !! i) el.

Definition matches (sel : selector) (n : node) : bool :=
  bool_decide (n_kind n ∈ sel).

(** [el.is(sel)]: some element of the set matches. *)
Definition is_ (ns : gmap nat node) (el : jq) (sel : selector) : bool :=
  existsb (matches sel) (elems ns el).

(** [el.val()]: the value of the first element. *)
Definition val (ns : gmap nat node) (el : jq) : jsval :=
  match elems ns el with
  | n :: _ => n_value n
  | [] => VUndefined
  end.

(** [el.attr('id')] *)
Definition attr_id (ns : gmap nat node) (el : jq) : jsval :=
  match elems ns el with
  | n :: _ => n_id n
  | [] => VUndefined
  end.

(** [el.filter(':checked')] *)
Definition filter_checked (ns : gmap nat node) (el : jq) : jq :=
  List.filter (fun i => match ns !! i with
                        | Some n => n_checked n
                        | None => false
                        end) el.

(** [el.get(0).files]: a TypeError on an empty set, [None] when the
    first element has no such property. *)
Definition get0_files (ns : gmap nat node) (el : jq)
  : completion (option (list file)) :=
  match elems ns el with
  | n :: _ => Normal (n_files n)
  | [] => Throw TypeError
  end.

(** [el.closest(parentClass)] *)
Definition closest (ns : gmap nat node) (el : jq) : list nat :=
  omap (fun i => ns !! i ≫= n_group) el.

(** [el.toggleClass('is-invalid', b)] *)
Definition toggleClass (b : bool) (el : jq) (s : gset nat) : gset nat :=
  if b then s ∪ list_to_set el else s ∖ list_to_set el.

Definition toggle_select2 (b : bool) (g : group) : group :=
  {| g_select2 := (fun _ => b) <$> g_select2 g; g_messages := g_messages g |}.

(** [regions.html(message)]. The message is kept as it is given: that is
    the html of the region for a message without markup, the empty string
    among them; markup in a message is not parsed. *)
Definition set_html (message : string) (g : group) : group :=
  {| g_select2 := g_select2 g;
     g_messages := (fun _ => message) <$> g_messages g |}.

(** Apply [f] to each of the containers [gs]. *)
Definition in_groups (f : group -> group) (gs : list nat)
    (m : gmap nat group) : gmap nat group :=
  foldr (alter f) m gs.

(** [el.on(events, h)] *)
Definition on (h : handler) (el : jq) (m : gmap nat (list handler))
  : gmap nat (list handler) :=
  foldr (fun i m => <[i := default [] (m !! i) ++ [h]]> m) m el.

End Jq.

(** ** moment.js, which the date checks call

    The library is not part of the repository; the validator uses it through
    this interface. *)

Class Moment : Type := {
  moment : Type;
  (** [moment(value, format, true)] *)
  moment_strict : jsval -> string -> moment;
  isValid : moment -> bool;
  isBefore : moment -> moment -> bool;
  isAfter : moment -> moment -> bool;
  (** [m.isBetween(start, end, null, '[]')] *)
  isBetween : moment -> moment -> moment -> bool;
  format : moment -> string -> string
}.

(** ** Validator.js *)

Module Validator.

Import Js Dom Jq.

Record entry : Type := {
  entry_element : jsval;
  entry_message : string
}.

Record validator : Type := {
  errors : Z;
  errorMessages : list entry;
  parentClass : string;
  messageClass : string
}.

Definition constructor : validator :=
  {| errors := 0;
     errorMessages := [];
     parentClass := ".form-group";
     messageClass := ".validation-message" |}.

(** One validator and the document it works on; [console] collects what
    [console.error] was given. *)
Record world : Type := {
  this : validator;
  document : dom;
  console : list (list entry)
}.

(** *** Methods: state passing with exceptions *)

Definition M (A : Type) : Type := world -> completion A * world.

Definition ret {A} (a : A) : M A := fun w => (Normal a, w).

Definition throw {A} (e : js_error) : M A := fun w => (Throw e, w).

Definition bind {A B} (m : M A) (k : A -> M B) : M B :=
  fun w =>
    match m w with
    | (Normal a, w') => k a w'
    | (Throw e, w') => (Throw e, w')
    end.

Declare Scope js_scope.
Delimit Scope js_scope with js.
Notation "x <- m ;; k" := (bind m (fun x => k))
  (at level 100, m at next level, right associativity) : js_scope.
Notation "m ;; k" := (bind m (fun _ => k))
  (at level 100, right associativity) : js_scope.
Local Open Scope js_scope.

(** [a && b] and [a || b]: the right operand runs only when needed. *)
Definition and_then (a b : M bool) : M bool :=
  x <- a ;; if x then b else ret false.
Definition or_else (a b : M bool) : M bool :=
  x <- a ;; if x then ret true else b.
Infix "&&&" := and_then (at level 40, left associativity) : js_scope.
Infix "|||" := or_else (at level 50, left associativity) : js_scope.

(** [try { body } catch (error) { handler }] *)
Definition try_catch {A} (body : M A) (handler : js_error -> M A) : M A :=
  fun w =>
    match body w with
    | (Normal a, w') => (Normal a, w')
    | (Throw e, w') => handler e w'
    end.

Definition result {A} (m : M A) (w : world) : completion A := fst (m w).
Definition after {A} (m : M A) (w : world) : world := snd (m w).

(** Reading the document. *)
Definition read {A} (f : gmap nat node -> A) : M A :=
  fun w => (Normal (f (nodes (document w))), w).

Definition lift {A} (c : completion A) : M A := fun w => (c, w).

Definition update_this (f : validator -> validator) : M unit :=
  fun w => (Normal tt,
            {| this := f (this w); document := document w;
               console := console w |}).

Definition update_document (f : dom -> dom) : M unit :=
  fun w => (Normal tt,
            {| this := this w; document := f (document w);
               console := console w |}).

(** [this.errors++] *)
Definition increment (v : validator) : validator :=
  {| errors := errors v + 1; errorMessages := errorMessages v;
     parentClass := parentClass v; messageClass := messageClass v |}.

(** [this.errorMessages.push(e)] *)
Definition push (e : entry) (v : validator) : validator :=
  {| errors := errors v; errorMessages := errorMessages v ++ [e];
     parentClass := parentClass v; messageClass := messageClass v |}.

Definition mark_invalid (b : bool) (element : jq) (d : dom) : dom :=
  {| nodes := nodes d; invalid := toggleClass b element (invalid d);
     handlers := handlers d; groups := groups d |}.

Definition mark_select2 (b : bool) (element : jq) (d : dom) : dom :=
  {| nodes := nodes d; invalid := invalid d; handlers := handlers d;
     groups := in_groups (toggle_select2 b) (closest (nodes d) element)
                 (groups d) |}.

Definition show_message (message : string) (element : jq) (d : dom) : dom :=
  {| nodes := nodes d; invalid := invalid d; handlers := handlers d;
     groups := in_groups (set_html message) (closest (nodes d) element)
                 (groups d) |}.

Definition listen (events : list event) (element : jq) (d : dom) : dom :=
  {| nodes := nodes d; invalid := invalid d;
     handlers := on {| h_events := events; h_element := element |} element
                   (handlers d);
     groups := groups d |}.

(** [message !== ''] *)
Definition nonempty (message : string) : bool := negb (String.eqb message "").

Definition setErrorMessage (element : jq) (message : string) : M unit :=
  sel <- read (fun ns => is_ ns element [Select]) ;;
  (if sel then
     update_document (mark_select2 (nonempty message) element) ;;
     (if nonempty message then
        id <- read (fun ns => attr_id ns element) ;;
        update_this (push {| entry_element := id; entry_message := message |})
      else ret tt)
   else ret tt) ;;
  update_document (mark_invalid (nonempty message) element) ;;
  (if nonempty message then
     id <- read (fun ns => attr_id ns element) ;;
     update_this (push {| entry_element := VStr ("#" +:+ to_string id);
                          entry_message := message |})
   else ret tt) ;;
  update_document (show_message message element).

(** [message !== '' ? message : fallback] *)
Definition or_default (message fallback : string) : string :=
  if nonempty message then message else fallback.

(** What every check does once its condition holds:
    [this.errors++; this.#setErrorMessage(element, message);
     element.on(events, () => this.#setErrorMessage(element));
     return false]. *)
Definition reject (element : jq) (message : string) (events : list event)
  : M bool :=
  update_this increment ;;
  setErrorMessage element message ;;
  update_document (listen events element) ;;
  ret false.

(** [v.length], compared with a number afterwards. *)
Definition length_of (v : jsval) : completion num :=
  match v with
  | VStr s => Normal (of_Z (Z.of_nat (String.length s)))
  | VArr l => Normal (of_Z (Z.of_nat (length l)))
  | VNum _ => Normal NaN
  | VUndefined | VNull => Throw TypeError
  end.

(** [element.get(0).files] as an array. *)
Definition files (element : jq) : M (list file) :=
  fs <- (fun w => (get0_files (nodes (document w)) element, w)) ;;
  match fs with
  | Some l => ret l
  | None => throw TypeError
  end.

Definition text_like : selector :=
  [InputText; InputEmail; InputPassword; InputNumber; Select; Textarea].

(** *** General validation *)

Definition required (element : jq) (message : string) : M bool :=
  setErrorMessage element "" ;;
  c1 <- read (fun ns => is_ ns element text_like)
        &&& read (fun ns => is_empty_string (val ns element)) ;;
  if c1 then reject element (or_default message "Wajib diisi.") [Keyup; Change]
  else
    c2 <- read (fun ns => is_ ns element [InputRadio; InputCheckbox])
          &&& read (fun ns =>
                      is_undefined (val ns (filter_checked ns element))) ;;
    if c2 then reject element (or_default message "Wajib dipilih.") [Change]
    else
      c3 <- read (fun ns => is_ ns element [InputFile])
            &&& (fs <- files element ;; ret (length fs =? 0)) ;;
      if c3 then reject element (or_default message "Wajib diunggah.") [Change]
      else ret true.

Definition requiredIf (element otherElement : jq) (expectedValue : jsval)
    (message : string) : M bool :=
  setErrorMessage element "" ;;
  c <- read (fun ns => strict_eq (val ns otherElement) expectedValue)
       &&& read (fun ns => is_empty_string (val ns element)) ;;
  if c then reject element (or_default message "Field ini wajib diisi.")
              [Keyup; Change]
  else ret true.

Definition equalTo (element targetElement : jq) (message : string) : M bool :=
  setErrorMessage element "" ;;
  c <- read (fun ns =>
               negb (strict_eq (val ns element) (val ns targetElement))) ;;
  if c then reject element (or_default message "Input tidak sama.")
              [Keyup; Change]
  else ret true.

(** [[true, false, 'true', 'false', 1, 0, '1', '0'].includes(value)] *)
Definition validValues_includes (value : jsval) : bool :=
  match value with
  | VStr s => bool_decide (s ∈ ["true"; "false"; "1"; "0"])
  | VNum n => strict_eq_num n (of_Z 1) || strict_eq_num n (of_Z 0)
  | _ => false
  end.

Definition boolean (element : jq) (message : string) : M bool :=
  setErrorMessage element "" ;;
  value <- read (fun ns => val ns element) ;;
  if negb (validValues_includes value)
  then reject element (or_default message "Nilai harus berupa boolean.")
         [Change]
  else ret true.

(** *** Text validation *)

Definition text_fields : selector :=
  [InputText; InputEmail; InputPassword; Textarea].

Definition minLength (element : jq) (length : num) (message : string)
  : M bool :=
  setErrorMessage element "" ;;
  c <- read (fun ns => is_ ns element text_fields)
       &&& (n <- (v <- read (fun ns => val ns element) ;; lift (length_of v)) ;;
            ret (lt n length)) ;;
  if c then reject element
              (or_default message
                 ("Minimal " +:+ num_to_string length +:+ " karakter."))
              [Keyup]
  else ret true.

Definition maxLength (element : jq) (length : num) (message : string)
  : M bool :=
  setErrorMessage element "" ;;
  c <- read (fun ns => is_ ns element text_fields)
       &&& (n <- (v <- read (fun ns => val ns element) ;; lift (length_of v)) ;;
            ret (gt n length)) ;;
  if c then reject element
              (or_default message
                 ("Maksimal " +:+ num_to_string length +:+ " karakter."))
              [Keyup]
  else ret true.

Import RegExp.

(** [/^[a-zA-Z.,\s]*$/] *)
Definition alphabeticRegex : regex :=
  seq [Bol;
       Star (Set_ (fun c => is_alpha c || is_char "." c || is_char "," c
                            || is_space c));
       Eol].

Definition alphabetic (element : jq) (message : string) : M bool :=
  setErrorMessage element "" ;;
  c <- read (fun ns => negb (is_ ns element [InputText; Textarea]))
       ||| read (fun ns => negb (test alphabeticRegex (val ns element))) ;;
  if c then reject element (or_default message "Tidak boleh mengandung angka.")
              [Keyup; Change]
  else ret true.

(** [/^[a-zA-Z0-9\s]+$/] *)
Definition alphanumericRegex : regex :=
  seq [Bol; Plus (Set_ (fun c => is_alpha c || is_digit c || is_space c)); Eol].

Definition alphanumeric (element : jq) (message : string) : M bool :=
  setErrorMessage element "" ;;
  c <- read (fun ns => is_ ns element [InputText; Textarea])
       &&& read (fun ns => negb (test alphanumericRegex (val ns element))) ;;
  if c then reject element
              (or_default message "Hanya boleh mengandung huruf dan angka.")
              [Keyup; Change]
  else ret true.

Definition pattern (element : jq) (regex : regex) (message : string)
  : M bool :=
  setErrorMessage element "" ;;
  c <- read (fun ns => is_ ns element [InputText; Textarea])
       &&& read (fun ns => negb (test regex (val ns element))) ;;
  if c then reject element (or_default message "Format input tidak sesuai.")
              [Keyup; Change]
  else ret true.

(** [validatorFunction] is taken to be a function of the value alone,
    its result read as a boolean. *)
Definition custom (element : jq) (validatorFunction : jsval -> bool)
    (message : string) : M bool :=
  setErrorMessage element "" ;;
  c <- read (fun ns => negb (validatorFunction (val ns element))) ;;
  if c then reject element (or_default message "Input tidak valid.")
              [Keyup; Change]
  else ret true.

(** *** Numeric validation *)

(** [/^[0-9]+$/] *)
Definition numericRegex : regex := seq [Bol; Plus (Set_ is_digit); Eol].

Definition numeric (element : jq) (message : string) : M bool :=
  setErrorMessage element "" ;;
  c <- read (fun ns => is_ ns element [InputText; InputNumber; Textarea])
       &&& read (fun ns => negb (test numericRegex (val ns element))) ;;
  if c then reject element (or_default message "Hanya boleh mengandung angka.")
              [Keyup; Change]
  else ret true.

Definition minValue (element : jq) (minValue : num) (message : string)
  : M bool :=
  setErrorMessage element "" ;;
  value <- read (fun ns => parseFloat (val ns element)) ;;
  c <- read (fun ns => is_ ns element [InputNumber; InputText])
       &&& ret (lt value minValue) ;;
  if c then reject element
              (or_default message
                 ("Nilai minimal adalah " +:+ num_to_string minValue +:+ "."))
              [Keyup; Change]
  else ret true.

Definition maxValue (element : jq) (maxValue : num) (message : string)
  : M bool :=
  setErrorMessage element "" ;;
  value <- read (fun ns => parseFloat (val ns element)) ;;
  c <- read (fun ns => is_ ns element [InputNumber; InputText])
       &&& ret (gt value maxValue) ;;
  if c then reject element
              (or_default message
                 ("Nilai maksimal adalah " +:+ num_to_string maxValue +:+ "."))
              [Keyup; Change]
  else ret true.

Definition range (element : jq) (minValue maxValue : num) (message : string)
  : M bool :=
  setErrorMessage element "" ;;
  value <- read (fun ns => parseFloat (val ns element)) ;;
  c <- read (fun ns => is_ ns element [InputNumber; InputText])
       &&& (ret (lt value minValue) ||| ret (gt value maxValue)) ;;
  if c then reject element
              (or_default message
                 ("Nilai harus antara " +:+ num_to_string minValue
                    +:+ " dan " +:+ num_to_string maxValue +:+ "."))
              [Keyup; Change]
  else ret true.

(** *** File validation *)

(** [element.is('input[type="file"]') && element.get(0).files.length > 0] *)
Definition has_file (element : jq) : M bool :=
  read (fun ns => is_ ns element [InputFile])
  &&& (fs <- files element ;; ret (0 <? length fs)).

(** [element.get(0).files[0]], read after [has_file]: an empty list has
    no such file, and reading a property of [undefined] is a TypeError. *)
Definition first_file (element : jq) : M file :=
  fs <- files element ;;
  match fs with
  | f :: _ => ret f
  | [] => throw TypeError
  end.

Definition fileType (element : jq) (allowedTypes : list string)
    (message : string) : M bool :=
  setErrorMessage element "" ;;
  c <- has_file element ;;
  if c then
    file <- first_file element ;;
    if negb (bool_decide (f_type file ∈ allowedTypes))
    then reject element (or_default message "Format berkas tidak sesuai.")
           [Change]
    else ret true
  else ret true.

Definition fileSize (element : jq) (maxSize : num) (message : string)
  : M bool :=
  setErrorMessage element "" ;;
  c <- has_file element ;;
  if c then
    file <- first_file element ;;
    if gt (f_size file) maxSize
    then
      let maxSizeInMB := toFixed2 (div maxSize (1024 * 1024)) in
      let errorMessage :=
        or_default message
          ("Ukuran file tidak boleh lebih dari " +:+ maxSizeInMB +:+ " MB.") in
      reject element errorMessage [Change]
    else ret true
  else ret true.

(** [name.split('.').pop().toLowerCase()] *)
Definition extension (name : string) : string :=
  toLowerCase (List.last (split "." name) "").

Definition fileExtension (element : jq) (allowedExtensions : list string)
    (message : string) : M bool :=
  setErrorMessage element "" ;;
  c <- has_file element ;;
  if c then
    file <- first_file element ;;
    let fileExtension := extension (f_name file) in
    if negb (bool_decide (fileExtension ∈ allowedExtensions))
    then reject element (or_default message "Ekstensi file tidak diizinkan.")
           [Change]
    else ret true
  else ret true.

(** *** Date and time validation *)

Section DateAndTime.

Context {mo : Moment}.

Definition date (element : jq) (format : string) (message : string)
  : M bool :=
  setErrorMessage element "" ;;
  dateValue <- read (fun ns => val ns element) ;;
  let isValidDate := isValid (moment_strict dateValue format) in
  c <- read (fun ns => is_ ns element [InputText; InputDate])
       &&& ret (negb isValidDate) ;;
  if c then reject element
              (or_default message
                 ("Tanggal tidak sesuai format " +:+ format +:+ "."))
              [Keyup; Change]
  else ret true.

Definition datetime (element : jq) (format : string) (message : string)
  : M bool :=
  setErrorMessage element "" ;;
  datetimeValue <- read (fun ns => val ns element) ;;
  let isValidDatetime := isValid (moment_strict datetimeValue format) in
  c <- read (fun ns => is_ ns element [InputText; InputDatetimeLocal])
       &&& ret (negb isValidDatetime) ;;
  if c then reject element
              (or_default message
                 ("Format tanggal dan waktu tidak sesuai (" +:+ format
                    +:+ ")."))
              [Keyup; Change]
  else ret true.

Definition time (element : jq) (format : string) (message : string)
  : M bool :=
  setErrorMessage element "" ;;
  timeValue <- read (fun ns => val ns element) ;;
  let isValidTime := isValid (moment_strict timeValue format) in
  c <- read (fun ns => is_ ns element [InputText; InputTime])
       &&& ret (negb isValidTime) ;;
  if c then reject element
              (or_default message
                 ("Format waktu tidak sesuai (" +:+ format +:+ ")."))
              [Keyup; Change]
  else ret true.

Definition minDate (element : jq) (minDate : jsval) (format_ : string)
    (message : string) : M bool :=
  setErrorMessage element "" ;;
  dateValue <- read (fun ns => moment_strict (val ns element) format_) ;;
  let min := moment_strict minDate format_ in
  c <- read (fun ns => is_ ns element [InputText; InputDate])
       &&& (ret (negb (isValid dateValue)) ||| ret (isBefore dateValue min)) ;;
  if c then reject element
              (or_default message
                 ("Tanggal tidak boleh sebelum " +:+ format min format_
                    +:+ "."))
              [Keyup; Change]
  else ret true.

Definition maxDate (element : jq) (maxDate : jsval) (format_ : string)
    (message : string) : M bool :=
  setErrorMessage element "" ;;
  dateValue <- read (fun ns => moment_strict (val ns element) format_) ;;
  let max := moment_strict maxDate format_ in
  c <- read (fun ns => is_ ns element [InputText; InputDate])
       &&& (ret (negb (isValid dateValue)) ||| ret (isAfter dateValue max)) ;;
  if c then reject element
              (or_default message
                 ("Tanggal tidak boleh setelah " +:+ format max format_
                    +:+ "."))
              [Keyup; Change]
  else ret true.

Definition minDatetime (element : jq) (minDatetime : jsval)
    (format_ : string) (message : string) : M bool :=
  setErrorMessage element "" ;;
  datetimeValue <- read (fun ns => moment_strict (val ns element) format_) ;;
  let min := moment_strict minDatetime format_ in
  c <- read (fun ns => is_ ns element [InputText; InputDatetimeLocal])
       &&& (ret (negb (isValid datetimeValue))
            ||| ret (isBefore datetimeValue min)) ;;
  if c then reject element
              (or_default message
                 ("Tanggal dan waktu tidak boleh sebelum "
                    +:+ format min format_ +:+ "."))
              [Keyup; Change]
  else ret true.

Definition maxDatetime (element : jq) (maxDatetime : jsval)
    (format_ : string) (message : string) : M bool :=
  setErrorMessage element "" ;;
  datetimeValue <- read (fun ns => moment_strict (val ns element) format_) ;;
  let max := moment_strict maxDatetime format_ in
  c <- read (fun ns => is_ ns element [InputText; InputDatetimeLocal])
       &&& (ret (negb (isValid datetimeValue))
            ||| ret (isAfter datetimeValue max)) ;;
  if c then reject element
              (or_default message
                 ("Tanggal dan waktu tidak boleh setelah "
                    +:+ format max format_ +:+ "."))
              [Keyup; Change]
  else ret true.

Definition dateBetween (element : jq) (startDate endDate : jsval)
    (format_ : string) (message : string) : M bool :=
  setErrorMessage element "" ;;
  dateValue <- read (fun ns => moment_strict (val ns element) format_) ;;
  let start := moment_strict startDate format_ in
  let end_ := moment_strict endDate format_ in
  c <- read (fun ns => is_ ns element [InputText; InputDate])
       &&& (ret (negb (isValid dateValue))
            ||| ret (negb (isBetween dateValue start end_))) ;;
  if c then reject element
              (or_default message
                 ("Tanggal harus antara " +:+ format start format_
                    +:+ " dan " +:+ format end_ format_ +:+ "."))
              [Keyup; Change]
  else ret true.

Definition datetimeBetween (element : jq) (startDatetime endDatetime : jsval)
    (format_ : string) (message : string) : M bool :=
  setErrorMessage element "" ;;
  datetimeValue <- read (fun ns => moment_strict (val ns element) format_) ;;
  let start := moment_strict startDatetime format_ in
  let end_ := moment_strict endDatetime format_ in
  c <- read (fun ns => is_ ns element [InputText; InputDatetimeLocal])
       &&& (ret (negb (isValid datetimeValue))
            ||| ret (negb (isBetween datetimeValue start end_))) ;;
  if c then reject element
              (or_default message
                 ("Tanggal dan waktu harus antara " +:+ format start format_
                    +:+ " dan " +:+ format end_ format_ +:+ "."))
              [Keyup; Change]
  else ret true.

End DateAndTime.

(** *** Format validation *)

Definition not_space_at (c : ascii) : bool :=
  negb (is_space c || is_char "@" c).

(** [/^[^\s@]+@[^\s@]+\.[^\s@]+$/] *)
Definition emailRegex : regex :=
  seq [Bol; Plus (Set_ not_space_at); Chr "@"; Plus (Set_ not_space_at);
       Chr "."; Plus (Set_ not_space_at); Eol].

Definition email (element : jq) (message : string) : M bool :=
  setErrorMessage element "" ;;
  c <- read (fun ns => is_ ns element [InputText; InputEmail])
       &&& read (fun ns => negb (test emailRegex (val ns element))) ;;
  if c then reject element (or_default message "Email tidak sesuai format")
              [Keyup]
  else ret true.

Definition word_dash (c : ascii) : bool := is_word c || is_char "-" c.

(** The pattern of [url], its parts set apart by spaces:
    [^ (https?:\/\/)? ([\w\-]+\.)+ [\w\-]+ (\/[\w\-]* )* $], the three
    pairs of parentheses being groups 1, 2 and 3. *)
Definition urlRegex : regex :=
  seq [Bol;
       Opt (Group 1 (seq [Chr "h"; Chr "t"; Chr "t"; Chr "p"; Opt (Chr "s");
                          Chr ":"; Chr "/"; Chr "/"]));
       Plus (Group 2 (seq [Plus (Set_ word_dash); Chr "."]));
       Plus (Set_ word_dash);
       Star (Group 3 (seq [Chr "/"; Star (Set_ word_dash)]));
       Eol].

Definition url (element : jq) (message : string) : M bool :=
  setErrorMessage element "" ;;
  c <- read (fun ns => is_ ns element [InputText; InputUrl])
       &&& read (fun ns => negb (test urlRegex (val ns element))) ;;
  if c then reject element (or_default message "URL tidak sesuai format.")
              [Keyup; Change]
  else ret true.

(** [/^[0-9+\s()-]+$/] *)
Definition phoneRegex : regex :=
  seq [Bol;
       Plus (Set_ (fun c => is_digit c || is_char "+" c || is_space c
                            || is_char "(" c || is_char ")" c
                            || is_char "-" c));
       Eol].

Definition phoneNumber (element : jq) (message : string) : M bool :=
  setErrorMessage element "" ;;
  c <- read (fun ns => is_ ns element [InputText; InputTel])
       &&& read (fun ns => negb (test phoneRegex (val ns element))) ;;
  if c then reject element (or_default message "Nomor telepon tidak valid.")
              [Keyup; Change]
  else ret true.

(** *** Asynchronous validation *)

(** How the promise of [asyncValidatorFunction] ends: fulfilled with a
    value, read as a boolean, or rejected. An exception the function
    throws when called lands in the same [catch]. *)
Inductive settled : Type :=
| Fulfilled (isValid : bool)
| Rejected (reason : js_error).

Definition await (p : settled) : M bool :=
  match p with
  | Fulfilled b => ret b
  | Rejected e => throw e
  end.

(** Up to the [await]: the message is cleared and the value read; the
    result is the argument [asyncValidatorFunction] is called with. *)
Definition asyncValidation_start (element : jq) : M jsval :=
  setErrorMessage element "" ;;
  read (fun ns => val ns element).

(** From the [await] on. The completion is how the promise returned by
    [asyncValidation] ends: [Normal b] is fulfilled with [b], [Throw]
    rejected. *)
Definition asyncValidation_resume (element : jq) (p : settled)
    (message : string) : M bool :=
  try_catch
    (isValid <- await p ;;
     if negb isValid
     then reject element (or_default message "Input tidak valid.")
            [Keyup; Change]
     else ret true)
    (fun error =>
       update_this increment ;;
       setErrorMessage element "Terjadi kesalahan saat validasi." ;;
       ret false).

(** The whole call, when nothing else runs while the promise is pending. *)
Definition asyncValidation (element : jq)
    (asyncValidatorFunction : jsval -> settled) (message : string) : M bool :=
  value <- asyncValidation_start element ;;
  asyncValidation_resume element (asyncValidatorFunction value) message.

(** *** Additional methods *)

Definition throwErrorMessage (message : string) : M unit :=
  fun w =>
    if (1 <=? errors (this w))%Z then
      (Throw (Error message),
       {| this := this w; document := document w;
          console := console w ++ [errorMessages (this w)] |})
    else (Normal tt, w).

Definition default_message : string :=
  "Masih ada form yang belum diisi atau salah.".

(** A call [this[method](...args)] of one of the synchronous checks. *)
Inductive rule : Type :=
| Required (element : jq) (message : string)
| RequiredIf (element otherElement : jq) (expectedValue : jsval)
    (message : string)
| EqualTo (element targetElement : jq) (message : string)
| Boolean (element : jq) (message : string)
| MinLength (element : jq) (length : num) (message : string)
| MaxLength (element : jq) (length : num) (message : string)
| Alphabetic (element : jq) (message : string)
| Alphanumeric (element : jq) (message : string)
| Pattern (element : jq) (regex : regex) (message : string)
| Custom (element : jq) (validatorFunction : jsval -> bool) (message : string)
| Numeric (element : jq) (message : string)
| MinValue (element : jq) (minValue : num) (message : string)
| MaxValue (element : jq) (maxValue : num) (message : string)
| Range (element : jq) (minValue maxValue : num) (message : string)
| FileType (element : jq) (allowedTypes : list string) (message : string)
| FileSize (element : jq) (maxSize : num) (message : string)
| FileExtension (element : jq) (allowedExtensions : list string)
    (message : string)
| Date (element : jq) (format : string) (message : string)
| Datetime (element : jq) (format : string) (message : string)
| Time (element : jq) (format : string) (message : string)
| MinDate (element : jq) (minDate : jsval) (format : string) (message : string)
| MaxDate (element : jq) (maxDate : jsval) (format : string) (message : string)
| MinDatetime (element : jq) (minDatetime : jsval) (format : string)
    (message : string)
| MaxDatetime (element : jq) (maxDatetime : jsval) (format : string)
    (message : string)
| DateBetween (element : jq) (startDate endDate : jsval) (format : string)
    (message : string)
| DatetimeBetween (element : jq) (startDatetime endDatetime : jsval)
    (format : string) (message : string)
| Email (element : jq) (message : string)
| Url (element : jq) (message : string)
| PhoneNumber (element : jq) (message : string).

(** The first argument of the call. *)
Definition element_of (r : rule) : jq :=
  match r with
  | Required e _ | RequiredIf e _ _ _ | EqualTo e _ _ | Boolean e _
  | MinLength e _ _ | MaxLength e _ _ | Alphabetic e _ | Alphanumeric e _
  | Pattern e _ _ | Custom e _ _ | Numeric e _ | MinValue e _ _
  | MaxValue e _ _ | Range e _ _ _ | FileType e _ _ | FileSize e _ _
  | FileExtension e _ _ | Date e _ _ | Datetime e _ _ | Time e _ _
  | MinDate e _ _ _ | MaxDate e _ _ _ | MinDatetime e _ _ _
  | MaxDatetime e _ _ _ | DateBetween e _ _ _ _ | DatetimeBetween e _ _ _ _
  | Email e _ | Url e _ | PhoneNumber e _ => e
  end.

Section Batch.

Context {mo : Moment}.

Definition call (r : rule) : M bool :=
  match r with
  | Required e m => required e m
  | RequiredIf e o v m => requiredIf e o v m
  | EqualTo e t m => equalTo e t m
  | Boolean e m => boolean e m
  | MinLength e n m => minLength e n m
  | MaxLength e n m => maxLength e n m
  | Alphabetic e m => alphabetic e m
  | Alphanumeric e m => alphanumeric e m
  | Pattern e r m => pattern e r m
  | Custom e f m => custom e f m
  | Numeric e m => numeric e m
  | MinValue e n m => minValue e n m
  | MaxValue e n m => maxValue e n m
  | Range e a b m => range e a b m
  | FileType e l m => fileType e l m
  | FileSize e n m => fileSize e n m
  | FileExtension e l m => fileExtension e l m
  | Date e f m => date e f m
  | Datetime e f m => datetime e f m
  | Time e f m => time e f m
  | MinDate e d f m => minDate e d f m
  | MaxDate e d f m => maxDate e d f m
  | MinDatetime e d f m => minDatetime e d f m
  | MaxDatetime e d f m => maxDatetime e d f m
  | DateBetween e a b f m => dateBetween e a b f m
  | DatetimeBetween e a b f m => datetimeBetween e a b f m
  | Email e m => email e m
  | Url e m => url e m
  | PhoneNumber e m => phoneNumber e m
  end.

(** [l.forEach(f)] *)
Fixpoint forEach {A} (f : A -> M unit) (l : list A) : M unit :=
  match l with
  | [] => ret tt
  | a :: l' => f a ;; forEach f l'
  end.

Definition validateFields (validations : list rule) : M unit :=
  forEach (fun validation => _ <- call validation ;; ret tt) validations ;;
  throwErrorMessage default_message.

(** *** What happens to a validator and its page *)

(** The listeners of element [i] for [ev] run, oldest first. *)
Definition trigger (ev : event) (i : nat) : M unit :=
  fun w =>
    forEach (fun h => if bool_decide (ev ∈ h_events h)
                      then setErrorMessage (h_element h) ""
                      else ret tt)
      (default [] (handlers (document w) !! i)) w.

(** The user edits element [i]: what the validator reads of it is [n]
    from now on. *)
Definition input (i : nat) (n : node) (d : dom) : dom :=
  {| nodes := <[i := n]> (nodes d); invalid := invalid d;
     handlers := handlers d; groups := groups d |}.

Inductive action : Type :=
| Call (r : rule)
| AsyncStart (element : jq)
| AsyncResume (element : jq) (p : settled) (message : string)
| ValidateFields (validations : list rule)
| ThrowErrorMessage (message : string)
| Input (i : nat) (n : node)
| Trigger (ev : event) (i : nat).

(** The state after an action; an exception it throws is caught by
    the caller, the state stays as the action left it. *)
Definition step (w : world) (a : action) : world :=
  match a with
  | Call r => after (call r) w
  | AsyncStart e => after (asyncValidation_start e) w
  | AsyncResume e p m => after (asyncValidation_resume e p m) w
  | ValidateFields rs => after (validateFields rs) w
  | ThrowErrorMessage m => after (throwErrorMessage m) w
  | Input i n => after (update_document (input i n)) w
  | Trigger ev i => after (trigger ev i) w
  end.

Definition run (l : list action) (w : world) : world := foldl step w l.

End Batch.

(** A page with a fresh validator. *)
Definition new_world (d : dom) : world :=
  {| this := constructor; document := d; console := [] |}.

End Validator.

(** A moment for which no string is a date: every strict parse is invalid,
    comparisons with it are false and it prints as moment prints an invalid
    date. It closes the examples below, none of which parses a date. *)
Definition no_dates : Moment :=
  {| moment := unit;
     moment_strict := fun _ _ => tt;
     isValid := fun _ => false;
     isBefore := fun _ _ => false;
     isAfter := fun _ _ => false;
     isBetween := fun _ _ _ => false;
     format := fun _ _ => "Invalid date" |}.

(** * Vocabulary of the properties *)

(** ** States and matchers of the regular expressions *)

Section Matching.

Import RegExp.

(** [y] is a state the matching can reach from [x]: further on in the same
    input. *)
Definition further (x y : mstate) : Prop :=
  m_pos y + length (m_rest y) = m_pos x + length (m_rest x)
  ∧ length (m_rest y) ≤ length (m_rest x).

(** A matcher calls its continuation on such states only. *)
Definition local (m : cont → cont) : Prop :=
  ∀ c c' x, (∀ y, further x y → c y = c' y) → m c x = m c' x.

End Matching.

Section Vocabulary.

Import Js Dom Jq RegExp Validator.
Local Open Scope js_scope.

Context {mo : Moment}.

(** The entries [setErrorMessage] pushes: none for the empty message, one
    otherwise, and one more before it when the element is a select. *)
Definition entries (ns : gmap nat node) (element : jq) (message : string)
  : list entry :=
  if nonempty message then
    (if is_ ns element [Select]
     then [{| entry_element := attr_id ns element; entry_message := message |}]
     else [])
    ++ [{| entry_element := VStr ("#" +:+ to_string (attr_id ns element));
           entry_message := message |}]
  else [].

(** A computation that only reads the page. *)
Definition reads {A} (m : M A) : Prop :=
  ∃ f : gmap nat node → completion A,
    ∀ w, m w = (f (nodes (document w)), w).

(** What a check decides from the page: to pass, to fail with a message and
    the events it will listen to, or an exception on the way. *)
Definition decision : Type := completion (option (string * list event)).

Definition sound (c : decision) : Prop :=
  match c with
  | Normal (Some (message, events)) => nonempty message = true ∧ events ≠ []
  | _ => True
  end.

Definition conclude (c : decision) (element : jq) (w : world)
  : completion bool * world :=
  match c with
  | Normal None => (Normal true, w)
  | Normal (Some (message, events)) => reject element message events w
  | Throw e => (Throw e, w)
  end.

Definition decided (c : decision) (element : jq) (w : world)
  : completion bool * world :=
  conclude c element (after (setErrorMessage element "") w).

(** The body of a check after the first clearing: reads, then either
    [return true] or the failure block. *)
Inductive verdict_of (element : jq) : M bool → Prop :=
| verdict_pass : verdict_of element (ret true)
| verdict_reject message events :
    nonempty message = true → events ≠ [] →
    verdict_of element (reject element message events)
| verdict_bind {A} (m : M A) (k : A → M bool) :
    reads m → (∀ a, verdict_of element (k a)) →
    verdict_of element (bind m k).

(** The function [validateFields] passes to [forEach]. *)
Definition each_call (validation : rule) : M unit :=
  _ <- call validation ;; ret tt.

(** What [trigger] runs for each listener of the element. *)
Definition run_handler (ev : event) (h : handler) : M unit :=
  if bool_decide (ev ∈ h_events h)
  then setErrorMessage (h_element h) ""
  else ret tt.

(** The check returned false. *)
Definition failed (c : completion bool) : bool :=
  match c with
  | Normal false => true
  | _ => false
  end.

(** The check ended in an exception. *)
Definition threw {A} (c : completion A) : bool :=
  match c with
  | Throw _ => true
  | Normal _ => false
  end.

Definition fails (w : world) (r : rule) : bool := failed (result (call r) w).

(** The entries the call [r] adds to the error sequence of [w]. *)
Definition recorded (w : world) (r : rule) : list entry :=
  drop (length (errorMessages (this w)))
    (errorMessages (this (after (call r) w))).

(** The failing rules among [rs] whose element is a select. *)
Definition failing_selects (w : world) (rs : list rule) : list rule :=
  List.filter (fun r => fails w r
                        && is_ (nodes (document w)) (element_of r) [Select]) rs.

(** A container shows no message, and none of its select2 boxes is marked
    when [sel] asks for that too. *)
Definition calm (sel : bool) (g : group) : bool :=
  forallb (fun s => String.eqb s "") (g_messages g)
  && (negb sel || forallb negb (g_select2 g)).

(** The invalid indicator and the inline message of [element] are off: no
    element of the set has the class, the message regions of its containers
    are empty and, for a select, so is the mark on the select2 box. *)
Definition cleared (element : jq) (d : dom) : bool :=
  forallb (fun i => bool_decide (i ∉ invalid d)) element
  && forallb (fun g => match groups d !! g with
                       | Some grp => calm (is_ (nodes d) element [Select]) grp
                       | None => true
                       end)
       (closest (nodes d) element).

(** The selector a method tests its element against before anything else
    counts; [required] has three, one per branch. The methods left out test
    no selector. *)
Definition selector_of (r : rule) : option selector :=
  match r with
  | Required _ _ =>
      Some (text_like ++ [InputRadio; InputCheckbox] ++ [InputFile])
  | MinLength _ _ _ | MaxLength _ _ _ => Some text_fields
  | Alphanumeric _ _ | Pattern _ _ _ => Some [InputText; Textarea]
  | Numeric _ _ => Some [InputText; InputNumber; Textarea]
  | MinValue _ _ _ | MaxValue _ _ _ | Range _ _ _ _ =>
      Some [InputNumber; InputText]
  | FileType _ _ _ | FileSize _ _ _ | FileExtension _ _ _ => Some [InputFile]
  | Date _ _ _ | MinDate _ _ _ _ | MaxDate _ _ _ _ | DateBetween _ _ _ _ _ =>
      Some [InputText; InputDate]
  | Datetime _ _ _ | MinDatetime _ _ _ _ | MaxDatetime _ _ _ _
  | DatetimeBetween _ _ _ _ _ => Some [InputText; InputDatetimeLocal]
  | Time _ _ _ => Some [InputText; InputTime]
  | Email _ _ => Some [InputText; InputEmail]
  | Url _ _ => Some [InputText; InputUrl]
  | PhoneNumber _ _ => Some [InputText; InputTel]
  | Alphabetic _ _ => Some [InputText; Textarea]
  | RequiredIf _ _ _ _ | EqualTo _ _ _ | Boolean _ _ | Custom _ _ _ => None
  end.

(** [alphabetic] is the one method that fails on an element its selector
    does not match: its test is [!element.is(...) || ...]. *)
Definition fails_on_mismatch (r : rule) : bool :=
  match r with
  | Alphabetic _ _ => true
  | _ => false
  end.

(** The number of elements that carry the invalid indicator. *)
Definition marked (d : dom) : Z := Z.of_nat (size (invalid d)).

End Vocabulary.


(** ** Quantified character classes *)

Module Classes.

Import Js RegExp.

(** The state [k] characters further on. *)
Definition skip (k : nat) (x : mstate) : mstate :=
  {| m_pos := k + m_pos x; m_rest := drop k (m_rest x); m_caps := m_caps x |}.

(** The number of leading characters of [l] in the class [p]. *)
Definition leading (p : ascii → bool) (l : list ascii) : nat :=
  length (take_while p l).

(** [n] capped by the upper bound of a quantifier. *)
Definition cap (max : option nat) (n : nat) : nat :=
  match max with
  | Some k => Nat.min k n
  | None => n
  end.

(** The first of the states [l] on which [c] succeeds. *)
Fixpoint first_success (c : cont) (l : list mstate) : option mstate :=
  match l with
  | [] => None
  | y :: l' => or_else (c y) (fun _ => first_success c l')
  end.

(** The states a greedy quantifier on a class tries, longest run first:
    from [hi] characters further on down to [lo]. *)
Definition choices (lo hi : nat) (x : mstate) : list mstate :=
  (fun k => skip k x) <$> reverse (List.seq lo (S hi - lo)).

End Classes.

(** ** More vocabulary of the checks *)

Section MoreVocabulary.

Import Js Dom Jq RegExp Validator.
Local Open Scope js_scope.

Context {mo : Moment}.

(** The message argument of the call. *)
Definition message_of (r : rule) : string :=
  match r with
  | Required _ m | RequiredIf _ _ _ m | EqualTo _ _ m | Boolean _ m
  | MinLength _ _ m | MaxLength _ _ m | Alphabetic _ m | Alphanumeric _ m
  | Pattern _ _ m | Custom _ _ m | Numeric _ m | MinValue _ _ m
  | MaxValue _ _ m | Range _ _ _ m | FileType _ _ m | FileSize _ _ m
  | FileExtension _ _ m | Date _ _ m | Datetime _ _ m | Time _ _ m
  | MinDate _ _ _ m | MaxDate _ _ _ m | MinDatetime _ _ _ m
  | MaxDatetime _ _ _ m | DateBetween _ _ _ _ m | DatetimeBetween _ _ _ _ m
  | Email _ m | Url _ m | PhoneNumber _ m => m
  end.

(** The format argument of the nine date and time checks. *)
Definition format_of (r : rule) : option string :=
  match r with
  | Date _ f _ | Datetime _ f _ | Time _ f _
  | MinDate _ _ f _ | MaxDate _ _ f _ | MinDatetime _ _ f _
  | MaxDatetime _ _ f _ | DateBetween _ _ _ f _
  | DatetimeBetween _ _ _ f _ => Some f
  | _ => None
  end.

(** The body of a check called with [message]: where it fails, it fails
    with [message], or with a fallback of its own when [message] is
    empty. *)
Inductive worded (element : jq) (message : string) : M bool → Prop :=
| worded_pass : worded element message (ret true)
| worded_reject fallback events :
    nonempty fallback = true →
    worded element message
      (reject element (or_default message fallback) events)
| worded_bind {A} (m : M A) (k : A → M bool) :
    reads m → (∀ a, worded element message (k a)) →
    worded element message (bind m k).

(** A message without markup: it has none of the characters that
    [.html(message)] reads as markup or gives back escaped (the signs for
    less than, greater than and ampersand, the no-break space) or that the
    parser alters (the carriage return, the null character). The html of a
    region that is given such a message is the message itself, which is
    what [set_html] keeps. *)
Definition plain (message : string) : bool :=
  forallb (fun c => negb (is_char "<" c || is_char ">" c || is_char "&" c
                          || (code c =? 160)%N || (code c =? 13)%N
                          || (code c =? 0)%N))
    (chars message).

(** Every message region of the container shows [message]. *)
Definition shows (message : string) (g : group) : bool :=
  forallb (String.eqb message) (g_messages g).

(** Every element of the set carries the invalid indicator. *)
Definition all_invalid (element : jq) (d : dom) : bool :=
  forallb (fun i => bool_decide (i ∈ invalid d)) element.

(** The containers of the elements show [message]. *)
Definition shown (element : jq) (message : string) (d : dom) : bool :=
  forallb (fun g => match groups d !! g with
                    | Some grp => shows message grp
                    | None => true
                    end)
    (closest (nodes d) element).

(** No action but an edit of the page. *)
Definition leaves_page (a : action) : bool :=
  match a with
  | Input _ _ => false
  | _ => true
  end.

(** The listeners of element [i]. *)
Definition listeners (d : dom) (i : nat) : list handler :=
  default [] (handlers d !! i).

(** How the call of the asynchronous predicate turns out as a verdict. *)
Definition verdict_of_settled (p : settled) : bool :=
  match p with
  | Fulfilled b => b
  | Rejected _ => false
  end.

(** The entries of [w'] extend those of [w], by at least as many as the
    count has grown. *)
Definition accounted (w w' : world) : Prop :=
  errorMessages (this w) `prefix_of` errorMessages (this w')
  ∧ (errors (this w') - errors (this w)
     <= Z.of_nat (length (errorMessages (this w')))
        - Z.of_nat (length (errorMessages (this w))))%Z.

(** No character of [l] is the at sign. *)
Definition no_at (l : list ascii) : bool :=
  forallb (fun c => negb (is_char "@" c)) l.

(** The pattern of [Parse.ToDate] in its two parts: the optional word at the
    front, [(?: \w+ ,? \s* )?] without the question mark, and what follows. *)
Definition word_in_front : regex :=
  seq [Plus (Set_ is_word); Opt (Chr ","); Star (Set_ is_space)].

Definition day_month_year : regex :=
  seq [ Group 1 (Rep 1 (Some 2) (Set_ is_digit));
        Plus (Set_ is_space);
        Group 2 (Plus (Set_ is_word));
        Plus (Set_ is_space);
        Group 3 (Rep 4 (Some 4) (Set_ is_digit)) ].

End MoreVocabulary.

(** ** Sample pages *)

Module Sample.

Import Js Dom Jq Validator.

(** An element with an id and a value, inside container 0. *)
Definition field (k : kind) (id value : string) : node :=
  {| n_kind := k; n_id := VStr id; n_value := VStr value; n_checked := false;
     n_files := None; n_group := Some 0 |}.

(** A page made of element 7 alone, in a container with one message region
    and, for a select, one select2 box. *)
Definition page (k : kind) (id value : string) : dom :=
  {| nodes := {[ 7 := field k id value ]};
     invalid := ∅;
     handlers := ∅;
     groups := {[ 0 := {| g_select2 := [false]; g_messages := [""] |} ]} |}.

Definition age_between_18_and_99 : rule := Range [7] (of_Z 18) (of_Z 99) "".

(** Radio buttons 1 and 2 in container 0, neither of them checked. *)
Definition radios : dom :=
  let radio value :=
    {| n_kind := InputRadio; n_id := VUndefined; n_value := VStr value;
       n_checked := false; n_files := None; n_group := Some 0 |} in
  {| nodes := {[ 1 := radio "yes"; 2 := radio "no" ]};
     invalid := ∅;
     handlers := ∅;
     groups := {[ 0 := {| g_select2 := []; g_messages := [""] |} ]} |}.

(** A file input, element 7, with the files [fs] chosen. *)
Definition upload (fs : list file) : dom :=
  {| nodes := {[ 7 := {| n_kind := InputFile; n_id := VStr "scan";
                         n_value := VStr ""; n_checked := false;
                         n_files := Some fs; n_group := Some 0 |} ]};
     invalid := ∅;
     handlers := ∅;
     groups := {[ 0 := {| g_select2 := []; g_messages := [""] |} ]} |}.

Definition photo : file :=
  {| f_name := "photo.JPG"; f_type := "image/jpeg"; f_size := of_Z 2048 |}.

(** A select without options, whose value reads null, and a text field:
    the set [1; 2] has the select first. *)
Definition mixed : dom :=
  {| nodes := {[ 1 := {| n_kind := Select; n_id := VStr "city";
                         n_value := VNull; n_checked := false;
                         n_files := None; n_group := Some 0 |};
                 2 := field InputText "street" "" ]};
     invalid := ∅;
     handlers := ∅;
     groups := {[ 0 := {| g_select2 := [false]; g_messages := [""] |} ]} |}.

End Sample.

(** ** The calendar of the round trip *)

Module Calendar.

Import Js.

Definition two_digits (n : Z) : string := padStart 2 "0" (pretty n).

(** The date as YYYY-MM-DD. *)
Definition iso_date (y m d : Z) : string :=
  pretty y +:+ "-" +:+ two_digits m +:+ "-" +:+ two_digits d.

Definition leap (y : Z) : bool :=
  ((y mod 4 =? 0) && negb (y mod 100 =? 0) || (y mod 400 =? 0))%Z.

Definition days_in (y m : Z) : Z :=
  if (m =? 2)%Z then (if leap y then 29 else 28)%Z
  else if bool_decide (m ∈ [4; 6; 9; 11]%Z) then 30%Z
  else 31%Z.

(** The integers from [a] to [b]. *)
Definition range_Z (a b : Z) : list Z :=
  (fun i => a + Z.of_nat i)%Z <$> seq 0 (Z.to_nat (b - a + 1)).

(** What comes back of a day: itself below 10, its last digit from 10 on. *)
Definition day_back (d : Z) : Z := if (d <? 10)%Z then d else (d mod 10)%Z.

Definition comes_back (y m d : Z) : bool :=
  match SAT.roundtrip (iso_date y m d) with
  | Normal s => String.eqb s (iso_date y m (day_back d))
  | Throw _ => false
  end.

Definition all_come_back : bool :=
  forallb (fun y =>
    forallb (fun m => forallb (comes_back y m) (range_Z 1 (days_in y m)))
      (range_Z 1 12))
    (range_Z 1900 2099).

End Calendar.


(** ** Roman numerals, read *)

Module Roman.

Import Js.

Definition symbol (c : ascii) : Z :=
  if is_char "I" c then 1
  else if is_char "V" c then 5
  else if is_char "X" c then 10
  else if is_char "L" c then 50
  else if is_char "C" c then 100
  else if is_char "D" c then 500
  else if is_char "M" c then 1000
  else 0.

(** The number a numeral stands for: a symbol counts negative when a larger
    one follows it. *)
Fixpoint value (l : list ascii) : Z :=
  match l with
  | [] => 0
  | c :: l' =>
      match l' with
      | d :: _ =>
          if (symbol c <? symbol d)%Z then (value l' - symbol c)%Z
          else (symbol c + value l')%Z
      | [] => symbol c
      end
  end.

Definition roman_value (s : string) : Z := value (chars s).

(** The numerals below M. *)
Definition below_M : list (Z * string) := tail SAT.Format.romanNumerals.

(** The loops after the one of M, run on [r], give a numeral that reads
    as [r] and leave nothing. *)
Definition reads_back (r : Z) : bool :=
  match SAT.Format.forEach_numeral 5 below_M ("", of_Z r) with
  | Some (s, Fin q) => (roman_value s =? r)%Z && Qeq_bool q 0
  | _ => false
  end.

End Roman.

(** * Properties *)

(** ** The quantifiers of the regular expressions *)

Section Turns.

Import Js RegExp.

Lemma further_refl x : further x x.
Proof. split; reflexivity. Qed.

Lemma further_trans x y z : further x y → further y z → further x z.
Proof. unfold further. intros [? ?] [? ?]. split; lia. Qed.

Lemma further_clear gs x y : further (clear gs x) y → further x y.
Proof. exact id. Qed.

Lemma further_capture i x x' y : further x y → further x (capture i x' y).
Proof. exact id. Qed.

Lemma repeatMatcher_local m :
  local m → ∀ t gs min max, local (repeatMatcher t m gs min max).
Proof.
  intros Hm t. induction t as [|t IH]; intros gs min max c c' x Hc;
    [reflexivity|].
  cbn [repeatMatcher].
  assert (m (fun y => if (min =? 0) && (m_pos y =? m_pos x) then None
                      else repeatMatcher t m gs (pred min) (pred <$> max) c y)
            (clear gs x)
          = m (fun y => if (min =? 0) && (m_pos y =? m_pos x) then None
                        else repeatMatcher t m gs (pred min) (pred <$> max) c' y)
              (clear gs x)) as Hd.
  { apply Hm. intros y Hy.
    destruct ((min =? 0) && (m_pos y =? m_pos x)); [reflexivity|].
    apply IH. intros z Hz. apply Hc.
    apply (further_trans x y z); [apply (further_clear gs), Hy | exact Hz]. }
  rewrite Hd, (Hc x (further_refl x)). reflexivity.
Qed.

Lemma matcher_local r : local (matcher r).
Proof.
  induction r as [| | |p|r1 IH1 r2 IH2|r1 IH1 r2 IH2|min max r IH|i r IH];
    intros c c' x Hc; cbn [matcher].
  - apply Hc, further_refl.
  - rewrite (Hc x (further_refl x)). reflexivity.
  - rewrite (Hc x (further_refl x)). reflexivity.
  - destruct (m_rest x) as [|ch rest] eqn:E; [reflexivity|].
    destruct (p ch); [|reflexivity]. apply Hc.
    unfold further. cbn. rewrite E. cbn. split; lia.
  - apply IH1. intros y Hy. apply IH2. intros z Hz. apply Hc.
    apply (further_trans x y z); assumption.
  - rewrite (IH1 c c' x Hc), (IH2 c c' x Hc). reflexivity.
  - apply repeatMatcher_local; assumption.
  - apply IH. intros y Hy. apply Hc, further_capture, Hy.
Qed.

Lemma repeatMatcher_turns m :
  local m →
  ∀ t t' gs min max c x,
    min + length (m_rest x) < t → min + length (m_rest x) < t' →
    repeatMatcher t m gs min max c x = repeatMatcher t' m gs min max c x.
Proof.
  intros Hm t. induction t as [|t IH]; intros t' gs min max c x Ht Ht';
    [lia|].
  destruct t' as [|t']; [lia|]. cbn [repeatMatcher].
  assert (m (fun y => if (min =? 0) && (m_pos y =? m_pos x) then None
                      else repeatMatcher t m gs (pred min) (pred <$> max) c y)
            (clear gs x)
          = m (fun y => if (min =? 0) && (m_pos y =? m_pos x) then None
                        else repeatMatcher t' m gs (pred min) (pred <$> max) c y)
              (clear gs x)) as Hd.
  { apply Hm. intros y [Hpos Hlen]. cbn in Hpos, Hlen.
    destruct (min =? 0) eqn:Emin; cbn [andb].
    - apply Nat.eqb_eq in Emin. subst min.
      destruct (m_pos y =? m_pos x) eqn:Epos; [reflexivity|].
      apply Nat.eqb_neq in Epos. apply IH; cbn; lia.
    - apply Nat.eqb_neq in Emin. apply IH; lia. }
  rewrite Hd. reflexivity.
Qed.

(** A quantifier never runs out of turns: with more of them than the
    matcher takes, the outcome is the same. *)
Lemma matcher_turns r min max c x t :
  min + length (m_rest x) < t →
  repeatMatcher t (matcher r) (groups_in r) min max c x
  = matcher (Rep min max r) c x.
Proof.
  intros Ht. cbn [matcher].
  apply repeatMatcher_turns; [apply matcher_local | lia | lia].
Qed.
End Turns.

Section Properties.

Import Js Dom Jq RegExp Validator.
Local Open Scope js_scope.

Context {mo : Moment}.

(** ** The private method and the failure block *)

Lemma setErrorMessage_total element message w :
  setErrorMessage element message w
  = (Normal tt, after (setErrorMessage element message) w).
Proof.
  unfold after, setErrorMessage, bind, read, update_document, update_this, ret.
  cbn. destruct (is_ _ _ _), (nonempty message); reflexivity.
Qed.

Lemma setErrorMessage_nodes element message w :
  nodes (document (after (setErrorMessage element message) w))
  = nodes (document w).
Proof.
  unfold after, setErrorMessage, bind, read, update_document, update_this, ret.
  cbn. destruct (is_ _ _ _), (nonempty message); reflexivity.
Qed.

Lemma setErrorMessage_handlers element message w :
  handlers (document (after (setErrorMessage element message) w))
  = handlers (document w).
Proof.
  unfold after, setErrorMessage, bind, read, update_document, update_this, ret.
  cbn. destruct (is_ _ _ _), (nonempty message); reflexivity.
Qed.

Lemma setErrorMessage_console element message w :
  console (after (setErrorMessage element message) w) = console w.
Proof.
  unfold after, setErrorMessage, bind, read, update_document, update_this, ret.
  cbn. destruct (is_ _ _ _), (nonempty message); reflexivity.
Qed.

Lemma setErrorMessage_errors element message w :
  errors (this (after (setErrorMessage element message) w)) = errors (this w).
Proof.
  unfold after, setErrorMessage, bind, read, update_document, update_this, ret.
  cbn. destruct (is_ _ _ _), (nonempty message); reflexivity.
Qed.

Lemma setErrorMessage_messages element message w :
  errorMessages (this (after (setErrorMessage element message) w))
  = errorMessages (this w) ++ entries (nodes (document w)) element message.
Proof.
  unfold after, setErrorMessage, entries, bind, read, update_document,
    update_this, ret.
  cbn. destruct (is_ _ _ _), (nonempty message); cbn;
    rewrite <- ?app_assoc, ?app_nil_r; reflexivity.
Qed.

Lemma setErrorMessage_invalid element message w :
  invalid (document (after (setErrorMessage element message) w))
  = toggleClass (nonempty message) element (invalid (document w)).
Proof.
  unfold after, setErrorMessage, bind, read, update_document, update_this, ret.
  cbn. destruct (is_ _ _ _), (nonempty message); reflexivity.
Qed.

Lemma setErrorMessage_groups element w :
  let ns := nodes (document w) in
  groups (document (after (setErrorMessage element "") w))
  = in_groups (set_html "") (closest ns element)
      (if is_ ns element [Select]
       then in_groups (toggle_select2 false) (closest ns element)
              (groups (document w))
       else groups (document w)).
Proof.
  unfold after, setErrorMessage, bind, read, update_document, update_this, ret.
  cbn. destruct (is_ _ _ _); reflexivity.
Qed.

(** Clearing leaves the validator itself as it was. *)
Lemma setErrorMessage_clear_this element w :
  this (after (setErrorMessage element "") w) = this w.
Proof.
  unfold after, setErrorMessage, bind, read, update_document, update_this, ret.
  cbn. destruct (is_ _ _ _); reflexivity.
Qed.

#[local] Arguments setErrorMessage : simpl never.

Lemma reject_total element message events w :
  reject element message events w
  = (Normal false, after (reject element message events) w).
Proof.
  unfold after, reject, bind, update_this, update_document, ret.
  cbn. rewrite setErrorMessage_total. reflexivity.
Qed.

Lemma reject_state element message events w :
  let w' := after (reject element message events) w in
  nodes (document w') = nodes (document w)
  ∧ errors (this w') = (errors (this w) + 1)%Z
  ∧ errorMessages (this w')
    = errorMessages (this w) ++ entries (nodes (document w)) element message
  ∧ handlers (document w')
    = on {| h_events := events; h_element := element |} element
        (handlers (document w))
  ∧ console w' = console w.
Proof.
  unfold after, reject, bind, update_this, update_document, ret.
  cbn. rewrite setErrorMessage_total. cbn.
  rewrite setErrorMessage_nodes, setErrorMessage_errors,
    setErrorMessage_messages, setErrorMessage_handlers,
    setErrorMessage_console.
  cbn. repeat split.
Qed.

#[local] Arguments reject : simpl never.

(** ** The shape of a check *)

Lemma reads_read {A} (f : gmap nat node → A) : reads (read f).
Proof. exists (fun ns => Normal (f ns)). reflexivity. Qed.

Lemma reads_ret {A} (a : A) : reads (ret a).
Proof. exists (fun _ => Normal a). reflexivity. Qed.

Lemma reads_throw {A} (e : js_error) : reads (@throw A e).
Proof. exists (fun _ => Throw e). reflexivity. Qed.

Lemma reads_lift {A} (c : completion A) : reads (lift c).
Proof. exists (fun _ => c). reflexivity. Qed.

Lemma reads_bind {A B} (m : M A) (k : A → M B) :
  reads m → (∀ a, reads (k a)) → reads (bind m k).
Proof.
  intros [f Hf] Hk.
  exists (fun ns => match f ns with
                    | Normal a => fst (k a (new_world
                        {| nodes := ns; invalid := ∅; handlers := ∅;
                           groups := ∅ |}))
                    | Throw e => Throw e
                    end).
  intros w. unfold bind. rewrite Hf.
  destruct (f (nodes (document w))) as [a|e]; [|reflexivity].
  destruct (Hk a) as [g Hg]. rewrite !Hg. reflexivity.
Qed.

Lemma reads_if {A} (b : bool) (x y : M A) :
  reads x → reads y → reads (if b then x else y).
Proof. destruct b; auto. Qed.

Lemma reads_and_then a b : reads a → reads b → reads (a &&& b).
Proof.
  intros Ha Hb. apply reads_bind; [assumption|].
  intros x. apply reads_if; [assumption | apply reads_ret].
Qed.

Lemma reads_or_else a b : reads a → reads b → reads (a ||| b).
Proof.
  intros Ha Hb. apply reads_bind; [assumption|].
  intros x. apply reads_if; [apply reads_ret | assumption].
Qed.

Lemma reads_files element : reads (files element).
Proof.
  apply reads_bind.
  - exists (fun ns => get0_files ns element). reflexivity.
  - intros [l|]; [apply reads_ret | apply reads_throw].
Qed.

Lemma reads_has_file element : reads (has_file element).
Proof.
  apply reads_and_then; [apply reads_read|].
  apply reads_bind; [apply reads_files | intros; apply reads_ret].
Qed.

Lemma reads_first_file element : reads (first_file element).
Proof.
  apply reads_bind; [apply reads_files|].
  intros [|f l]; [apply reads_throw | apply reads_ret].
Qed.

Create HintDb reads discriminated.
#[local] Hint Resolve reads_read reads_ret reads_throw reads_lift reads_bind
  reads_and_then reads_or_else reads_files reads_has_file reads_first_file
  : reads.

Lemma verdict_if element (b : bool) (x y : M bool) :
  verdict_of element x → verdict_of element y →
  verdict_of element (if b then x else y).
Proof. destruct b; auto. Qed.

Lemma verdict_decides element t :
  verdict_of element t →
  ∀ ns, ∃ c, sound c ∧
    ∀ w, nodes (document w) = ns → t w = conclude c element w.
Proof.
  induction 1 as [|message events Hm He|A m k [f Hf] Hk IH]; intros ns.
  - exists (Normal None). split; [exact I | reflexivity].
  - exists (Normal (Some (message, events))). split; [split; assumption|].
    reflexivity.
  - destruct (f ns) as [a|e] eqn:E.
    + destruct (IH a ns) as (c & Hc & Hw). exists c. split; [assumption|].
      intros w <-. unfold bind. rewrite Hf, E. apply Hw. reflexivity.
    + exists (Throw e). split; [exact I|].
      intros w <-. unfold bind. rewrite Hf, E. reflexivity.
Qed.

Lemma or_default_nonempty message fallback :
  nonempty fallback = true → nonempty (or_default message fallback) = true.
Proof.
  unfold or_default. destruct (nonempty message) eqn:E; auto.
Qed.

Ltac verdict :=
  repeat first
    [ apply verdict_pass
    | apply verdict_reject;
      [first [apply or_default_nonempty; reflexivity | reflexivity]
      | discriminate]
    | apply verdict_if
    | apply verdict_bind; [auto 10 with reads | intros ?] ].

(** Every check clears the element first and then is such a body. *)
Lemma call_body r :
  ∃ t, verdict_of (element_of r) t
       ∧ call r = bind (setErrorMessage (element_of r) "") (fun _ => t).
Proof.
  destruct r; cbn [call element_of]; eexists; (split; [|reflexivity]);
    verdict.
Qed.

(** The decision of a check depends on the page alone. *)
Lemma call_decided r ns :
  ∃ c, sound c ∧
    ∀ w, nodes (document w) = ns → call r w = decided c (element_of r) w.
Proof.
  destruct (call_body r) as (t & Ht & ->).
  destruct (verdict_decides _ _ Ht ns) as (c & Hc & Hw).
  exists c. split; [assumption|]. intros w <-.
  unfold decided, bind. rewrite setErrorMessage_total.
  apply Hw, setErrorMessage_nodes.
Qed.

(** What a call leaves behind, by its result. *)
Lemma call_effect r w :
  let w' := after (call r) w in
  let w0 := after (setErrorMessage (element_of r) "") w in
  nodes (document w') = nodes (document w)
  ∧ console w' = console w
  ∧ (if failed (result (call r) w)
     then ∃ message events,
       nonempty message = true ∧ events ≠ []
       ∧ w' = after (reject (element_of r) message events) w0
     else w' = w0).
Proof.
  destruct (call_decided r (nodes (document w))) as (c & Hc & Hw).
  unfold after, result, fails. rewrite (Hw w eq_refl).
  unfold decided, conclude.
  destruct c as [[[message events]|]|e]; cbn.
  - rewrite reject_total. cbn.
    destruct (reject_state (element_of r) message events
                (after (setErrorMessage (element_of r) "") w))
      as (Hn & _ & _ & _ & Hc').
    rewrite Hn, Hc', setErrorMessage_nodes, setErrorMessage_console.
    destruct Hc. repeat split. eauto.
  - rewrite setErrorMessage_nodes, setErrorMessage_console. repeat split.
  - rewrite setErrorMessage_nodes, setErrorMessage_console. repeat split.
Qed.

Lemma call_nodes r w :
  nodes (document (after (call r) w)) = nodes (document w).
Proof. apply call_effect. Qed.

(** On the same page a call gives the same result and records the same
    entries, whatever the validator holds. *)
Lemma call_same_page r w w' :
  nodes (document w) = nodes (document w') →
  result (call r) w = result (call r) w' ∧ recorded w r = recorded w' r.
Proof.
  intros Hn.
  destruct (call_decided r (nodes (document w))) as (c & Hc & Hw).
  unfold recorded, result, after.
  rewrite (Hw w eq_refl), (Hw w' (eq_sym Hn)).
  unfold decided, conclude.
  destruct c as [[[message events]|]|e]; cbn.
  - rewrite !reject_total. cbn.
    destruct (reject_state (element_of r) message events
                (after (setErrorMessage (element_of r) "") w))
      as (_ & _ & -> & _).
    destruct (reject_state (element_of r) message events
                (after (setErrorMessage (element_of r) "") w'))
      as (_ & _ & -> & _).
    rewrite !setErrorMessage_messages, !setErrorMessage_nodes.
    unfold entries at 1 3. cbn. rewrite !app_nil_r, !drop_app_length, Hn.
    split; reflexivity.
  - rewrite !setErrorMessage_messages. unfold entries. cbn.
    rewrite !app_nil_r, !drop_all. split; reflexivity.
  - rewrite !setErrorMessage_messages. unfold entries. cbn.
    rewrite !app_nil_r, !drop_all. split; reflexivity.
Qed.

(** The validator after a call: one more error and the recorded entries
    when it failed, nothing new otherwise. *)
Lemma call_this r w :
  let w' := after (call r) w in
  errors (this w')
  = (errors (this w) + (if fails w r then 1 else 0))%Z
  ∧ errorMessages (this w') = errorMessages (this w) ++ recorded w r
  ∧ length (recorded w r)
    = (if fails w r
       then (if is_ (nodes (document w)) (element_of r) [Select] then 2 else 1)
       else 0)
  ∧ parentClass (this w') = parentClass (this w)
  ∧ messageClass (this w') = messageClass (this w).
Proof.
  destruct (call_decided r (nodes (document w))) as (c & Hc & Hw).
  unfold recorded, fails, result, after. rewrite (Hw w eq_refl).
  unfold decided, conclude.
  destruct c as [[[message events]|]|e]; cbn.
  - rewrite !reject_total. cbn.
    destruct (reject_state (element_of r) message events
                (after (setErrorMessage (element_of r) "") w))
      as (_ & -> & -> & _).
    rewrite !setErrorMessage_messages, !setErrorMessage_nodes,
      setErrorMessage_errors.
    unfold entries at 1 3. cbn. rewrite !app_nil_r, !drop_app_length.
    destruct Hc as [Hm _]. unfold entries. rewrite Hm.
    unfold after, reject, bind, update_this, update_document, ret. cbn.
    rewrite setErrorMessage_total. cbn.
    unfold after, setErrorMessage, bind, read, update_this, update_document,
      ret. cbn.
    destruct (is_ _ _ _); cbn; rewrite Hm; cbn;
      destruct (is_ _ _ _); cbn; repeat split; reflexivity.
  - rewrite !setErrorMessage_clear_this, Z.add_0_r, drop_all, app_nil_r.
    repeat split.
  - rewrite !setErrorMessage_clear_this, Z.add_0_r, drop_all, app_nil_r.
    repeat split.
Qed.


(** ** Batches *)

Lemma each_call_eq validation w :
  each_call validation w
  = (match result (call validation) w with
     | Normal _ => Normal tt
     | Throw e => Throw e
     end, after (call validation) w).
Proof.
  unfold each_call, bind, ret, result, after.
  destruct (call validation w) as [[b|e] w']; reflexivity.
Qed.

Lemma forEach_cons {A} (f : A → M unit) a l w :
  forEach f (a :: l) w
  = match f a w with
    | (Normal _, w1) => forEach f l w1
    | (Throw e, w1) => (Throw e, w1)
    end.
Proof. reflexivity. Qed.

Lemma same_page_fails rs w w' :
  nodes (document w) = nodes (document w') →
  List.filter (fails w) rs = List.filter (fails w') rs
  ∧ failing_selects w rs = failing_selects w' rs
  ∧ map (recorded w) rs = map (recorded w') rs
  ∧ (forallb (fun r => negb (threw (result (call r) w))) rs
     = forallb (fun r => negb (threw (result (call r) w'))) rs).
Proof.
  intros Hn. unfold failing_selects, fails. rewrite <- Hn.
  induction rs as [|r rs (IH1 & IH2 & IH3 & IH4)]; [repeat split|].
  destruct (call_same_page r w w' Hn) as [Hr Hrec].
  cbn. rewrite Hr, Hrec, IH1, IH2, IH3, IH4. repeat split.
Qed.

(** Running the rules of a batch that raise no exception: each one adds to
    the count and to the sequence what it does alone on the first state. *)
Lemma forEach_calls rs :
  ∀ w,
    forallb (fun r => negb (threw (result (call r) w))) rs = true →
    let w' := after (forEach each_call rs) w in
    result (forEach each_call rs) w = Normal tt
    ∧ nodes (document w') = nodes (document w)
    ∧ console w' = console w
    ∧ errors (this w')
      = (errors (this w) + Z.of_nat (length (List.filter (fails w) rs)))%Z
    ∧ errorMessages (this w')
      = errorMessages (this w) ++ concat (map (recorded w) rs)
    ∧ length (concat (map (recorded w) rs))
      = length (List.filter (fails w) rs) + length (failing_selects w rs).
Proof.
  induction rs as [|r rs IH]; intros w Hok.
  - cbn. rewrite Z.add_0_r, app_nil_r. repeat split.
  - cbn in Hok. apply andb_prop in Hok as [Hr Hrs].
    pose proof (call_nodes r w) as Hn.
    destruct (same_page_fails rs (after (call r) w) w Hn)
      as (Hf & Hs & Hrec & Hthrew).
    rewrite <- Hthrew in Hrs. specialize (IH _ Hrs).
    destruct IH as (IHres & IHn & IHc & IHe & IHm & IHl).
    destruct (call_effect r w) as (_ & Hcons & _).
    destruct (call_this r w) as (He & Hm & Hl & _).
    unfold result, after in *. rewrite forEach_cons, each_call_eq.
    unfold result, after.
    destruct (call r w) as [[b|e] w1] eqn:Hcall; [|discriminate Hr].
    cbn [fst snd] in *.
    destruct (forEach each_call rs w1) as [res w2]. cbn [fst snd] in *.
    rewrite Hf in IHe. rewrite Hrec in IHm. rewrite Hf, Hs, Hrec in IHl.
    rewrite IHn, IHc, IHe, IHm, He, Hm.
    unfold failing_selects in *. cbn [map concat List.filter].
    rewrite length_app, Hl, IHl.
    unfold fails, result. rewrite Hcall. cbn [fst].
    destruct b; cbn [failed andb]; [|destruct (is_ _ _ _)]; cbn [length];
      rewrite <- ?app_assoc; repeat split; try assumption; try lia.
Qed.

Lemma throwErrorMessage_eq message w :
  throwErrorMessage message w
  = if (1 <=? errors (this w))%Z
    then (Throw (Error message),
          {| this := this w; document := document w;
             console := console w ++ [errorMessages (this w)] |})
    else (Normal tt, w).
Proof. reflexivity. Qed.

(** ** The counter never goes down *)



Lemma throwErrorMessage_this message w :
  this (after (throwErrorMessage message) w) = this w
  ∧ document (after (throwErrorMessage message) w) = document w.
Proof.
  unfold after. rewrite throwErrorMessage_eq.
  destruct (1 <=? errors (this w))%Z; split; reflexivity.
Qed.



Lemma trigger_this ev i w : this (after (trigger ev i) w) = this w.
Proof.
  unfold trigger, after.
  generalize (default [] (handlers (document w) !! i)) as hs.
  intros hs. revert w. induction hs as [|h hs IH]; intros w; [reflexivity|].
  cbn [forEach]. unfold bind.
  destruct (bool_decide (ev ∈ h_events h)).
  - rewrite setErrorMessage_total. rewrite IH.
    apply setErrorMessage_clear_this.
  - cbn. apply IH.
Qed.




(** ** Clearing the indicator and the message *)

Lemma iter_idempotent {A} (f : A → A) n x :
  (∀ y, f (f y) = f y) → 0 < n → Nat.iter n f x = f x.
Proof.
  intros Hf. induction n as [|[|n] IH]; intros Hn; [lia | reflexivity |].
  cbn in *. rewrite IH by lia. apply Hf.
Qed.

Lemma in_groups_Some f gs (m : gmap nat group) g y :
  in_groups f gs m !! g = Some y →
  ∃ x n, m !! g = Some x ∧ y = Nat.iter n f x ∧ (g ∈ gs → 0 < n).
Proof.
  revert y. induction gs as [|a gs IH]; intros y Hy.
  - exists y, 0. repeat split; [assumption|]. intros H. inversion H.
  - change (in_groups f (a :: gs) m) with (alter f a (in_groups f gs m)) in Hy.
    destruct (decide (a = g)) as [->|Hne].
    + rewrite lookup_alter_eq in Hy.
      destruct (in_groups f gs m !! g) as [z|] eqn:E; cbn in Hy;
        [|discriminate].
      destruct (IH z eq_refl) as (x & n & Hx & -> & _).
      exists x, (S n). inversion Hy. repeat split; [assumption|].
      lia.
    + rewrite lookup_alter_ne in Hy by assumption.
      destruct (IH y Hy) as (x & n & Hx & -> & Hn).
      exists x, n. repeat split; [assumption|].
      intros Hin. apply Hn. inversion Hin; subst; [congruence | assumption].
Qed.

Lemma set_html_idempotent message g :
  set_html message (set_html message g) = set_html message g.
Proof.
  unfold set_html. cbn. f_equal. rewrite <- list_fmap_compose. reflexivity.
Qed.

Lemma toggle_select2_idempotent b g :
  toggle_select2 b (toggle_select2 b g) = toggle_select2 b g.
Proof.
  unfold toggle_select2. cbn. f_equal. rewrite <- list_fmap_compose.
  reflexivity.
Qed.

Lemma forallb_const {A B} (p : B → bool) (b : B) (l : list A) :
  p b = true → forallb p ((fun _ => b) <$> l) = true.
Proof. intros Hb. induction l; cbn; [reflexivity|]. rewrite Hb. assumption. Qed.

Lemma calm_set_html sel g :
  calm sel g = true → calm sel (set_html "" g) = true.
Proof.
  unfold calm. cbn. intros H. apply andb_prop in H as [_ ->].
  rewrite forallb_const; reflexivity.
Qed.

Lemma calm_toggle sel g :
  calm sel g = true → calm sel (toggle_select2 false g) = true.
Proof.
  unfold calm. cbn. intros H. apply andb_prop in H as [-> _].
  rewrite forallb_const by reflexivity. rewrite orb_true_r. reflexivity.
Qed.

Lemma calm_iter sel f n g :
  (∀ x, calm sel x = true → calm sel (f x) = true) →
  calm sel g = true → calm sel (Nat.iter n f g) = true.
Proof. intros Hf Hg. induction n; cbn; auto. Qed.

Lemma calm_after_clear sel g :
  calm sel (set_html "" (if sel then toggle_select2 false g else g)) = true.
Proof.
  unfold calm. cbn. rewrite forallb_const by reflexivity.
  destruct sel; cbn; [|reflexivity]. apply forallb_const. reflexivity.
Qed.

Lemma closest_elem ns element g :
  g ∈ closest ns element
  ↔ ∃ i n, i ∈ element ∧ ns !! i = Some n ∧ n_group n = Some g.
Proof.
  unfold closest. rewrite list_elem_of_omap. split.
  - intros (i & Hi & Hg). destruct (ns !! i) as [n|] eqn:E; [|discriminate].
    exists i, n. auto.
  - intros (i & n & Hi & Hn & Hg). exists i. rewrite Hn. auto.
Qed.

Lemma cleared_spec element d :
  cleared element d = true ↔
  (∀ i, i ∈ element → i ∉ invalid d)
  ∧ (∀ g grp, g ∈ closest (nodes d) element → groups d !! g = Some grp →
       calm (is_ (nodes d) element [Select]) grp = true).
Proof.
  unfold cleared. rewrite andb_true_iff, !forallb_forall. split.
  - intros [Hi Hg]. split.
    + intros i Hin. apply list_elem_of_In in Hin.
      specialize (Hi i Hin). apply bool_decide_eq_true in Hi. assumption.
    + intros g grp Hin Hgrp. apply list_elem_of_In in Hin.
      specialize (Hg g Hin). rewrite Hgrp in Hg. assumption.
  - intros [Hi Hg]. split.
    + intros i Hin. apply bool_decide_eq_true, Hi, list_elem_of_In, Hin.
    + intros g Hin. destruct (groups d !! g) as [grp|] eqn:E; [|reflexivity].
      apply (Hg g grp); [apply list_elem_of_In|]; assumption.
Qed.

(** Clearing an element switches its indicator and its message off. *)
Lemma clear_establishes element w :
  cleared element (document (after (setErrorMessage element "") w)) = true.
Proof.
  apply cleared_spec. rewrite setErrorMessage_nodes, setErrorMessage_invalid.
  split.
  - intros i Hi. cbn. rewrite elem_of_difference, elem_of_list_to_set. tauto.
  - intros g grp Hg. rewrite setErrorMessage_groups. cbn. intros Hgrp.
    apply in_groups_Some in Hgrp as (x & n & Hx & -> & Hn).
    rewrite (iter_idempotent _ _ _ (set_html_idempotent "") (Hn Hg)).
    destruct (is_ (nodes (document w)) element [Select]) eqn:Hsel.
    + apply in_groups_Some in Hx as (y & k & Hy & -> & Hk).
      rewrite (iter_idempotent _ _ _ (toggle_select2_idempotent false) (Hk Hg)).
      apply (calm_after_clear true).
    + apply (calm_after_clear false).
Qed.

(** Clearing another element switches nothing on. *)
Lemma clear_preserves element other w :
  cleared element (document w) = true →
  cleared element (document (after (setErrorMessage other "") w)) = true.
Proof.
  rewrite !cleared_spec, setErrorMessage_nodes, setErrorMessage_invalid.
  intros [Hi Hg]. split.
  - intros i Hin. specialize (Hi i Hin). cbn. rewrite elem_of_difference.
    tauto.
  - intros g grp Hin. rewrite setErrorMessage_groups. cbn. intros Hgrp.
    apply in_groups_Some in Hgrp as (x & n & Hx & -> & _).
    apply calm_iter; [apply calm_set_html|].
    destruct (is_ (nodes (document w)) other [Select]).
    + apply in_groups_Some in Hx as (y & k & Hy & -> & _).
      apply calm_iter; [apply calm_toggle|]. apply (Hg g y Hin Hy).
    + apply (Hg g x Hin Hx).
Qed.

Lemma handlers_clear ev element hs :
  ∀ w,
    cleared element (document w) = true
    ∨ (∃ h, h ∈ hs ∧ ev ∈ h_events h ∧ h_element h = element) →
    cleared element (document (after (forEach (run_handler ev) hs) w)) = true.
Proof.
  induction hs as [|h hs IH]; intros w H.
  - destruct H as [H|(h & Hin & _)]; [exact H | inversion Hin].
  - unfold after. rewrite forEach_cons. unfold run_handler at 1.
    destruct (bool_decide (ev ∈ h_events h)) eqn:Hev.
    + rewrite setErrorMessage_total. apply IH.
      destruct H as [H|(h' & Hin & Hev' & Hel)].
      * left. apply clear_preserves, H.
      * destruct (proj1 (elem_of_cons _ _ _) Hin) as [->|Hin'].
        -- left. rewrite <- Hel. apply clear_establishes.
        -- right. eauto.
    + cbn. apply IH. destruct H as [H|(h' & Hin & Hev' & Hel)]; [auto|].
      destruct (proj1 (elem_of_cons _ _ _) Hin) as [->|Hin']; [|right; eauto].
      apply bool_decide_eq_false in Hev. contradiction.
Qed.

Lemma on_elem h element (m : gmap nat (list handler)) i :
  i ∈ element → h ∈ default [] (on h element m !! i).
Proof.
  induction element as [|a element IH]; intros Hin; [inversion Hin|].
  cbn. destruct (decide (a = i)) as [->|Hne].
  - rewrite lookup_insert_eq. cbn. apply elem_of_app. right.
    apply list_elem_of_singleton. reflexivity.
  - rewrite lookup_insert_ne by assumption. apply IH.
    inversion Hin; subst; [congruence | assumption].
Qed.

(** ** The claims on single checks *)

Lemma bind_clear {A} element (k : unit → M A) w :
  bind (setErrorMessage element "") k w
  = k tt (after (setErrorMessage element "") w).
Proof. unfold bind. rewrite setErrorMessage_total. reflexivity. Qed.

Lemma matches_app a b n : matches (a ++ b) n = matches a n || matches b n.
Proof.
  unfold matches. apply Bool.eq_iff_eq_true.
  rewrite orb_true_iff, !bool_decide_eq_true, elem_of_app. reflexivity.
Qed.

Lemma is_app ns element a b :
  is_ ns element (a ++ b) = is_ ns element a || is_ ns element b.
Proof.
  unfold is_. induction (elems ns element) as [|n l IH]; [reflexivity|].
  cbn. rewrite IH, matches_app.
  destruct (matches a n), (matches b n), (existsb (matches a) l); reflexivity.
Qed.

Ltac unfold_method :=
  unfold required, requiredIf, equalTo, boolean, minLength, maxLength,
    alphabetic, alphanumeric, pattern, custom, numeric, minValue, maxValue,
    range, fileType, fileSize, fileExtension, date, datetime, time, minDate,
    maxDate, minDatetime, maxDatetime, dateBetween, datetimeBetween, email,
    url, phoneNumber.

Ltac run_reads :=
  cbv beta iota delta [bind read ret lift and_then or_else has_file fst snd].

(** C10: a method whose selector the element does not match returns true
    and leaves the error count as it was, whatever the value of the element;
    alphabetic alone returns false there and adds one to the count. *)
Theorem type_guard_mismatch r sel w :
  selector_of r = Some sel →
  is_ (nodes (document w)) (element_of r) sel = false →
  result (call r) w = Normal (negb (fails_on_mismatch r))
  ∧ errors (this (after (call r) w))
    = (errors (this w) + (if fails_on_mismatch r then 1 else 0))%Z.
Proof.
  intros Hsel Hno.
  assert (result (call r) w = Normal (negb (fails_on_mismatch r))) as Hres.
  { destruct r; cbn [selector_of] in Hsel; try discriminate Hsel;
      injection Hsel as <-;
      cbn [call fails_on_mismatch negb element_of] in *;
      try match type of Hno with
          | is_ ?ns ?e (_ :: _ :: _ :: _ :: _ :: _ :: _ :: _) = false =>
              change (is_ ns e (text_like ++ [InputRadio; InputCheckbox]
                                  ++ [InputFile]) = false) in Hno
          end;
      rewrite ?is_app in Hno; repeat (apply orb_false_elim in Hno as [? Hno]);
      unfold_method; unfold result; rewrite bind_clear;
      repeat (run_reads; rewrite ?setErrorMessage_nodes;
              match goal with H : is_ _ _ _ = false |- _ => rewrite H end);
      cbn [negb]; run_reads; try reflexivity.
    rewrite reject_total. reflexivity. }
  split; [exact Hres|].
  destruct (call_this r w) as (-> & _). unfold fails. rewrite Hres.
  destruct (fails_on_mismatch r); reflexivity.
Qed.

(** C4: on an element that matches the text-like selector of [required] and
    whose value is the empty string, [required] returns false and adds
    exactly one to the error count. *)
Theorem required_empty_text_like element message w :
  is_ (nodes (document w)) element text_like = true →
  val (nodes (document w)) element = VStr "" →
  result (required element message) w = Normal false
  ∧ errors (this (after (required element message) w))
    = (errors (this w) + 1)%Z.
Proof.
  intros His Hval.
  assert (result (required element message) w = Normal false) as Hres.
  { unfold required, result. rewrite bind_clear. run_reads.
    rewrite !setErrorMessage_nodes, His. run_reads.
    rewrite !setErrorMessage_nodes, Hval. cbn [is_empty_string].
    rewrite reject_total. reflexivity. }
  split; [exact Hres|].
  destruct (call_this (Required element message) w) as (He & _).
  cbn [call] in He. rewrite He. unfold fails. cbn [call]. rewrite Hres.
  reflexivity.
Qed.

Lemma bounds_18_99_condition v :
  v ∈ ["17"; "18"; "99"; "abc"] →
  lt (parseFloat (VStr v)) (of_Z 18) || gt (parseFloat (VStr v)) (of_Z 99)
  = String.eqb v "17".
Proof.
  intros H.
  repeat (apply elem_of_cons in H as [->|H]; [vm_compute; reflexivity|]).
  inversion H.
Qed.

(** What the code does on the four values of C3: with the bounds 18 and 99
    on a text or number input, the value 17 fails and adds one to the error
    count and 18 and 99 pass, as the claim has it; the non-numeric abc
    passes as well, the count unchanged, where the claim and the description
    of the method ask for a failure. *)
Theorem range_18_99 element message v w :
  is_ (nodes (document w)) element [InputNumber; InputText] = true →
  val (nodes (document w)) element = VStr v →
  v ∈ ["17"; "18"; "99"; "abc"] →
  result (range element (of_Z 18) (of_Z 99) message) w
  = Normal (negb (String.eqb v "17"))
  ∧ errors (this (after (range element (of_Z 18) (of_Z 99) message) w))
    = (errors (this w) + (if String.eqb v "17" then 1 else 0))%Z.
Proof.
  intros His Hval Hv.
  assert (result (range element (of_Z 18) (of_Z 99) message) w
          = Normal (negb (String.eqb v "17"))) as Hres.
  { unfold range, result. rewrite bind_clear. run_reads.
    rewrite !setErrorMessage_nodes, His, Hval. run_reads.
    pose proof (bounds_18_99_condition v Hv) as Hc.
    destruct (lt (parseFloat (VStr v)) (of_Z 18)) eqn:Hlt; cbn [orb] in Hc.
    - rewrite <- Hc. rewrite reject_total. reflexivity.
    - rewrite <- Hc.
      destruct (gt (parseFloat (VStr v)) (of_Z 99)); [|reflexivity].
      rewrite reject_total. reflexivity. }
  split; [exact Hres|].
  destruct (call_this (Range element (of_Z 18) (of_Z 99) message) w)
    as (He & _).
  cbn [call] in He. rewrite He. unfold fails. cbn [call]. rewrite Hres.
  destruct (String.eqb v "17"); reflexivity.
Qed.

(** C2: [throwErrorMessage] throws exactly when the error count is at least
    1, and then it throws the given message; it never changes the validator
    or the page, and with a count of 0 it returns with the state as it
    was. *)
Theorem throwErrorMessage_iff message w :
  ((∃ e, result (throwErrorMessage message) w = Throw e)
   ↔ (1 <= errors (this w))%Z)
  ∧ (result (throwErrorMessage message) w = Throw (Error message)
     ∨ throwErrorMessage message w = (Normal tt, w))
  ∧ this (after (throwErrorMessage message) w) = this w
  ∧ document (after (throwErrorMessage message) w) = document w
  ∧ (errors (this w) = 0%Z → throwErrorMessage message w = (Normal tt, w)).
Proof.
  unfold result, after. rewrite throwErrorMessage_eq.
  destruct (1 <=? errors (this w))%Z eqn:E; cbn.
  - apply Z.leb_le in E. repeat split; eauto. intros H. rewrite H in E. lia.
  - apply Z.leb_gt in E. repeat split; auto.
    + intros [e He]. discriminate He.
    + intros H. lia.
Qed.

Lemma resume_rejected element reason message w :
  let generic := "Terjadi kesalahan saat validasi." in
  let resume := asyncValidation_resume element (Rejected reason) message in
  result resume w = Normal false
  ∧ errors (this (after resume w)) = (errors (this w) + 1)%Z
  ∧ errorMessages (this (after resume w))
    = errorMessages (this w) ++ entries (nodes (document w)) element generic
  ∧ invalid (document (after resume w))
    = invalid (document w) ∪ list_to_set element.
Proof.
  cbn zeta.
  unfold asyncValidation_resume, try_catch, await, throw, bind, update_this,
    ret, result, after.
  cbn [fst snd]. rewrite !setErrorMessage_total. cbn [fst snd].
  rewrite setErrorMessage_errors, setErrorMessage_messages,
    setErrorMessage_invalid. cbn.
  repeat split.
Qed.

Lemma asyncValidation_after_clearing element f message w :
  asyncValidation element f message w
  = asyncValidation_resume element (f (val (nodes (document w)) element))
      message (after (setErrorMessage element "") w).
Proof.
  unfold asyncValidation, asyncValidation_start.
  unfold bind at 1. rewrite bind_clear. unfold read.
  rewrite setErrorMessage_nodes. reflexivity.
Qed.

(** C6: when the promise of the asynchronous predicate is rejected, the
    call ends fulfilled with false, never rejected itself: one is added to
    the error count, the message Terjadi kesalahan saat validasi. is
    recorded for the element and the element is marked invalid. The same
    holds for the whole call with a predicate that rejects. *)
Theorem asyncValidation_rejection_is_recovered element reason message w :
  let generic := "Terjadi kesalahan saat validasi." in
  let resume := asyncValidation_resume element (Rejected reason) message in
  let whole := asyncValidation element (fun _ => Rejected reason) message in
  result resume w = Normal false
  ∧ errors (this (after resume w)) = (errors (this w) + 1)%Z
  ∧ errorMessages (this (after resume w))
    = errorMessages (this w) ++ entries (nodes (document w)) element generic
  ∧ entries (nodes (document w)) element generic ≠ []
  ∧ invalid (document (after resume w))
    = invalid (document w) ∪ list_to_set element
  ∧ result whole w = Normal false
  ∧ errors (this (after whole w)) = (errors (this w) + 1)%Z
  ∧ errorMessages (this (after whole w))
    = errorMessages (this w) ++ entries (nodes (document w)) element generic.
Proof.
  cbn zeta.
  destruct (resume_rejected element reason message w)
    as (H1 & H2 & H3 & H3').
  destruct (resume_rejected element reason message
              (after (setErrorMessage element "") w)) as (H4 & H5 & H6 & _).
  rewrite setErrorMessage_errors in H5.
  rewrite setErrorMessage_messages, setErrorMessage_nodes in H6.
  unfold entries at 1 in H6. cbn in H6. rewrite app_nil_r in H6.
  unfold result, after in *. rewrite !asyncValidation_after_clearing.
  repeat split; try assumption.
  unfold entries. cbn. destruct (is_ _ _ _); discriminate.
Qed.

(** X30: the rejection leaves the listeners as they were: the [catch] block
    registers none. *)
Lemma rejection_registers_no_listener element reason message w :
  handlers (document (after (asyncValidation_resume element (Rejected reason)
                               message) w))
  = handlers (document w).
Proof.
  unfold asyncValidation_resume, try_catch, await, throw, bind, update_this,
    ret, after.
  cbn [fst snd]. rewrite !setErrorMessage_total. cbn [fst snd].
  rewrite setErrorMessage_handlers. reflexivity.
Qed.

(** X29: a value [parseFloat] reads as NaN passes the three bound checks,
    whatever the bounds. *)
Lemma bounds_pass_on_NaN element lo hi message w :
  parseFloat (val (nodes (document w)) element) = NaN →
  result (minValue element lo message) w = Normal true
  ∧ result (maxValue element hi message) w = Normal true
  ∧ result (range element lo hi message) w = Normal true.
Proof.
  intros Hnan. unfold minValue, maxValue, range, result.
  rewrite !bind_clear. run_reads. rewrite !setErrorMessage_nodes, Hnan.
  unfold gt. cbn [lt].
  assert (∀ n, lt n NaN = false) as Hlt by (intros [| [] |]; reflexivity).
  rewrite !Hlt. destruct (is_ _ _ _); repeat split.
Qed.

(** ** The claims on sessions *)

(** A check that passes leaves the validator as it was and switches the
    invalid indicator and the inline message of its element off. *)
Lemma passing_check_keeps_session r w :
  result (call r) w = Normal true →
  this (after (call r) w) = this w
  ∧ cleared (element_of r) (document (after (call r) w)) = true.
Proof.
  intros Hres. destruct (call_effect r w) as (_ & _ & H).
  rewrite Hres in H. cbn in H. rewrite H. split.
  - apply setErrorMessage_clear_this.
  - apply clear_establishes.
Qed.

(** C1 (as the code has it): a check that fails adds one to the error count
    and appends its entries to the error sequence; a check that passes
    changes neither, so the count is the number of failed checks so far and
    an entry recorded by an earlier failure of the same element stays; what
    the passing check switches off is the invalid indicator and the inline
    message of its element. *)
Theorem check_on_session r b w :
  result (call r) w = Normal b →
  let w' := after (call r) w in
  errors (this w') = (errors (this w) + (if b then 0 else 1))%Z
  ∧ errorMessages (this w') = errorMessages (this w) ++ recorded w r
  ∧ (if b
     then recorded w r = []
          ∧ cleared (element_of r) (document w') = true
     else recorded w r ≠ []).
Proof.
  intros Hres. cbn zeta.
  destruct (call_this r w) as (He & Hm & Hl & _).
  unfold fails in He, Hl. rewrite Hres in He, Hl.
  destruct b; cbn [failed] in He, Hl.
  - repeat split; try assumption.
    + apply length_zero_iff_nil, Hl.
    + apply passing_check_keeps_session, Hres.
  - repeat split; try assumption.
    intros Hnil. rewrite Hnil in Hl. cbn in Hl.
    destruct (is_ _ _ _); discriminate.
Qed.

Lemma validateFields_eq rs w :
  validateFields rs w
  = match forEach each_call rs w with
    | (Normal _, w1) => throwErrorMessage default_message w1
    | (Throw e, w1) => (Throw e, w1)
    end.
Proof. reflexivity. Qed.

(** C5 (as the code has it): on a fresh validator, a batch whose rules
    raise no exception runs them all in the order given; with K failing
    rules the error count is K and the error sequence is, in rule order,
    what each rule records alone, one entry per failing rule and one more
    for each failing rule on a select; the batch then throws when K is at
    least 1 and returns when K is 0. *)
Theorem validateFields_counts rs w :
  this w = constructor →
  forallb (fun r => negb (threw (result (call r) w))) rs = true →
  let K := length (List.filter (fails w) rs) in
  let w' := after (validateFields rs) w in
  errors (this w') = Z.of_nat K
  ∧ errorMessages (this w') = concat (map (recorded w) rs)
  ∧ length (errorMessages (this w')) = K + length (failing_selects w rs)
  ∧ result (validateFields rs) w
    = (if 0 <? K then Throw (Error default_message) else Normal tt).
Proof.
  intros Hfresh Hok. cbn zeta.
  destruct (forEach_calls rs w Hok) as (Hres & _ & _ & He & Hm & Hl).
  rewrite Hfresh in He, Hm. cbn in He, Hm.
  unfold result, after in *. rewrite validateFields_eq.
  destruct (forEach each_call rs w) as [res w1]. cbn [fst snd] in *.
  subst res.
  assert ((1 <=? errors (this w1))%Z
          = (0 <? length (List.filter (fails w) rs))) as Hc.
  { rewrite He. destruct (length (List.filter (fails w) rs)) as [|k];
      [reflexivity|]. apply Z.leb_le. lia. }
  rewrite throwErrorMessage_eq, Hc.
  destruct (0 <? length (List.filter (fails w) rs));
    cbn [fst snd this]; rewrite He, Hm, Hl; repeat split; lia.
Qed.

(** C7 (as the code has it): a check that fails registers a listener on
    every element of its set, for keyup, change or both; when such an event
    next fires on one of them, the invalid indicator and the inline message
    are switched off whatever the page holds by then, a value that still
    fails included, and the validator is left as the failure left it. *)
Theorem listener_clears_whatever_the_value r w :
  result (call r) w = Normal false →
  ∃ events, events ≠ [] ∧
    ∀ i ev j n, i ∈ element_of r → ev ∈ events →
      let w' := run [Input j n; Trigger ev i] (after (call r) w) in
      cleared (element_of r) (document w') = true
      ∧ this w' = this (after (call r) w).
Proof.
  intros Hres. destruct (call_effect r w) as (_ & _ & H).
  rewrite Hres in H. cbn in H. destruct H as (message & events & _ & Hev & Hw).
  exists events. split; [assumption|]. intros i ev j n Hi Hin. cbn zeta.
  unfold run. cbn [foldl step]. split.
  - unfold trigger, after at 1.
    apply (handlers_clear ev (element_of r)). right.
    exists {| h_events := events; h_element := element_of r |}.
    repeat split; [|assumption].
    cbn [after update_document snd document input handlers]. rewrite Hw.
    destruct (reject_state (element_of r) message events
                (after (setErrorMessage (element_of r) "") w))
      as (_ & _ & _ & -> & _).
    apply on_elem, Hi.
  - rewrite trigger_this. reflexivity.
Qed.


End Properties.

(** ** The round trip of dates *)

Section RoundTrip.

Import Js Calendar.

Lemma range_Z_In a b z : (a <= z <= b)%Z → In z (range_Z a b).
Proof.
  intros H. unfold range_Z. apply in_map_iff.
  exists (Z.to_nat (z - a)). split; [lia|]. apply in_seq. lia.
Qed.

Lemma all_come_back_true : all_come_back = true.
Proof. vm_compute. reflexivity. Qed.

(** Every date from 1900 to 2099 comes back with its year and month; the
    day comes back whole from 1 to 9 and as its last digit from 10 on. *)
Lemma roundtrip_by_day y m d :
  (1900 <= y <= 2099)%Z → (1 <= m <= 12)%Z → (1 <= d <= days_in y m)%Z →
  SAT.roundtrip (iso_date y m d) = Normal (iso_date y m (day_back d)).
Proof.
  intros Hy Hm Hd. pose proof all_come_back_true as H.
  unfold all_come_back in H. rewrite forallb_forall in H.
  specialize (H y (range_Z_In _ _ _ Hy)). rewrite forallb_forall in H.
  specialize (H m (range_Z_In _ _ _ Hm)). rewrite forallb_forall in H.
  specialize (H d (range_Z_In _ _ _ Hd)). unfold comes_back in H.
  destruct (SAT.roundtrip (iso_date y m d)) as [s|e]; [|discriminate].
  apply String.eqb_eq in H. rewrite H. reflexivity.
Qed.

(** C8: the date 2023-12-15 formats as 15 Desember 2023, which parses back
    as 2023-12-05: the optional weekday part of the pattern takes the first
    digit of a two-digit day. *)
Theorem roundtrip_loses_tens_digit :
  SAT.Format.ToDate "2023-12-15" "id" = Normal "15 Desember 2023"
  ∧ SAT.Parse.ToDate "15 Desember 2023" = Normal "2023-12-05"
  ∧ SAT.roundtrip "2023-12-15" = Normal "2023-12-05".
Proof. vm_compute. repeat split. Qed.

End RoundTrip.


(** ** Strings as lists of characters *)

Section Strings.

Import Js.

Lemma append_cons x (a b : string) : String x a +:+ b = String x (a +:+ b).
Proof. reflexivity. Qed.

Lemma append_assoc (a b c : string) : (a +:+ b) +:+ c = a +:+ (b +:+ c).
Proof.
  induction a as [|x a IH]; [reflexivity|].
  rewrite !append_cons, IH. reflexivity.
Qed.

Lemma append_nil_r (a : string) : a +:+ "" = a.
Proof.
  induction a as [|x a IH]; [reflexivity|]. rewrite append_cons, IH.
  reflexivity.
Qed.

Lemma chars_app a b : chars (a +:+ b) = chars a ++ chars b.
Proof.
  unfold chars. induction a as [|c a IH]; [reflexivity|].
  rewrite append_cons. cbn [String.list_ascii_of_string app]. f_equal.
  exact IH.
Qed.

Lemma chars_text l : chars (text l) = l.
Proof. apply String.list_ascii_of_string_of_list_ascii. Qed.

Lemma text_chars s : text (chars s) = s.
Proof. apply String.string_of_list_ascii_of_string. Qed.

Lemma text_app a b : text (a ++ b) = text a +:+ text b.
Proof.
  unfold text. induction a as [|c a IH]; [reflexivity|].
  cbn [app String.string_of_list_ascii]. rewrite append_cons. f_equal.
  exact IH.
Qed.

Lemma length_chars s : length (chars s) = String.length s.
Proof.
  unfold chars. induction s as [|c s IH]; [reflexivity|].
  cbn. rewrite IH. reflexivity.
Qed.

End Strings.

(** ** Quantified character classes *)

Section ClassLemmas.

Import Js RegExp Classes.

Lemma skip_0 x : skip 0 x = x.
Proof. destruct x. reflexivity. Qed.

Lemma skip_skip j k x : skip j (skip k x) = skip (j + k) x.
Proof.
  unfold skip. cbn. f_equal; [lia|]. rewrite drop_drop. f_equal. lia.
Qed.

Lemma first_success_app c l1 l2 :
  first_success c (l1 ++ l2)
  = or_else (first_success c l1) (fun _ => first_success c l2).
Proof.
  induction l1 as [|y l1 IH]; [reflexivity|]. cbn.
  destruct (c y); [reflexivity | apply IH].
Qed.

Lemma first_success_Some c l :
  is_Some (first_success c l) ↔ ∃ y, y ∈ l ∧ is_Some (c y).
Proof.
  induction l as [|y l IH]; cbn.
  - split; [intros [z Hz]; discriminate | intros (y & Hy & _); inversion Hy].
  - destruct (c y) as [z|] eqn:E; cbn.
    + split; [|eauto]. intros _. exists y. rewrite E.
      split; [apply elem_of_cons; auto | eauto].
    + rewrite IH. split.
      * intros (y' & Hy & Hc). exists y'. split; [|assumption].
        apply elem_of_cons. auto.
      * intros (y' & Hy & Hc). apply elem_of_cons in Hy as [->|Hy].
        -- rewrite E in Hc. destruct Hc; discriminate.
        -- eauto.
Qed.

Lemma choices_shift lo hi x y :
  skip 1 x = y → choices lo hi y = choices (S lo) (S hi) x.
Proof.
  intros <-. unfold choices. cbn [Nat.sub].
  rewrite <- fmap_S_seq, <- fmap_reverse, <- list_fmap_compose.
  apply list_fmap_ext. intros _ k _. cbn. rewrite skip_skip. f_equal. lia.
Qed.

Lemma choices_0 hi x : choices 0 (S hi) x = choices 1 (S hi) x ++ [x].
Proof.
  unfold choices. cbn [Nat.sub]. change (List.seq 0 (S (S hi))) with (0 :: List.seq 1 (S hi)).
  rewrite reverse_cons, fmap_app. cbn [fmap list_fmap]. rewrite skip_0.
  reflexivity.
Qed.

Lemma choices_none lo hi x : hi < lo → choices lo hi x = [].
Proof.
  intros H. unfold choices. replace (S hi - lo) with 0 by lia. reflexivity.
Qed.

Lemma choices_elem lo hi x y :
  y ∈ choices lo hi x ↔ ∃ k, lo ≤ k ≤ hi ∧ y = skip k x.
Proof.
  unfold choices. rewrite list_elem_of_fmap. split.
  - intros (k & -> & Hk). exists k. split; [|reflexivity].
    apply elem_of_reverse, elem_of_seq in Hk. lia.
  - intros (k & Hk & ->). exists k. split; [reflexivity|].
    apply elem_of_reverse, elem_of_seq. lia.
Qed.

Lemma repeatMatcher_S t m gs min max c x :
  max ≠ Some 0 →
  repeatMatcher (S t) m gs min max c x
  = let d : cont := fun y =>
        if (min =? 0) && (m_pos y =? m_pos x) then None
        else repeatMatcher t m gs (pred min) (pred <$> max) c y in
    let xr := clear gs x in
    if negb (min =? 0) then m d xr
    else or_else (m d xr) (fun _ => c x).
Proof. destruct max as [[|k]|]; [congruence | reflexivity | reflexivity]. Qed.

Lemma cap_S max n :
  max ≠ Some 0 → cap max (S n) = S (cap (pred <$> max) n).
Proof. destruct max as [[|k]|]; [congruence | reflexivity | reflexivity]. Qed.

Lemma cap_0 max : cap max 0 = 0.
Proof. destruct max as [k|]; [apply Nat.min_0_r | reflexivity]. Qed.

Lemma first_success_one c x : first_success c [x] = c x.
Proof. cbn. destruct (c x); reflexivity. Qed.

(** A greedy quantifier on a character class tries the longest run the
    class and the upper bound allow, then ever shorter ones down to the
    lower bound. *)
Lemma repeat_class p t :
  ∀ min max c x,
    min + length (m_rest x) < t →
    (∀ k, max = Some k → min ≤ k) →
    repeatMatcher t (matcher (Set_ p)) [] min max c x
    = first_success c (choices min (cap max (leading p (m_rest x))) x).
Proof.
  induction t as [|t IH]; intros min max c x Ht Hmax; [lia|].
  destruct (decide (max = Some 0)) as [->|Hne].
  { assert (min = 0) as -> by (specialize (Hmax 0 eq_refl); lia).
    cbn [repeatMatcher cap Nat.min]. unfold choices. cbn. rewrite skip_0.
    destruct (c x); reflexivity. }
  rewrite repeatMatcher_S by exact Hne.
  cbn zeta. destruct x as [pos rest caps].
  cbn [matcher clear m_rest m_pos m_caps foldr].
  assert (∀ m, first_success c (choices m 0 {| m_pos := pos; m_rest := rest;
                                                m_caps := caps |})
               = if negb (m =? 0) then None
                 else or_else None (fun _ => c {| m_pos := pos; m_rest := rest;
                                                  m_caps := caps |})) as Hzero.
  { intros [|m]; cbn [Nat.eqb negb].
    - unfold choices. cbn. rewrite skip_0. destruct (c _); reflexivity.
    - rewrite choices_none by lia. reflexivity. }
  destruct rest as [|ch rest].
  { cbn [leading take_while length]. rewrite cap_0, Hzero. reflexivity. }
  unfold leading. cbn [take_while]. destruct (p ch) eqn:Ep.
  2:{ cbn [length]. rewrite cap_0, Hzero. reflexivity. }
  cbn [length]. fold (leading p rest). rewrite (cap_S _ _ Hne).
  cbn [m_pos].
  replace (S pos =? pos) with false by (symmetry; apply Nat.eqb_neq; lia).
  rewrite andb_false_r.
  rewrite IH.
  2:{ cbn [m_rest length] in *. lia. }
  2:{ intros k Hk. destruct max as [k'|]; [|discriminate]. cbn in Hk.
      injection Hk as <-. specialize (Hmax k' eq_refl). lia. }
  cbn [m_rest].
  rewrite (choices_shift _ _ {| m_pos := pos; m_rest := ch :: rest;
                                m_caps := caps |}) by reflexivity.
  destruct min as [|m]; cbn [Nat.eqb negb pred]; [|reflexivity].
  rewrite choices_0, first_success_app, first_success_one. reflexivity.
Qed.

(** The same for the quantifier as a pattern. *)
Lemma matcher_class p min max c x :
  (∀ k, max = Some k → min ≤ k) →
  matcher (Rep min max (Set_ p)) c x
  = first_success c (choices min (cap max (leading p (m_rest x))) x).
Proof. intros H. cbn [matcher groups_in]. apply repeat_class; [lia | exact H]. Qed.

Lemma matcher_class_Some p min max c x :
  (∀ k, max = Some k → min ≤ k) →
  is_Some (matcher (Rep min max (Set_ p)) c x)
  ↔ ∃ k, min ≤ k ≤ cap max (leading p (m_rest x)) ∧ is_Some (c (skip k x)).
Proof.
  intros H. rewrite matcher_class by exact H. rewrite first_success_Some.
  split.
  - intros (y & Hy & Hc). apply choices_elem in Hy as (k & Hk & ->). eauto.
  - intros (k & Hk & Hc). exists (skip k x). split; [|assumption].
    apply choices_elem. eauto.
Qed.

End ClassLemmas.

(** ** Patterns of one class between the two anchors *)

Section Anchored.

Import Js RegExp Classes.

Lemma leading_le p l : leading p l ≤ length l.
Proof.
  unfold leading. induction l as [|ch l IH]; cbn; [lia|].
  destruct (p ch); cbn; lia.
Qed.

Lemma leading_all p l : leading p l = length l ↔ forallb p l = true.
Proof.
  unfold leading. induction l as [|ch l IH]; cbn; [tauto|].
  destruct (p ch); cbn.
  - rewrite <- IH. lia.
  - split; [lia | discriminate].
Qed.

(** Past index 0 a pattern that begins with [^] matches nowhere. *)
Lemma exec_from_Bol r rest : ∀ pos, pos ≠ 0 → exec_from (Seq Bol r) pos rest = None.
Proof.
  induction rest as [|ch rest IH]; intros pos Hpos; cbn [exec_from];
    unfold match_at; cbn [matcher m_pos];
    replace (pos =? 0) with false by (symmetry; apply Nat.eqb_neq, Hpos).
  - reflexivity.
  - apply IH. lia.
Qed.

Lemma exec_Bol r s :
  is_Some (exec (Seq Bol r) s) ↔ is_Some (match_at (Seq Bol r) 0 (chars s)).
Proof.
  unfold exec. rewrite fmap_is_Some.
  destruct (chars s) as [|ch rest]; cbn [exec_from].
  - destruct (match_at _ 0 []); [tauto|]. tauto.
  - destruct (match_at _ 0 (ch :: rest)); [tauto|].
    rewrite exec_from_Bol by lia. tauto.
Qed.

Lemma Eol_Some c x :
  is_Some (matcher Eol c x) ↔ m_rest x = [] ∧ is_Some (c x).
Proof.
  cbn [matcher]. destruct (m_rest x).
  - tauto.
  - split; [intros [z Hz]; discriminate | intros [H _]; discriminate].
Qed.

(** A class repeated at least [min] times between [^] and [$] matches the
    strings of at least [min] characters, all of the class. *)
Lemma anchored_class p min s :
  test (seq [Bol; Rep min None (Set_ p); Eol]) (VStr s)
  = forallb p (chars s) && (min <=? length (chars s)).
Proof.
  unfold test. cbn [seq to_string]. apply Bool.eq_iff_eq_true.
  rewrite bool_decide_eq_true, exec_Bol, andb_true_iff, Nat.leb_le, <- leading_all.
  unfold match_at.
  change (matcher (Seq Bol (Seq (Rep min None (Set_ p)) Eol)) ?c ?x)
    with (matcher (Rep min None (Set_ p)) (matcher Eol c) x).
  rewrite matcher_class_Some by discriminate. cbn [cap m_rest].
  pose proof (leading_le p (chars s)) as Hle. split.
  - intros (k & Hk & Hc). apply Eol_Some in Hc as [Hrest _].
    cbn [skip m_rest] in Hrest.
    apply (f_equal length) in Hrest. rewrite length_drop in Hrest.
    cbn in Hrest. lia.
  - intros [Hrun Hmin]. exists (length (chars s)). split; [lia|].
    apply Eol_Some. cbn [skip m_rest]. rewrite drop_all. eauto.
Qed.

End Anchored.

(** ** The pattern of email addresses *)

Section EmailPattern.

Import Js RegExp Classes Validator.

Lemma is_char_eq x c : is_char x c = true ↔ c = x.
Proof.
  unfold is_char, code. rewrite N.eqb_eq. split; [|intros ->; reflexivity].
  intros H. rewrite <- (ascii_N_embedding c), <- (ascii_N_embedding x), H.
  reflexivity.
Qed.

Lemma Set_Some p c x :
  is_Some (matcher (Set_ p) c x)
  ↔ ∃ ch rest, m_rest x = ch :: rest ∧ p ch = true ∧ is_Some (c (skip 1 x)).
Proof.
  destruct x as [pos [|ch rest] caps]; cbn [matcher m_rest].
  - split; [intros [z Hz]; discriminate | intros (? & ? & H & _); discriminate].
  - destruct (p ch) eqn:Ep.
    + split; [intros H; exists ch, rest; auto|]. intros (? & ? & _ & _ & H).
      exact H.
    + split; [intros [z Hz]; discriminate|].
      intros (? & ? & H & Hp & _). injection H as <- <-. congruence.
Qed.

Lemma take_leading p k l : k ≤ leading p l → forallb p (take k l) = true.
Proof.
  unfold leading. revert k. induction l as [|ch l IH]; intros [|k] Hk; cbn in *;
    try reflexivity; try lia.
  destruct (p ch); cbn in *; [|lia]. apply IH. lia.
Qed.

Lemma leading_app p a l : forallb p a = true → length a ≤ leading p (a ++ l).
Proof.
  unfold leading. induction a as [|ch a IH]; cbn; [lia|].
  intros H. apply andb_prop in H as [-> H]. cbn. specialize (IH H). lia.
Qed.

Lemma skip_rest a l x : m_rest x = a ++ l → m_rest (skip (length a) x) = l.
Proof. intros H. cbn [skip m_rest]. rewrite H. apply drop_app_length. Qed.

(** A quantified class, then [c]: the input begins with a run of the class
    after which [c] succeeds. *)
Lemma class_step p min c x :
  is_Some (matcher (Rep min None (Set_ p)) c x)
  ↔ ∃ a l, m_rest x = a ++ l ∧ min ≤ length a ∧ forallb p a = true
           ∧ is_Some (c (skip (length a) x)).
Proof.
  rewrite matcher_class_Some by discriminate. cbn [cap]. split.
  - intros (k & Hk & Hc). pose proof (leading_le p (m_rest x)) as Hle.
    exists (take k (m_rest x)), (drop k (m_rest x)).
    rewrite take_drop, length_take, Nat.min_l by lia.
    repeat split; [lia | apply take_leading; lia | exact Hc].
  - intros (a & l & Hx & Hmin & Hp & Hc). exists (length a).
    split; [|exact Hc]. split; [exact Hmin|]. rewrite Hx. apply leading_app, Hp.
Qed.

(** One given character, then [c]. *)
Lemma char_step ch c x :
  is_Some (matcher (Set_ (is_char ch)) c x)
  ↔ ∃ l, m_rest x = ch :: l ∧ is_Some (c (skip 1 x)).
Proof.
  rewrite Set_Some. split.
  - intros (ch' & l & Hx & Hch & Hc). apply is_char_eq in Hch as ->. eauto.
  - intros (l & Hx & Hc). exists ch, l. repeat split; [exact Hx| |exact Hc].
    apply is_char_eq. reflexivity.
Qed.

(** The strings the pattern of [email] matches: three non-empty runs free
    of white space and of [@], the first two parted by [@], the last two by
    a dot. *)
Lemma emailRegex_shape s :
  test emailRegex (VStr s) = true
  ↔ ∃ a b c,
      chars s = a ++ "@"%char :: b ++ "."%char :: c
      ∧ a ≠ [] ∧ b ≠ [] ∧ c ≠ []
      ∧ forallb not_space_at a = true
      ∧ forallb not_space_at b = true
      ∧ forallb not_space_at c = true.
Proof.
  unfold test, emailRegex. cbn [seq to_string].
  rewrite bool_decide_eq_true, exec_Bol. unfold match_at, Plus, Chr.
  set (A := not_space_at). set (l := chars s).
  set (x0 := {| m_pos := 0; m_rest := l; m_caps := ∅ |}).
  change (matcher (Seq Bol (Seq ?r1 (Seq ?r2 (Seq ?r3 (Seq ?r4 (Seq ?r5 Eol))))))
            ?c x0)
    with (matcher r1 (matcher r2 (matcher r3 (matcher r4 (matcher r5
            (matcher Eol c))))) x0).
  assert (∀ (a : list ascii), 1 ≤ length a ↔ a ≠ []) as Hlen.
  { intros [|ch a]; cbn; split; intros H; try lia; congruence. }
  split.
  - intros H.
    apply class_step in H as (a & l1 & Hx0 & Ha & HAa & H).
    pose proof (skip_rest _ _ _ Hx0) as Hx1.
    apply char_step in H as (l2 & Hl1 & H). rewrite Hx1 in Hl1. subst l1.
    pose proof (skip_rest ["@"%char] _ _ Hx1) as Hx2. cbn [length] in Hx2.
    apply class_step in H as (b & l3 & Hl2 & Hb & HAb & H).
    rewrite Hx2 in Hl2. subst l2.
    pose proof (skip_rest _ _ _ Hx2) as Hx3.
    apply char_step in H as (l4 & Hl3 & H). rewrite Hx3 in Hl3. subst l3.
    pose proof (skip_rest ["."%char] _ _ Hx3) as Hx4. cbn [length] in Hx4.
    apply class_step in H as (c & l5 & Hl4 & Hc & HAc & H).
    rewrite Hx4 in Hl4. subst l4.
    pose proof (skip_rest _ _ _ Hx4) as Hx5.
    apply Eol_Some in H as [Hl5 _]. rewrite Hx5 in Hl5. subst l5.
    exists a, b, c. rewrite app_nil_r in Hx0.
    repeat split; try assumption; apply Hlen; assumption.
  - intros (a & b & c & Hl & Ha & Hb & Hc & HAa & HAb & HAc).
    assert (m_rest x0 = a ++ "@"%char :: b ++ "."%char :: c) as Hx0
        by exact Hl.
    pose proof (skip_rest _ _ _ Hx0) as Hx1.
    pose proof (skip_rest ["@"%char] _ _ Hx1) as Hx2. cbn [length] in Hx2.
    pose proof (skip_rest _ _ _ Hx2) as Hx3.
    pose proof (skip_rest ["."%char] _ _ Hx3) as Hx4. cbn [length] in Hx4.
    rewrite <- (app_nil_r c) in Hx4.
    pose proof (skip_rest _ _ _ Hx4) as Hx5.
    apply class_step. exists a, ("@"%char :: b ++ "."%char :: c).
    repeat split; [exact Hx0 | apply Hlen, Ha | exact HAa |].
    apply char_step. exists (b ++ "."%char :: c). split; [exact Hx1|].
    apply class_step. exists b, ("."%char :: c).
    repeat split; [exact Hx2 | apply Hlen, Hb | exact HAb |].
    apply char_step. exists c. split; [exact Hx3|].
    apply class_step. exists c, [].
    repeat split; [exact Hx4 | apply Hlen, Hc | exact HAc |].
    apply Eol_Some. split; [exact Hx5 | eauto].
Qed.

End EmailPattern.

(** ** The checks by pattern *)

Section PatternChecks.

Import Js Dom Jq RegExp Classes Validator.
Local Open Scope js_scope.

Context {mo : Moment}.

#[local] Arguments setErrorMessage : simpl never.
#[local] Arguments reject : simpl never.

Ltac run_reads :=
  cbv beta iota delta [bind read ret lift and_then or_else has_file fst snd].

(** A check of the common shape: on an element its selector matches it
    returns the negation of its condition. *)
Lemma guarded_check element sel (cond : gmap nat node → bool) message events w :
  is_ (nodes (document w)) element sel = true →
  result (setErrorMessage element "" ;;
          c <- read (fun ns => is_ ns element sel) &&& read cond ;;
          if c then reject element message events else ret true) w
  = Normal (negb (cond (nodes (document w)))).
Proof.
  intros His. unfold result. rewrite bind_clear. run_reads.
  rewrite !setErrorMessage_nodes, His. run_reads.
  rewrite !setErrorMessage_nodes.
  destruct (cond _); cbn [negb]; [|reflexivity].
  rewrite reject_total. reflexivity.
Qed.

(** X1: on a text, number or textarea field whose value is the string [s],
    [numeric] passes exactly when [s] is a non-empty run of the digits 0
    to 9. *)
Theorem numeric_digits element message s w :
  is_ (nodes (document w)) element [InputText; InputNumber; Textarea] = true →
  val (nodes (document w)) element = VStr s →
  result (numeric element message) w
  = Normal (forallb is_digit (chars s) && (1 <=? length (chars s))).
Proof.
  intros His Hval. unfold numeric.
  rewrite (guarded_check _ _ (fun ns => negb (test numericRegex (val ns element))))
    by assumption.
  cbv beta. rewrite Hval, negb_involutive. unfold numericRegex, Plus.
  rewrite anchored_class. reflexivity.
Qed.

(** X2: on a text field or textarea whose value is the string [s],
    [alphabetic] passes exactly when every character of [s] is a letter
    a-z or A-Z, a full stop, a comma or white space; the empty string
    passes. *)
Theorem alphabetic_letters element message s w :
  is_ (nodes (document w)) element [InputText; Textarea] = true →
  val (nodes (document w)) element = VStr s →
  result (alphabetic element message) w
  = Normal (forallb (fun c => is_alpha c || is_char "." c || is_char "," c
                              || is_space c) (chars s)).
Proof.
  intros His Hval. unfold alphabetic, result. rewrite bind_clear. run_reads.
  rewrite !setErrorMessage_nodes, His. cbn [negb]. run_reads.
  rewrite ?setErrorMessage_nodes, Hval.
  unfold alphabeticRegex, Star. rewrite anchored_class.
  cbn [Nat.leb]. rewrite andb_true_r.
  destruct (forallb _ _); cbn [negb]; [reflexivity|].
  rewrite reject_total. reflexivity.
Qed.

(** X3: on a text field or textarea whose value is the string [s],
    [alphanumeric] passes exactly when [s] is not empty and every character
    is a letter a-z or A-Z, a digit or white space. *)
Theorem alphanumeric_letters_digits element message s w :
  is_ (nodes (document w)) element [InputText; Textarea] = true →
  val (nodes (document w)) element = VStr s →
  result (alphanumeric element message) w
  = Normal (forallb (fun c => is_alpha c || is_digit c || is_space c) (chars s)
            && (1 <=? length (chars s))).
Proof.
  intros His Hval. unfold alphanumeric.
  rewrite (guarded_check _ _
             (fun ns => negb (test alphanumericRegex (val ns element))))
    by assumption.
  cbv beta. rewrite Hval, negb_involutive. unfold alphanumericRegex, Plus.
  rewrite anchored_class. reflexivity.
Qed.

(** X4: on a text or telephone field whose value is the string [s],
    [phoneNumber] passes exactly when [s] is not empty and made of digits,
    plus signs, white space, parentheses and hyphens, in any order. *)
Theorem phoneNumber_characters element message s w :
  is_ (nodes (document w)) element [InputText; InputTel] = true →
  val (nodes (document w)) element = VStr s →
  result (phoneNumber element message) w
  = Normal (forallb (fun c => is_digit c || is_char "+" c || is_space c
                              || is_char "(" c || is_char ")" c
                              || is_char "-" c) (chars s)
            && (1 <=? length (chars s))).
Proof.
  intros His Hval. unfold phoneNumber.
  rewrite (guarded_check _ _
             (fun ns => negb (test phoneRegex (val ns element))))
    by assumption.
  cbv beta. rewrite Hval, negb_involutive. unfold phoneRegex, Plus.
  rewrite anchored_class. reflexivity.
Qed.

(** X5: on a text or e-mail field whose value is the string [s], [email]
    passes exactly when [s] splits as [a @ b . c] with [a], [b] and [c] not
    empty and free of white space and of the at sign. *)
Theorem email_shape element message s w :
  is_ (nodes (document w)) element [InputText; InputEmail] = true →
  val (nodes (document w)) element = VStr s →
  result (email element message) w = Normal true
  ↔ ∃ a b c,
      chars s = a ++ "@"%char :: b ++ "."%char :: c
      ∧ a ≠ [] ∧ b ≠ [] ∧ c ≠ []
      ∧ forallb not_space_at a = true
      ∧ forallb not_space_at b = true
      ∧ forallb not_space_at c = true.
Proof.
  intros His Hval. unfold email.
  rewrite (guarded_check _ _
             (fun ns => negb (test emailRegex (val ns element))))
    by assumption.
  cbv beta. rewrite Hval, negb_involutive, <- emailRegex_shape.
  split; [intros [= ->]; reflexivity | intros ->; reflexivity].
Qed.

End PatternChecks.

(** ** Choices, files, bounds and dates *)

Section FieldChecks.

Import Js Dom Jq RegExp Validator.
Local Open Scope js_scope.

Context {mo : Moment}.

#[local] Arguments setErrorMessage : simpl never.
#[local] Arguments reject : simpl never.

Ltac run_reads :=
  cbv beta iota delta [bind read ret lift throw and_then or_else has_file files
    first_file fst snd].

(** X6: on radio buttons or checkboxes, [required] passes exactly when the
    checked ones among them have a value; with none checked it fails, and
    the listener it leaves is for change alone. *)
Theorem required_choice element message w :
  let ns := nodes (document w) in
  is_ ns element text_like = false →
  is_ ns element [InputRadio; InputCheckbox] = true →
  is_ ns element [InputFile] = false →
  result (required element message) w
  = Normal (negb (is_undefined (val ns (filter_checked ns element))))
  ∧ (filter_checked ns element = [] →
     result (required element message) w = Normal false
     ∧ handlers (document (after (required element message) w))
       = on {| h_events := [Change]; h_element := element |} element
           (handlers (document w))).
Proof.
  intros ns Htext Hchoice Hfile. subst ns.
  unfold required, result, after. rewrite bind_clear. run_reads.
  rewrite !setErrorMessage_nodes, Htext. run_reads.
  rewrite !setErrorMessage_nodes, Hchoice. run_reads.
  rewrite !setErrorMessage_nodes.
  destruct (is_undefined _) eqn:Hun; cbn [negb].
  - rewrite reject_total. split; [reflexivity|]. intros _. cbn [fst snd].
    split; [reflexivity|].
    destruct (reject_state element (or_default message "Wajib dipilih.")
                [Change] (after (setErrorMessage element "") w))
      as (_ & _ & _ & -> & _).
    rewrite setErrorMessage_handlers. reflexivity.
  - run_reads. rewrite !setErrorMessage_nodes, Hfile. run_reads.
    split; [reflexivity|].
    intros Hnone. rewrite Hnone in Hun. discriminate Hun.
Qed.

(** On a file input, [required] passes exactly when the list of chosen
    files is not empty. *)
Theorem required_file element message fs w :
  let ns := nodes (document w) in
  is_ ns element text_like = false →
  is_ ns element [InputRadio; InputCheckbox] = false →
  is_ ns element [InputFile] = true →
  get0_files ns element = Normal (Some fs) →
  result (required element message) w = Normal (negb (length fs =? 0)).
Proof.
  intros ns Htext Hchoice Hfile Hfs. subst ns.
  unfold required, result. rewrite bind_clear. run_reads.
  rewrite !setErrorMessage_nodes, Htext. run_reads.
  rewrite !setErrorMessage_nodes, Hchoice. run_reads.
  rewrite !setErrorMessage_nodes, Hfile. unfold files. run_reads.
  rewrite !setErrorMessage_nodes, Hfs. run_reads.
  destruct (length fs =? 0); cbn [negb]; [|reflexivity].
  rewrite reject_total. reflexivity.
Qed.

(** X7: a file input with no file chosen passes [fileType], [fileSize] and
    [fileExtension], whatever they allow. *)
Theorem no_file_passes element allowedTypes maxSize allowedExtensions
    message w :
  get0_files (nodes (document w)) element = Normal (Some []) →
  result (fileType element allowedTypes message) w = Normal true
  ∧ result (fileSize element maxSize message) w = Normal true
  ∧ result (fileExtension element allowedExtensions message) w = Normal true.
Proof.
  intros Hfs. unfold fileType, fileSize, fileExtension, result.
  rewrite !bind_clear. unfold files. run_reads.
  rewrite !setErrorMessage_nodes.
  destruct (is_ _ _ _); [|repeat split].
  run_reads. rewrite ?setErrorMessage_nodes, Hfs. repeat split.
Qed.

(** X8: with files chosen, the three file checks look at the first file
    alone: its type, its size and the lower-cased part of its name after
    the last full stop. *)
Theorem first_file_decides element allowedTypes maxSize allowedExtensions
    message f others w :
  is_ (nodes (document w)) element [InputFile] = true →
  get0_files (nodes (document w)) element = Normal (Some (f :: others)) →
  result (fileType element allowedTypes message) w
  = Normal (bool_decide (f_type f ∈ allowedTypes))
  ∧ result (fileSize element maxSize message) w
    = Normal (negb (gt (f_size f) maxSize))
  ∧ result (fileExtension element allowedExtensions message) w
    = Normal (bool_decide (extension (f_name f) ∈ allowedExtensions)).
Proof.
  intros His Hfs. unfold fileType, fileSize, fileExtension, result.
  rewrite !bind_clear. unfold first_file, files. run_reads.
  repeat progress (rewrite ?setErrorMessage_nodes, ?His, ?Hfs; run_reads;
                   cbn [length Nat.ltb Nat.leb]).
  destruct (bool_decide (f_type f ∈ allowedTypes)),
    (gt (f_size f) maxSize),
    (bool_decide (extension (f_name f) ∈ allowedExtensions));
    cbn [negb]; cbv zeta; rewrite ?reject_total; repeat split.
Qed.

Lemma lower_idempotent c : lower (lower c) = lower c.
Proof.
  destruct c as [[] [] [] [] [] [] [] []]; vm_compute; reflexivity.
Qed.

Lemma toLowerCase_idempotent s : toLowerCase (toLowerCase s) = toLowerCase s.
Proof.
  unfold toLowerCase, text, chars.
  rewrite String.list_ascii_of_string_of_list_ascii, <- list_fmap_compose.
  f_equal. apply list_fmap_ext. intros _ c _. apply lower_idempotent.
Qed.

(** X9: [fileExtension] lower-cases the extension of the file but not the
    allowed ones: when every allowed extension has an upper-case letter,
    every file fails. *)
Theorem upper_case_extensions_match_nothing element allowedExtensions
    message f others w :
  is_ (nodes (document w)) element [InputFile] = true →
  get0_files (nodes (document w)) element = Normal (Some (f :: others)) →
  (∀ e, e ∈ allowedExtensions → toLowerCase e ≠ e) →
  result (fileExtension element allowedExtensions message) w = Normal false.
Proof.
  intros His Hfs Hupper. unfold fileExtension, result.
  rewrite !bind_clear. unfold first_file, files.
  repeat progress (rewrite ?setErrorMessage_nodes, ?His, ?Hfs; run_reads;
                   cbn [length Nat.ltb Nat.leb]).
  rewrite bool_decide_eq_false_2.
  - cbn [negb]. rewrite reject_total. reflexivity.
  - intros Hin. apply (Hupper _ Hin). apply toLowerCase_idempotent.
Qed.

(** X10: [range] passes exactly when [minValue] and [maxValue] both do. *)
Theorem range_is_both_bounds element lo hi message w :
  result (range element lo hi message) w = Normal true
  ↔ result (minValue element lo message) w = Normal true
    ∧ result (maxValue element hi message) w = Normal true.
Proof.
  unfold minValue, maxValue, range, result.
  rewrite !bind_clear. run_reads. rewrite !setErrorMessage_nodes.
  destruct (is_ _ _ _); [|tauto].
  destruct (lt _ lo), (gt _ hi); rewrite ?reject_total; cbn [fst];
    split; try tauto; try discriminate; intros [? ?]; discriminate.
Qed.

(** X11: a value that moment does not read as a date in the format of the
    call fails each of the nine date and time checks, on an element the
    selector of the check matches. *)
Theorem unreadable_date_fails r fmt sel w :
  let ns := nodes (document w) in
  format_of r = Some fmt →
  selector_of r = Some sel →
  is_ ns (element_of r) sel = true →
  isValid (moment_strict (val ns (element_of r)) fmt) = false →
  result (call r) w = Normal false.
Proof.
  intros ns Hfmt Hsel His Hbad. subst ns.
  destruct r; try discriminate Hfmt;
    injection Hfmt as <-; injection Hsel as <-;
    cbn [element_of call] in *;
    unfold date, datetime, time, minDate, maxDate, minDatetime, maxDatetime,
      dateBetween, datetimeBetween, result;
    rewrite bind_clear; run_reads;
    rewrite !setErrorMessage_nodes, His, Hbad; cbn [negb];
    rewrite reject_total; reflexivity.
Qed.

End FieldChecks.

(** ** What a failing check shows *)

Section Effects.

Import Js Dom Jq RegExp Validator.
Local Open Scope js_scope.

Context {mo : Moment}.

#[local] Arguments setErrorMessage : simpl never.
#[local] Arguments reject : simpl never.

Create HintDb readers discriminated.
#[local] Hint Resolve reads_read reads_ret reads_throw reads_lift reads_bind
  reads_and_then reads_or_else reads_files reads_has_file reads_first_file
  : readers.

Lemma worded_if element message (b : bool) (x y : M bool) :
  worded element message x → worded element message y →
  worded element message (if b then x else y).
Proof. destruct b; auto. Qed.

Ltac worded :=
  repeat first
    [ apply worded_pass
    | apply worded_reject; reflexivity
    | apply worded_if
    | apply worded_bind; [auto 10 with readers | intros ?] ].

Lemma call_worded r :
  ∃ t, worded (element_of r) (message_of r) t
       ∧ call r = bind (setErrorMessage (element_of r) "") (fun _ => t).
Proof.
  destruct r; cbn [call element_of message_of]; eexists;
    (split; [|reflexivity]); worded.
Qed.

Lemma worded_fails element message t :
  worded element message t →
  ∀ w, fst (t w) = Normal false →
    ∃ fallback events,
      nonempty fallback = true
      ∧ t w = reject element (or_default message fallback) events w.
Proof.
  induction 1 as [|fallback events Hf|A m k [f Hf] Hk IH]; intros w Hw.
  - discriminate Hw.
  - eauto.
  - unfold bind in *. rewrite Hf in *.
    destruct (f (nodes (document w))) as [a|e]; [|discriminate Hw].
    apply IH, Hw.
Qed.

(** The page after [setErrorMessage]: the message is in every message
    region of the containers of the element. *)
Lemma setErrorMessage_shown element message w :
  ∃ G, groups (document (after (setErrorMessage element message) w))
       = in_groups (set_html message) (closest (nodes (document w)) element) G.
Proof.
  unfold after, setErrorMessage, bind, read, update_document, update_this, ret.
  cbn. destruct (is_ _ _ _), (nonempty message); cbn; eauto.
Qed.

Lemma reject_shown element message events w :
  let w' := after (reject element message events) w in
  invalid (document w')
  = toggleClass (nonempty message) element (invalid (document w))
  ∧ ∃ G, groups (document w')
         = in_groups (set_html message) (closest (nodes (document w)) element)
             G.
Proof.
  unfold after, reject, bind, update_this, update_document, ret.
  cbn. rewrite setErrorMessage_total. cbn.
  rewrite setErrorMessage_invalid. split; [reflexivity|].
  apply (setErrorMessage_shown element message
           {| this := increment (this w); document := document w;
              console := console w |}).
Qed.

Lemma shows_set_html message g : shows message (set_html message g) = true.
Proof.
  unfold shows, set_html. cbn. apply forallb_const, String.eqb_refl.
Qed.

(** X12: a check that returns false marks every element of its set
    invalid and records one message: the message of the call when it is not
    empty, a default of the method otherwise. When that message is without
    markup, each message region of the containers shows it as it is. *)
Theorem failing_check_shows_its_message r w :
  result (call r) w = Normal false →
  ∃ message,
    nonempty message = true
    ∧ (nonempty (message_of r) = true → message = message_of r)
    ∧ recorded w r = entries (nodes (document w)) (element_of r) message
    ∧ all_invalid (element_of r) (document (after (call r) w)) = true
    ∧ (plain message = true →
       shown (element_of r) message (document (after (call r) w)) = true).
Proof.
  destruct (call_worded r) as (t & Ht & Hcall).
  unfold recorded, result, after. rewrite Hcall, !bind_clear.
  set (w0 := after (setErrorMessage (element_of r) "") w).
  intros Hres.
  destruct (worded_fails _ _ _ Ht w0 Hres) as (fallback & events & Hf & ->).
  exists (or_default (message_of r) fallback).
  split; [apply or_default_nonempty, Hf|].
  split; [intros Hm; unfold or_default; rewrite Hm; reflexivity|].
  destruct (reject_state (element_of r) (or_default (message_of r) fallback)
              events w0) as (Hn & _ & Hm & _).
  destruct (reject_shown (element_of r) (or_default (message_of r) fallback)
              events w0) as (Hi & G & HG).
  unfold after in Hn, Hm, Hi, HG. split.
  - rewrite Hm. unfold w0.
    rewrite setErrorMessage_messages, setErrorMessage_nodes.
    unfold entries at 1. cbn [nonempty String.eqb negb].
    rewrite app_nil_r, drop_app_length. reflexivity.
  - unfold all_invalid, shown. rewrite Hn, Hi, HG.
    rewrite (or_default_nonempty _ _ Hf). unfold w0.
    rewrite setErrorMessage_nodes. split; [|intros _].
    + apply forallb_forall. intros i Hin. apply bool_decide_eq_true.
      cbn. apply elem_of_union. right. apply elem_of_list_to_set.
      apply list_elem_of_In, Hin.
    + apply forallb_forall. intros g Hin. apply list_elem_of_In in Hin.
      destruct (in_groups _ _ _ !! g) as [grp|] eqn:E; [|reflexivity].
      apply in_groups_Some in E as (x & n & _ & -> & Hpos).
      rewrite (iter_idempotent _ _ _ (set_html_idempotent _) (Hpos Hin)).
      apply shows_set_html.
Qed.

(** X13: [minLength] and [maxLength] read the length of the value without
    testing it: on a set a text field belongs to and whose value is null,
    both end in a TypeError, and the error count stays as it was. *)
Theorem length_of_null_is_an_exception element length message w :
  is_ (nodes (document w)) element text_fields = true →
  val (nodes (document w)) element = VNull →
  result (minLength element length message) w = Throw TypeError
  ∧ result (maxLength element length message) w = Throw TypeError
  ∧ errors (this (after (minLength element length message) w))
    = errors (this w)
  ∧ errors (this (after (maxLength element length message) w))
    = errors (this w).
Proof.
  intros His Hval. unfold minLength, maxLength, result, after.
  rewrite !bind_clear.
  cbv beta iota delta [bind read ret lift and_then or_else fst snd].
  rewrite !setErrorMessage_nodes, His.
  cbv beta iota delta [bind read ret lift and_then or_else fst snd].
  rewrite !setErrorMessage_nodes, Hval. cbn [length_of fst snd].
  rewrite setErrorMessage_errors. repeat split.
Qed.

(** X14: the promise of [asyncValidation] is never rejected: it is
    fulfilled with true when the predicate, called on the value of the
    element, is fulfilled with true, and with false in every other case;
    one is added to the error count unless it is true. *)
Theorem asyncValidation_verdict element f message w :
  let v := f (val (nodes (document w)) element) in
  let w' := after (asyncValidation element f message) w in
  result (asyncValidation element f message) w
  = Normal (verdict_of_settled v)
  ∧ errors (this w')
    = (errors (this w) + (if verdict_of_settled v then 0 else 1))%Z.
Proof.
  cbn zeta. unfold result, after.
  rewrite asyncValidation_after_clearing.
  set (w0 := after (setErrorMessage element "") w).
  assert (errors (this w0) = errors (this w)) as <-
    by apply setErrorMessage_errors.
  destruct (f (val (nodes (document w)) element)) as [[|]|reason].
  - cbn. split; [reflexivity | lia].
  - unfold asyncValidation_resume, try_catch, await, bind, ret.
    cbn [negb fst snd]. rewrite reject_total. cbn [fst snd verdict_of_settled].
    destruct (reject_state element (or_default message "Input tidak valid.")
                [Keyup; Change] w0) as (_ & He & _).
    split; [reflexivity | exact He].
  - destruct (resume_rejected element reason message w0) as (Hr & He & _).
    split; [exact Hr | exact He].
Qed.

End Effects.

(** ** Batches that end in an exception, and what a session keeps *)

Section Sessions.

Import Js Dom Jq RegExp Validator.
Local Open Scope js_scope.

Context {mo : Moment}.

#[local] Arguments setErrorMessage : simpl never.
#[local] Arguments reject : simpl never.

Lemma forEach_app {A} (f : A → M unit) l1 l2 w :
  forEach f (l1 ++ l2) w
  = match forEach f l1 w with
    | (Normal _, w1) => forEach f l2 w1
    | (Throw e, w1) => (Throw e, w1)
    end.
Proof.
  revert w. induction l1 as [|a l1 IH]; intros w; [reflexivity|].
  cbn [app]. rewrite !forEach_cons.
  destruct (f a w) as [[[]|e] w1]; [apply IH | reflexivity].
Qed.

(** X15: [validateFields] stops at the first rule that ends in an
    exception: the exception is that of the batch, the rules after it are
    not run, nothing is logged, and the count holds the failures of the
    rules before it. *)
Theorem validateFields_stops_at_exception pre r post e w :
  forallb (fun r => negb (threw (result (call r) w))) pre = true →
  result (call r) w = Throw e →
  result (validateFields (pre ++ r :: post)) w = Throw e
  ∧ after (validateFields (pre ++ r :: post)) w
    = after (validateFields (pre ++ [r])) w
  ∧ console (after (validateFields (pre ++ r :: post)) w) = console w
  ∧ errors (this (after (validateFields (pre ++ r :: post)) w))
    = (errors (this w) + Z.of_nat (length (List.filter (fails w) pre)))%Z.
Proof.
  intros Hpre Hr.
  destruct (forEach_calls pre w Hpre) as (Hres & Hn & Hc & He & _).
  destruct (call_same_page r (after (forEach each_call pre) w) w Hn)
    as [Hr1 _].
  rewrite Hr in Hr1.
  destruct (call_effect r (after (forEach each_call pre) w)) as (_ & Hc1 & _).
  destruct (call_this r (after (forEach each_call pre) w)) as (He1 & _).
  unfold fails in He1. rewrite Hr1 in He1. cbn [failed] in He1.
  assert (∀ l, validateFields (pre ++ r :: l) w
               = (Throw e, after (call r) (after (forEach each_call pre) w)))
    as Hstop.
  { intros l. rewrite validateFields_eq, forEach_app. unfold result, after in *.
    destruct (forEach each_call pre w) as [[[]|e0] w1]; [|discriminate Hres].
    cbn [snd] in *. rewrite forEach_cons, each_call_eq.
    unfold result, after. destruct (call r w1) as [c w2]. cbn [fst snd] in *.
    subst c. reflexivity. }
  unfold result, after in *. rewrite (Hstop post), (Hstop []). cbn [fst snd].
  rewrite Hc1, Hc, He1, He. repeat split. lia.
Qed.

(** A relation on states that every building block of the validator
    respects holds between a state and the one an action leaves. *)
Lemma step_related (R : world → world → Prop) :
  (∀ w, R w w) →
  (∀ w1 w2 w3, R w1 w2 → R w2 w3 → R w1 w3) →
  (∀ element w, R w (after (setErrorMessage element "") w)) →
  (∀ element message events w,
     nonempty message = true →
     R w (after (reject element message events) w)) →
  (∀ element message w,
     nonempty message = true →
     R w (after (update_this increment ;; setErrorMessage element message) w)) →
  (∀ message w, R w (after (throwErrorMessage message) w)) →
  ∀ a w, leaves_page a = true → R w (step w a).
Proof.
  intros Hrefl Htrans Hclear Hreject Hcatch Hthrow.
  assert (Hcall : ∀ r w, R w (after (call r) w)).
  { intros r w. destruct (call_effect r w) as (_ & _ & H).
    destruct (failed _).
    - destruct H as (message & events & Hm & _ & ->).
      eapply Htrans; [apply Hclear | apply Hreject, Hm].
    - rewrite H. apply Hclear. }
  assert (Heach : ∀ {A} (f : A → M unit) l,
            (∀ a w, R w (after (f a) w)) →
            ∀ w, R w (after (forEach f l) w)).
  { intros A f l Hf. induction l as [|a l IH]; intros w; [apply Hrefl|].
    unfold after. rewrite forEach_cons. specialize (Hf a w).
    unfold after in Hf. destruct (f a w) as [[[]|e] w1]; cbn [snd] in *.
    - eapply Htrans; [exact Hf | apply IH].
    - exact Hf. }
  intros a w Ha. destruct a; cbn [step]; try discriminate Ha.
  - apply Hcall.
  - unfold after, asyncValidation_start, bind, read.
    rewrite setErrorMessage_total. cbn [fst snd]. apply Hclear.
  - unfold after, asyncValidation_resume, try_catch, await, bind, ret, throw.
    destruct p as [[|]|reason]; cbn [negb fst snd].
    + apply Hrefl.
    + specialize (Hreject element (or_default message "Input tidak valid.")
                  [Keyup; Change] w
                  (or_default_nonempty message "Input tidak valid." eq_refl)).
      unfold after in Hreject. rewrite reject_total in *. exact Hreject.
    + specialize (Hcatch element "Terjadi kesalahan saat validasi." w eq_refl).
      unfold after, bind, update_this, ret in *. cbn [fst snd] in *.
      rewrite setErrorMessage_total in *. cbn [fst snd] in *. exact Hcatch.
  - unfold after. rewrite validateFields_eq.
    assert (R w (after (forEach each_call validations) w)) as H.
    { apply Heach. intros r w0. unfold after. rewrite each_call_eq.
      apply Hcall. }
    unfold after in H.
    destruct (forEach each_call validations w) as [[[]|e] w1];
      cbn [snd] in *; [|exact H].
    eapply Htrans; [exact H | apply Hthrow].
  - apply Hthrow.
  - unfold after, trigger. apply Heach. intros h w0.
    destruct (bool_decide (ev ∈ h_events h)); [apply Hclear | apply Hrefl].
Qed.

Lemma run_related (R : world → world → Prop) :
  (∀ w, R w w) →
  (∀ w1 w2 w3, R w1 w2 → R w2 w3 → R w1 w3) →
  (∀ a w, leaves_page a = true → R w (step w a)) →
  ∀ l w, forallb leaves_page l = true → R w (run l w).
Proof.
  intros Hrefl Htrans Hstep l.
  induction l as [|a l IH]; intros w Hl; [apply Hrefl|].
  cbn in Hl. apply andb_prop in Hl as [Ha Hl]. cbn.
  eapply Htrans; [apply Hstep, Ha | apply IH, Hl].
Qed.

Lemma catch_state element message w :
  let w' := after (update_this increment ;; setErrorMessage element message) w
  in
  nodes (document w') = nodes (document w)
  ∧ handlers (document w') = handlers (document w)
  ∧ errors (this w') = (errors (this w) + 1)%Z
  ∧ errorMessages (this w')
    = errorMessages (this w) ++ entries (nodes (document w)) element message.
Proof.
  unfold after, bind, update_this, ret. cbn [fst snd].
  rewrite setErrorMessage_total. cbn [fst snd].
  rewrite setErrorMessage_nodes, setErrorMessage_handlers,
    setErrorMessage_errors, setErrorMessage_messages.
  repeat split.
Qed.

(** X16: the validator reads the page and never edits it: through any
    sequence of checks, batches, listener runs and calls of
    [throwErrorMessage], every element keeps its kind, id, value, checked
    state and files. *)
Theorem validator_never_edits_the_fields l w :
  forallb leaves_page l = true →
  nodes (document (run l w)) = nodes (document w).
Proof.
  apply (run_related (fun w w' => nodes (document w') = nodes (document w))).
  - reflexivity.
  - intros w1 w2 w3 H12 H23. congruence.
  - apply (step_related
             (fun w w' => nodes (document w') = nodes (document w))).
    + reflexivity.
    + intros w1 w2 w3 H12 H23. congruence.
    + intros. apply setErrorMessage_nodes.
    + intros. apply reject_state.
    + intros. apply catch_state.
    + intros message w0.
      destruct (throwErrorMessage_this message w0) as [_ ->]. reflexivity.
Qed.

Lemma on_prefix h element (m : gmap nat (list handler)) i :
  default [] (m !! i) `prefix_of` default [] (on h element m !! i).
Proof.
  induction element as [|a element IH]; [reflexivity|].
  cbn. destruct (decide (a = i)) as [->|Hne].
  - rewrite lookup_insert_eq. cbn.
    etransitivity; [exact IH | apply prefix_app_r; reflexivity].
  - rewrite lookup_insert_ne by assumption. exact IH.
Qed.

Lemma on_longer h element (m : gmap nat (list handler)) i :
  i ∈ element →
  length (default [] (m !! i)) < length (default [] (on h element m !! i)).
Proof.
  induction element as [|a element IH]; intros Hin; [inversion Hin|].
  pose proof (prefix_length _ _ (on_prefix h element m i)) as Hle.
  change (on h (a :: element) m)
    with (<[a := default [] (on h element m !! a) ++ [h]]> (on h element m)).
  destruct (decide (a = i)) as [->|Hne].
  - rewrite lookup_insert_eq. set (m' := on h element m) in *.
    change (default [] (Some (default [] (m' !! i) ++ [h])))
      with (default [] (m' !! i) ++ [h]).
    rewrite length_app. cbn [length]. lia.
  - rewrite lookup_insert_ne by assumption. apply IH.
    inversion Hin; subst; [congruence | assumption].
Qed.

Lemma listeners_step a w i :
  listeners (document w) i `prefix_of` listeners (document (step w a)) i.
Proof.
  destruct (leaves_page a) eqn:Ha;
    [|destruct a; try discriminate Ha; reflexivity].
  revert a w Ha.
  apply (step_related
           (fun w w' => listeners (document w) i
                        `prefix_of` listeners (document w') i)).
  - reflexivity.
  - intros w1 w2 w3 H12 H23. etransitivity; eassumption.
  - intros. unfold listeners. rewrite setErrorMessage_handlers. reflexivity.
  - intros element message events w0 _. unfold listeners.
    destruct (reject_state element message events w0)
      as (_ & _ & _ & -> & _).
    apply on_prefix.
  - intros element message w0 _. unfold listeners.
    destruct (catch_state element message w0) as (_ & -> & _). reflexivity.
  - intros message w0.
    destruct (throwErrorMessage_this message w0) as [_ ->]. reflexivity.
Qed.

(** X17: no listener is ever removed: whatever the validator does and
    however the page is edited, the listeners of an element stay, in their
    order, and new ones come after them. *)
Theorem listeners_are_never_removed l w i :
  listeners (document w) i `prefix_of` listeners (document (run l w)) i.
Proof.
  revert w. induction l as [|a l IH]; intros w; [reflexivity|].
  cbn. etransitivity; [apply listeners_step | apply IH].
Qed.

(** X18: every call that returns false registers one more listener on each
    element of its set, also when the same check has failed on it
    before. *)
Theorem failing_call_adds_a_listener r w i :
  result (call r) w = Normal false →
  i ∈ element_of r →
  length (listeners (document w) i)
  < length (listeners (document (after (call r) w)) i).
Proof.
  intros Hres Hin. destruct (call_effect r w) as (_ & _ & H).
  rewrite Hres in H. cbn [failed] in H.
  destruct H as (message & events & _ & _ & ->). unfold listeners.
  destruct (reject_state (element_of r) message events
              (after (setErrorMessage (element_of r) "") w))
    as (_ & _ & _ & -> & _).
  rewrite setErrorMessage_handlers. apply on_longer, Hin.
Qed.

Lemma entries_length ns element message :
  nonempty message = true → 1 ≤ length (entries ns element message).
Proof.
  intros Hm. unfold entries. rewrite Hm, length_app. cbn. lia.
Qed.

Lemma accounted_refl w : accounted w w.
Proof. split; [reflexivity | lia]. Qed.

Lemma accounted_trans w1 w2 w3 :
  accounted w1 w2 → accounted w2 w3 → accounted w1 w3.
Proof.
  intros [P12 L12] [P23 L23]. split; [etransitivity; eassumption | lia].
Qed.

Lemma accounted_step a w : leaves_page a = true → accounted w (step w a).
Proof.
  revert a w. apply step_related.
  - apply accounted_refl.
  - apply accounted_trans.
  - intros element w. split.
    + rewrite setErrorMessage_messages. apply prefix_app_r. reflexivity.
    + rewrite setErrorMessage_errors, setErrorMessage_messages, length_app.
      lia.
  - intros element message events w Hm.
    destruct (reject_state element message events w)
      as (_ & He & Hmsg & _).
    pose proof (entries_length (nodes (document w)) element message Hm).
    split.
    + rewrite Hmsg. apply prefix_app_r. reflexivity.
    + rewrite He, Hmsg, length_app. lia.
  - intros element message w Hm.
    destruct (catch_state element message w) as (_ & _ & He & Hmsg).
    pose proof (entries_length (nodes (document w)) element message Hm).
    split.
    + rewrite Hmsg. apply prefix_app_r. reflexivity.
    + rewrite He, Hmsg, length_app. lia.
  - intros message w. unfold accounted.
    destruct (throwErrorMessage_this message w) as [-> _].
    apply accounted_refl.
Qed.

(** X19: the error sequence only grows at its end: the entries recorded so
    far stay where they are through every later action, edits of the page
    included. *)
Theorem entries_are_never_removed l w :
  errorMessages (this w) `prefix_of` errorMessages (this (run l w)).
Proof.
  revert w. induction l as [|a l IH]; intros w; [reflexivity|].
  cbn. etransitivity; [|apply IH].
  destruct (leaves_page a) eqn:Ha; [apply accounted_step, Ha|].
  destruct a; try discriminate Ha. reflexivity.
Qed.

(** X20: on a fresh validator the error count never exceeds the number of
    recorded entries, so [throwErrorMessage] never throws with an empty
    sequence to log. *)
Theorem every_error_has_an_entry l d :
  let w := run l (new_world d) in
  (errors (this w) <= Z.of_nat (length (errorMessages (this w))))%Z.
Proof.
  cbn zeta.
  assert (∀ l w, accounted w (run l w)) as H.
  { clear. intros l. induction l as [|a l IH]; intros w;
      [apply accounted_refl|].
    cbn. eapply accounted_trans; [|apply IH].
    destruct (leaves_page a) eqn:Ha; [apply accounted_step, Ha|].
    destruct a; try discriminate Ha. split; [reflexivity | cbn; lia]. }
  destruct (H l (new_world d)) as [_ Hl]. cbn in Hl. lia.
Qed.

End Sessions.

(** ** Roman numerals *)

Section RomanNumerals.

Import Js SAT.Format Roman.

Lemma while_ge_more turns value numeral state out :
  while_ge turns value numeral state = Some out →
  ∀ turns', turns ≤ turns' → while_ge turns' value numeral state = Some out.
Proof.
  revert state. induction turns as [|t IH]; intros [res x] H turns' Hle;
    [discriminate H|].
  destruct turns' as [|t']; [lia|]. cbn in *.
  destruct (ge x (of_Z value)); [|exact H]. apply (IH _ H). lia.
Qed.

Lemma forEach_numeral_more turns l state out :
  forEach_numeral turns l state = Some out →
  ∀ turns', turns ≤ turns' → forEach_numeral turns' l state = Some out.
Proof.
  revert state. induction l as [|[v s] l IH]; intros state H turns' Hle;
    [exact H|].
  cbn in *. destruct (while_ge turns v s state) as [st|] eqn:E;
    [|discriminate H].
  rewrite (while_ge_more _ _ _ _ _ E turns' Hle). apply (IH _ H _ Hle).
Qed.

(** What is already written stays in front of what the loops add. *)
Lemma while_ge_prefix turns value numeral p res x :
  while_ge turns value numeral (p +:+ res, x)
  = (fun st => (p +:+ fst st, snd st)) <$> while_ge turns value numeral (res, x).
Proof.
  revert res x. induction turns as [|t IH]; intros res x; [reflexivity|].
  cbn. destruct (ge x (of_Z value)); [|reflexivity].
  rewrite <- IH, append_assoc. reflexivity.
Qed.

Lemma forEach_numeral_prefix turns l p res x :
  forEach_numeral turns l (p +:+ res, x)
  = (fun st => (p +:+ fst st, snd st)) <$> forEach_numeral turns l (res, x).
Proof.
  revert res x. induction l as [|[v s] l IH]; intros res x; [reflexivity|].
  cbn. rewrite while_ge_prefix.
  destruct (while_ge turns v s (res, x)) as [[res' x']|]; [|reflexivity].
  cbn. apply IH.
Qed.

Lemma sub_of_Z n v : sub (of_Z n) v = of_Z (n - v).
Proof.
  unfold sub, of_Z, inject_Z, Qminus, Qplus, Qopp. cbn. do 2 f_equal. lia.
Qed.

Lemma ge_of_Z n v : ge (of_Z n) (of_Z v) = (v <=? n)%Z.
Proof.
  unfold ge, of_Z, lt, Qltb, inject_Z. cbn.
  rewrite !Z.mul_1_r, Z.ltb_antisym, negb_involutive. reflexivity.
Qed.

(** The loop of M on a whole number. *)
Lemma while_ge_M turns res n :
  (0 <= n)%Z → Z.to_nat (n / 1000) < turns →
  while_ge turns 1000 "M" (res, of_Z n)
  = Some (res +:+ text (replicate (Z.to_nat (n / 1000)) "M"%char),
          of_Z (n mod 1000)).
Proof.
  revert res n. induction turns as [|t IH]; intros res n Hn Ht; [lia|].
  cbn [while_ge]. rewrite ge_of_Z.
  destruct (1000 <=? n)%Z eqn:E.
  - apply Z.leb_le in E. rewrite sub_of_Z.
    assert (n / 1000 = (n - 1000) / 1000 + 1)%Z as Hq.
    { replace n with ((n - 1000) + 1 * 1000)%Z at 1 by lia.
      rewrite Z.div_add by lia. reflexivity. }
    assert (n mod 1000 = (n - 1000) mod 1000)%Z as Hr.
    { replace n with ((n - 1000) + 1 * 1000)%Z at 1 by lia.
      rewrite Z.mod_add by lia. reflexivity. }
    assert (0 <= (n - 1000) / 1000)%Z by (apply Z.div_pos; lia).
    rewrite IH by lia. rewrite Hq, Hr.
    replace (Z.to_nat ((n - 1000) / 1000 + 1))
      with (S (Z.to_nat ((n - 1000) / 1000))) by lia.
    cbn [replicate text String.string_of_list_ascii].
    rewrite append_assoc. reflexivity.
  - apply Z.leb_gt in E.
    rewrite Z.div_small, Z.mod_small by lia. cbn.
    rewrite append_nil_r. reflexivity.
Qed.

Lemma symbol_le_M c : (symbol c <= 1000)%Z.
Proof. unfold symbol. repeat case_match; lia. Qed.

Lemma value_M k l :
  value (replicate k "M"%char ++ l) = (1000 * Z.of_nat k + value l)%Z.
Proof.
  induction k as [|k IH]; [cbn; lia|].
  change (replicate (S k) "M"%char ++ l)
    with ("M"%char :: (replicate k "M"%char ++ l)).
  destruct (replicate k "M"%char ++ l) as [|d l'] eqn:E.
  - destruct k; [|discriminate E]. cbn in E. subst l. reflexivity.
  - change (value ("M"%char :: d :: l'))
      with (if (symbol "M" <? symbol d)%Z
            then (value (d :: l') - symbol "M")%Z
            else (symbol "M" + value (d :: l'))%Z).
    rewrite IH. pose proof (symbol_le_M d).
    change (symbol "M") with 1000%Z.
    destruct (1000 <? symbol d)%Z eqn:Hlt; [apply Z.ltb_lt in Hlt; lia|].
    lia.
Qed.

Lemma all_read_back :
  forallb reads_back (Calendar.range_Z 0 999) = true.
Proof. vm_compute. reflexivity. Qed.

Lemma below_M_reads_back r :
  (0 <= r <= 999)%Z →
  ∃ s x, forEach_numeral 5 below_M ("", of_Z r) = Some (s, x)
         ∧ roman_value s = r.
Proof.
  intros Hr. pose proof all_read_back as Hall.
  rewrite forallb_forall in Hall.
  specialize (Hall r (range_Z_In 0 999 r Hr)). unfold reads_back in Hall.
  destruct (forEach_numeral 5 below_M ("", of_Z r)) as [[s x]|];
    [|discriminate Hall].
  destruct x as [| |q]; try discriminate Hall.
  apply andb_prop in Hall as [Hs _]. apply Z.eqb_eq in Hs. eauto.
Qed.

Lemma ToRoman_eq turns x :
  isNaN x = false →
  ToRoman turns x
  = match while_ge turns 1000 "M" ("", x) with
    | Some state => fst <$> forEach_numeral turns below_M state
    | None => None
    end.
Proof.
  intros Hx. unfold ToRoman. rewrite Hx.
  unfold romanNumerals, below_M. cbn [forEach_numeral tail].
  destruct (while_ge turns 1000 "M" ("", x)); reflexivity.
Qed.

(** X21: on a whole number from 0 to 2^53, [ToRoman] returns, given the
    turns its loops need, a numeral that reads as that number. *)
Theorem ToRoman_reads_back n turns :
  (0 <= n <= 2 ^ 53)%Z →
  5 + Z.to_nat (n / 1000) ≤ turns →
  ∃ s, ToRoman turns (of_Z n) = Some s ∧ roman_value s = n.
Proof.
  intros [Hn _] Ht. rewrite ToRoman_eq by reflexivity.
  rewrite while_ge_M by lia.
  pose proof (Z.mod_pos_bound n 1000 ltac:(lia)) as Hr.
  destruct (below_M_reads_back (n mod 1000)) as (s & x & E & Hs); [lia|].
  apply forEach_numeral_more with (turns' := turns) in E; [|lia].
  rewrite <- (append_nil_r (_ +:+ text _)).
  rewrite forEach_numeral_prefix, E.
  eexists. split; [reflexivity|].
  unfold roman_value in *. cbn [fst snd]. rewrite !chars_app, chars_text.
  change (chars "") with (@nil ascii). cbn [app].
  rewrite value_M, Hs, Z2Nat.id by (apply Z.div_pos; lia).
  pose proof (Z.div_mod n 1000 ltac:(lia)). lia.
Qed.

Lemma ge_below x v : ge x (of_Z 1) = false → (1 <= v)%Z → ge x (of_Z v) = false.
Proof.
  destruct x as [|[]|q]; cbn; try reflexivity; try discriminate.
  unfold Qltb. cbn. rewrite !negb_false_iff, !Z.ltb_lt. intros H Hv.
  pose proof (Pos2Z.is_pos (Qden q)). nia.
Qed.

(** X22: a number that is not at least 1 (zero, a negative number, a
    fraction below 1, minus infinity, NaN) gives the empty string. *)
Theorem ToRoman_below_one x turns :
  ge x (of_Z 1) = false → 0 < turns → ToRoman turns x = Some "".
Proof.
  intros Hx Ht. unfold ToRoman. destruct (isNaN x); [reflexivity|].
  destruct turns as [|t]; [lia|].
  unfold romanNumerals. cbn [forEach_numeral while_ge].
  rewrite !(ge_below x) by (assumption || lia). reflexivity.
Qed.

(** X23: on plus infinity the first loop never ends: however many turns it
    is given, [ToRoman] has not returned. *)
Theorem ToRoman_of_infinity_never_returns turns :
  ToRoman turns (Inf false) = None.
Proof.
  unfold ToRoman, romanNumerals. cbn [isNaN forEach_numeral].
  assert (∀ res, while_ge turns 1000 "M" (res, Inf false) = None) as ->;
    [|reflexivity].
  induction turns as [|t IH]; intros res; [reflexivity|]. cbn. apply IH.
Qed.

End RomanNumerals.

(** ** Masking an e-mail address *)

Section Anonymize.

Import Js SAT.Util.

Lemma split_chars_whole sep cur l :
  forallb (fun c => negb (is_char sep c)) l = true →
  split_chars sep cur l = [text (rev cur ++ l)].
Proof.
  revert cur. induction l as [|c l IH]; intros cur Hl.
  - rewrite app_nil_r. reflexivity.
  - cbn in Hl. apply andb_prop in Hl as [Hc Hl]. apply negb_true_iff in Hc.
    cbn [split_chars]. rewrite Hc, (IH _ Hl). cbn [rev].
    rewrite <- app_assoc. reflexivity.
Qed.

Lemma split_chars_at sep cur l r :
  forallb (fun c => negb (is_char sep c)) l = true →
  split_chars sep cur (l ++ sep :: r)
  = text (rev cur ++ l) :: split_chars sep [] r.
Proof.
  revert cur. induction l as [|c l IH]; intros cur Hl.
  - cbn [app split_chars]. unfold is_char at 1. rewrite N.eqb_refl, app_nil_r.
    reflexivity.
  - cbn in Hl. apply andb_prop in Hl as [Hc Hl]. apply negb_true_iff in Hc.
    cbn [app split_chars]. rewrite Hc, (IH _ Hl). cbn [rev].
    rewrite <- app_assoc. reflexivity.
Qed.

Lemma split_chars_first sep cur l :
  ∃ p ps, split_chars sep cur l = text (rev cur ++ p) :: ps
          ∧ p = take_while (fun c => negb (is_char sep c)) l.
Proof.
  revert cur. induction l as [|c l IH]; intros cur.
  - exists [], []. rewrite app_nil_r. split; reflexivity.
  - cbn [split_chars take_while]. destruct (is_char sep c); cbn [negb].
    + exists [], (split_chars sep [] l). rewrite app_nil_r.
      split; reflexivity.
    + destruct (IH (c :: cur)) as (p & ps & -> & ->).
      eexists _, ps. split; [|reflexivity]. cbn [rev].
      rewrite <- app_assoc. reflexivity.
Qed.

Lemma repeat_star n :
  repeat "*" (Z.of_nat n) = Some (text (replicate n "*"%char)).
Proof.
  unfold repeat. destruct (Z.of_nat n <? 0)%Z eqn:E;
    [apply Z.ltb_lt in E; lia|].
  rewrite Nat2Z.id. do 2 f_equal. clear E.
  induction n as [|n IH]; [reflexivity|]. cbn. f_equal. exact IH.
Qed.

(** The call on an address whose part before the first at sign is
    [local] and whose second part is [domain]. *)
Lemma AnonymizeText_parts email local domain ps :
  split "@" email = text local :: ps →
  index (text local :: ps) 1 = domain →
  local ≠ [] →
  let k := if length local <? 4 then 1 else 3 in
  AnonymizeText email
  = Returns (text (take k local ++ replicate (length local - k) "*"%char)
               +:+ "@" +:+ to_string domain).
Proof.
  intros Hsplit Hdomain Hlocal k. unfold AnonymizeText.
  rewrite Hsplit, Hdomain.
  change (index (text local :: ps) 0) with (VStr (text local)). cbv iota beta.
  rewrite <- length_chars, chars_text. fold k.
  assert (k ≤ length local) as Hk.
  { subst k. destruct local; [congruence|].
    destruct (length _ <? 4) eqn:E; [cbn; lia|].
    apply Nat.ltb_ge in E. lia. }
  replace (Z.of_nat (length local) - Z.of_nat k)%Z
    with (Z.of_nat (length local - k)) by lia.
  rewrite repeat_star. unfold substring.
  rewrite Nat.min_0_l, Nat.max_0_l, Nat.sub_0_r, drop_0, chars_text.
  rewrite text_app, append_assoc. reflexivity.
Qed.

(** X24: on an address [local@domain] with neither part holding an at
    sign and [local] not empty, [AnonymizeText] keeps the first three
    characters of [local], or the first one when [local] has fewer than
    four, puts one asterisk for each of the others and leaves the rest as
    it is; the result is as long as the address. *)
Theorem AnonymizeText_masks_local_part local domain :
  local ≠ [] → no_at local = true → no_at domain = true →
  let email := text (local ++ "@"%char :: domain) in
  let k := if length local <? 4 then 1 else 3 in
  let masked :=
    text (take k local ++ replicate (length local - k) "*"%char
            ++ "@"%char :: domain) in
  AnonymizeText email = Returns masked
  ∧ String.length masked = String.length email.
Proof.
  intros Hne Hl Hd email k masked. subst email masked. split.
  - rewrite (AnonymizeText_parts _ local (VStr (text domain)) [text domain]).
    + fold k. cbn [to_string]. rewrite !text_app. rewrite !append_assoc.
      reflexivity.
    + unfold split. rewrite chars_text, split_chars_at by exact Hl.
      rewrite split_chars_whole by exact Hd. reflexivity.
    + reflexivity.
    + exact Hne.
  - rewrite <- !length_chars, !chars_text, !length_app, length_take,
      length_replicate. cbn [length].
    assert (k ≤ length local).
    { subst k. destruct local; [congruence|].
      destruct (length _ <? 4) eqn:E; [cbn; lia|].
      apply Nat.ltb_ge in E. lia. }
    lia.
Qed.

(** X25: the call ends in a RangeError exactly when nothing stands before
    the first at sign: on the empty string and on an address that starts
    with the at sign. It never fails on reading the length. *)
Theorem AnonymizeText_RangeError email :
  (AnonymizeText email = RangeError
   ↔ email = "" ∨ ∃ rest, email = String "@" rest)
  ∧ AnonymizeText email ≠ LengthOfUndefined.
Proof.
  destruct (split_chars_first "@" [] (chars email)) as (p & ps & Hsplit & Hp).
  cbn [rev app] in Hsplit. fold (split "@" email) in Hsplit.
  destruct p as [|c p].
  - assert (AnonymizeText email = RangeError) as Hr.
    { unfold AnonymizeText. rewrite Hsplit. reflexivity. }
    rewrite Hr. split; [|discriminate]. split; [intros _|reflexivity].
    destruct email as [|x email]; [left; reflexivity|]. right.
    cbn [chars String.list_ascii_of_string take_while] in Hp.
    destruct (negb (is_char "@" x)) eqn:E; [discriminate Hp|].
    apply negb_false_iff in E. unfold is_char in E. apply N.eqb_eq in E.
    unfold code in E. apply (f_equal ascii_of_N) in E.
    rewrite !ascii_N_embedding in E. subst x. eauto.
  - rewrite (AnonymizeText_parts email (c :: p) (index (text (c :: p) :: ps) 1)
               ps Hsplit eq_refl) by discriminate.
    split; [|discriminate]. split; [discriminate|].
    intros [->|[rest ->]]; discriminate Hp.
Qed.

(** X26: an address with no at sign in it comes back with its characters
    masked and the text undefined for a domain. *)
Theorem AnonymizeText_without_at_sign email :
  email ≠ "" → no_at (chars email) = true →
  let local := chars email in
  let k := if length local <? 4 then 1 else 3 in
  AnonymizeText email
  = Returns (text (take k local ++ replicate (length local - k) "*"%char)
               +:+ "@undefined").
Proof.
  intros Hne Hno local k.
  rewrite (AnonymizeText_parts email local VUndefined []).
  - reflexivity.
  - unfold split. rewrite split_chars_whole by exact Hno.
    reflexivity.
  - reflexivity.
  - subst local. intros H. apply Hne. rewrite <- (text_chars email), H.
    reflexivity.
Qed.

End Anonymize.

(** ** Reading a date *)

Section ReadingDates.

Import Js RegExp Classes SAT.Parse.

Lemma leading_stop p a l :
  forallb p a = true →
  match l with b :: _ => p b = false | [] => True end →
  leading p (a ++ l) = length a.
Proof.
  intros Ha Hl. unfold leading. induction a as [|ch a IH]; cbn [app].
  - destruct l as [|b l]; [reflexivity|]. cbn. rewrite Hl. reflexivity.
  - cbn in Ha. apply andb_prop in Ha as [Hch Ha]. cbn [take_while].
    rewrite Hch. cbn [length]. rewrite (IH Ha). reflexivity.
Qed.

Lemma choices_last lo hi x :
  lo ≤ S hi → choices lo (S hi) x = skip (S hi) x :: choices lo hi x.
Proof.
  intros H. unfold choices.
  replace (S (S hi) - lo) with (S (S hi - lo)) by lia.
  rewrite seq_S, reverse_app. cbn [reverse rev_append app fmap list_fmap].
  replace (lo + (S hi - lo)) with (S hi) by lia. reflexivity.
Qed.

(** The continuation fails on the runs longer than [j] and succeeds on the
    run of length [j]. *)
Lemma first_success_at c lo hi j x y :
  lo ≤ j ≤ hi →
  (∀ k, j < k ≤ hi → c (skip k x) = None) →
  c (skip j x) = Some y →
  first_success c (choices lo hi x) = Some y.
Proof.
  intros Hj. induction hi as [|hi IH]; intros Hnone Hy.
  - assert (j = 0) as -> by lia. assert (lo = 0) as -> by lia.
    unfold choices. cbn. rewrite Hy. reflexivity.
  - rewrite choices_last by lia. cbn [first_success].
    destruct (decide (j = S hi)) as [->|Hne].
    + rewrite Hy. reflexivity.
    + rewrite Hnone by lia. cbn [or_else]. apply IH; [lia| |exact Hy].
      intros k Hk. apply Hnone. lia.
Qed.

Lemma first_success_none c lo hi x :
  (∀ k, lo ≤ k ≤ hi → c (skip k x) = None) →
  first_success c (choices lo hi x) = None.
Proof.
  intros Hnone.
  destruct (first_success c (choices lo hi x)) as [y|] eqn:E; [|reflexivity].
  assert (is_Some (first_success c (choices lo hi x))) as Hs by (rewrite E; eauto).
  apply first_success_Some in Hs as (z & Hz & Hc).
  apply choices_elem in Hz as (k & Hk & ->). rewrite Hnone in Hc by exact Hk.
  destruct Hc; discriminate.
Qed.

(** A quantified class before [l]: the run [a] is the longest one, and the
    continuation takes it. *)
Lemma class_takes p min max c pos a l caps y :
  forallb p a = true →
  cap max (leading p (a ++ l)) = length a →
  min ≤ length a →
  (∀ k, max = Some k → min ≤ k) →
  c {| m_pos := pos + length a; m_rest := l; m_caps := caps |} = Some y →
  matcher (Rep min max (Set_ p)) c
    {| m_pos := pos; m_rest := a ++ l; m_caps := caps |} = Some y.
Proof.
  intros Ha Hcap Hmin Hmax Hy. rewrite matcher_class by exact Hmax.
  cbn [m_rest]. rewrite Hcap.
  apply (first_success_at c min (length a) (length a)); [lia | intros; lia|].
  unfold skip. cbn [m_pos m_rest m_caps]. rewrite drop_app_length.
  rewrite (Nat.add_comm (length a) pos). exact Hy.
Qed.

(** A quantified class where the input has fewer characters of the class
    than the quantifier asks for. *)
Lemma class_fails p min max c x :
  (∀ k, max = Some k → min ≤ k) →
  cap max (leading p (m_rest x)) < min →
  matcher (Rep min max (Set_ p)) c x = None.
Proof.
  intros Hmax Hlt. rewrite matcher_class by exact Hmax.
  rewrite choices_none by exact Hlt. reflexivity.
Qed.

Lemma clear_nil x : clear [] x = x.
Proof. destruct x. reflexivity. Qed.

(** An optional pattern without groups: the pattern, which has to consume
    input, or else nothing. *)
Lemma Opt_eq r c x :
  groups_in r = [] →
  matcher (Opt r) c x
  = or_else (matcher r (fun y => if m_pos y =? m_pos x then None else c y) x)
      (fun _ => c x).
Proof.
  intros Hgs. unfold Opt. cbn [matcher]. rewrite Hgs.
  rewrite repeatMatcher_S by discriminate. cbn zeta.
  rewrite clear_nil. cbn [Nat.eqb negb andb pred fmap option_fmap option_map].
  cbn [repeatMatcher]. reflexivity.
Qed.

Lemma digit_facts c :
  is_digit c = true →
  is_word c = true ∧ is_space c = false ∧ is_char "," c = false.
Proof.
  destruct c as [[] [] [] [] [] [] [] []]; vm_compute; intros H;
    first [discriminate H | repeat split].
Qed.

Lemma alpha_facts c :
  is_alpha c = true →
  is_word c = true ∧ is_space c = false ∧ is_digit c = false.
Proof.
  destruct c as [[] [] [] [] [] [] [] []]; vm_compute; intros H;
    first [discriminate H | repeat split].
Qed.

Lemma word_facts c : is_word c = true → is_space c = false.
Proof.
  destruct c as [[] [] [] [] [] [] [] []]; vm_compute; intros H;
    first [discriminate H | reflexivity].
Qed.

Lemma capture_run i pos a l caps caps' :
  capture i {| m_pos := pos; m_rest := a ++ l; m_caps := caps |}
    {| m_pos := pos + length a; m_rest := l; m_caps := caps' |}
  = {| m_pos := pos + length a; m_rest := l;
       m_caps := <[i := text a]> caps' |}.
Proof.
  unfold capture. cbn [m_pos m_rest m_caps].
  replace (pos + length a - pos) with (length a) by lia.
  rewrite take_app_length. reflexivity.
Qed.

Lemma matcher_Seq a b c x : matcher (Seq a b) c x = matcher a (matcher b c) x.
Proof. reflexivity. Qed.

Lemma matcher_Group i r c x :
  matcher (Group i r) c x = matcher r (fun y => c (capture i x y)) x.
Proof. reflexivity. Qed.

Ltac into_pattern := rewrite ?matcher_Seq, ?matcher_Group.

(** The day, the month and the year, each as long as it can be, followed
    by anything. *)
Lemma day_month_year_takes pos D M Y T caps c y :
  forallb is_digit D = true → 1 ≤ length D ≤ 2 →
  forallb is_word M = true → M ≠ [] →
  forallb is_digit Y = true → length Y = 4 →
  c {| m_pos := pos + length D + 1 + length M + 1 + 4; m_rest := T;
       m_caps := <[3 := text Y]> (<[2 := text M]> (<[1 := text D]> caps)) |}
  = Some y →
  matcher day_month_year c
    {| m_pos := pos; m_rest := D ++ " "%char :: M ++ " "%char :: Y ++ T;
       m_caps := caps |} = Some y.
Proof.
  intros HD HlD HM HneM HY HlY Hy.
  unfold day_month_year, Plus. cbn [seq]. into_pattern.
  apply class_takes;
    [exact HD | rewrite leading_stop by (exact HD || reflexivity); cbn [cap]; lia
    | lia | intros k [= <-]; lia |].
  rewrite capture_run. into_pattern.
  change (" "%char :: M ++ " "%char :: Y ++ T)
    with ([" "%char] ++ M ++ " "%char :: Y ++ T).
  apply class_takes; [reflexivity | | cbn; lia | discriminate |].
  { rewrite leading_stop; [reflexivity | reflexivity |].
    destruct M as [|m M']; [congruence|]. cbn in HM.
    apply andb_prop in HM as [Hm _]. apply word_facts, Hm. }
  into_pattern.
  apply class_takes;
    [exact HM | rewrite leading_stop by (exact HM || reflexivity); reflexivity
    | destruct M; [congruence | cbn; lia] | discriminate |].
  rewrite capture_run. into_pattern.
  change (" "%char :: Y ++ T) with ([" "%char] ++ Y ++ T).
  apply class_takes; [reflexivity | | cbn; lia | discriminate |].
  { rewrite leading_stop; [reflexivity | reflexivity |].
    destruct Y as [|d Y']; [discriminate HlY|]. cbn in HY.
    apply andb_prop in HY as [Hd _]. apply digit_facts, Hd. }
  into_pattern.
  apply class_takes; [exact HY | | lia | intros k [= <-]; lia |].
  { pose proof (leading_app is_digit Y T HY). cbn [cap]. lia. }
  rewrite capture_run. cbn [length].
  replace (pos + length D + 1 + length M + 1 + length Y)
    with (pos + length D + 1 + length M + 1 + 4) by lia.
  exact Hy.
Qed.

Lemma datePattern_eq :
  datePattern = Seq Bol (Seq (Opt word_in_front) day_month_year).
Proof. reflexivity. Qed.

Lemma matcher_Bol c rest caps :
  matcher Bol c {| m_pos := 0; m_rest := rest; m_caps := caps |}
  = c {| m_pos := 0; m_rest := rest; m_caps := caps |}.
Proof. reflexivity. Qed.

Lemma exec_at_start r s y :
  match_at r 0 (chars s) = Some y → exec r s = Some (m_caps y).
Proof.
  intros H. unfold exec. destruct (chars s); cbn [exec_from]; rewrite H;
    reflexivity.
Qed.

(** What [ToDate] makes of a match. *)
Lemma ToDate_of_groups s y D M Y month :
  match_at datePattern 0 (chars s) = Some y →
  m_caps y !! 1 = Some D → m_caps y !! 2 = Some M → m_caps y !! 3 = Some Y →
  _getMonthNumber M = month → month ≠ (-1)%Z →
  ToDate s
  = Normal (Y +:+ "-" +:+ _padZero (VNum (of_Z month)) +:+ "-"
              +:+ _padZero (VStr D)).
Proof.
  intros Hy H1 H2 H3 Hm Hne. unfold ToDate.
  rewrite (exec_at_start _ _ _ Hy). unfold matched. rewrite H1, H2, H3.
  cbn [to_string]. rewrite Hm.
  destruct (month =? -1)%Z eqn:E; [apply Z.eqb_eq in E; contradiction|].
  reflexivity.
Qed.

(** The match on a day, a month and a year at the very start. *)
Lemma match_at_the_day pos D M Y T :
  forallb is_digit D = true → 1 ≤ length D ≤ 2 →
  forallb is_word M = true → M ≠ [] →
  forallb is_digit Y = true → length Y = 4 →
  ∀ x0, ∃ y,
    matcher day_month_year (fun y => Some (capture 0 x0 y))
      {| m_pos := pos; m_rest := D ++ " "%char :: M ++ " "%char :: Y ++ T;
         m_caps := ∅ |} = Some y
    ∧ m_caps y !! 1 = Some (text D)
    ∧ m_caps y !! 2 = Some (text M)
    ∧ m_caps y !! 3 = Some (text Y).
Proof.
  intros HD HlD HM HneM HY HlY x0. eexists. split.
  - apply day_month_year_takes; try eassumption. reflexivity.
  - unfold capture. cbn [m_caps].
    rewrite !lookup_insert_ne, !lookup_insert_eq by lia.
    rewrite !lookup_insert_ne, !lookup_insert_eq by lia.
    rewrite !lookup_insert_ne, !lookup_insert_eq by lia.
    repeat split.
Qed.

(** X27: with a word and a comma in front, as in Jumat, 15 Desember 2023,
    [Parse.ToDate] reads the day whole: on a word, a comma, a blank, a day
    of one or two digits, a month name it knows and a year of four digits,
    whatever follows, it returns the year, the month and the day, each of
    the last two padded to two digits. *)
Theorem ToDate_after_a_word W D M Y T month :
  forallb is_word W = true → W ≠ [] →
  forallb is_digit D = true → 1 ≤ length D ≤ 2 →
  forallb is_word M = true → M ≠ [] →
  forallb is_digit Y = true → length Y = 4 →
  _getMonthNumber (text M) = month → month ≠ (-1)%Z →
  ToDate (text (W ++ ","%char :: " "%char :: D ++ " "%char :: M
                  ++ " "%char :: Y ++ T))
  = Normal (text Y +:+ "-" +:+ _padZero (VNum (of_Z month)) +:+ "-"
              +:+ _padZero (VStr (text D))).
Proof.
  intros HW HneW HD HlD HM HneM HY HlY Hmonth Hne.
  set (I := W ++ ","%char :: " "%char :: D ++ " "%char :: M
              ++ " "%char :: Y ++ T).
  set (x0 := {| m_pos := 0; m_rest := I; m_caps := ∅ |}).
  destruct (match_at_the_day (0 + length W + length [","%char]
                              + length [" "%char]) D M Y T
              HD HlD HM HneM HY HlY x0) as (y & Hy & H1 & H2 & H3).
  apply (ToDate_of_groups _ y (text D) (text M) (text Y) month);
    try assumption.
  rewrite chars_text. unfold match_at. fold x0.
  rewrite datePattern_eq, matcher_Seq. unfold x0 at 2. rewrite matcher_Bol.
  fold x0. rewrite matcher_Seq, Opt_eq by reflexivity.
  assert (matcher word_in_front
            (fun z => if m_pos z =? m_pos x0 then None
                      else matcher day_month_year
                             (fun y => Some (capture 0 x0 y)) z) x0
          = Some y) as ->; [|reflexivity].
  unfold word_in_front, Plus, Opt, Chr, Star. cbn [seq]. into_pattern.
  unfold x0 at 2, I.
  apply class_takes;
    [exact HW | rewrite leading_stop by (exact HW || reflexivity); reflexivity
    | destruct W; [congruence | cbn; lia] | discriminate |].
  into_pattern.
  change (","%char :: " "%char :: D ++ " "%char :: M ++ " "%char :: Y ++ T)
    with ([","%char] ++ " "%char :: D ++ " "%char :: M ++ " "%char :: Y ++ T).
  apply class_takes;
    [reflexivity | rewrite leading_stop by reflexivity; reflexivity
    | cbn; lia | intros k [= <-]; lia |].
  change (" "%char :: D ++ " "%char :: M ++ " "%char :: Y ++ T)
    with ([" "%char] ++ D ++ " "%char :: M ++ " "%char :: Y ++ T).
  apply class_takes; [reflexivity | | cbn; lia | discriminate |].
  { rewrite leading_stop; [reflexivity | reflexivity |].
    destruct D as [|d D']; [cbn in HlD; lia|]. cbn in HD.
    apply andb_prop in HD as [Hd _]. apply digit_facts, Hd. }
  cbn [m_pos x0]. cbn [length Nat.add] in *.
  destruct (Nat.eqb_spec (length W + 1 + 1) 0) as [E|_]; [lia|].
  exact Hy.
Qed.

Lemma leading_0 p l :
  match l with b :: _ => p b = false | [] => True end → leading p l = 0.
Proof. intros H. apply (leading_stop p [] l eq_refl H). Qed.

(** A quantified class that may be empty, where the input has no character
    of the class: the continuation goes on from the same place. *)
Lemma class_skipped p max c x :
  leading p (m_rest x) = 0 →
  matcher (Rep 0 max (Set_ p)) c x = c x.
Proof.
  intros H. rewrite matcher_class by (intros; lia). rewrite H, cap_0.
  unfold choices. cbn. rewrite skip_0. destruct (c x); reflexivity.
Qed.

(** The pattern from the day on needs a digit to start with. *)
Lemma day_month_year_fails c x :
  leading is_digit (m_rest x) = 0 → matcher day_month_year c x = None.
Proof.
  intros H. unfold day_month_year. cbn [seq]. into_pattern.
  apply class_fails; [intros k [= <-]; lia|]. rewrite H. cbn. lia.
Qed.

(** X28: without a word in front, [Parse.ToDate] loses the first digit of
    a day of two digits: the optional word of the pattern takes it. On two
    digits, a blank, a month name it knows, made of letters, and a year of
    four digits, whatever follows, the day it returns is 0 and the second
    digit. *)
Theorem ToDate_drops_the_first_digit d1 d2 M Y T month :
  is_digit d1 = true → is_digit d2 = true →
  forallb is_alpha M = true → M ≠ [] →
  forallb is_digit Y = true → length Y = 4 →
  _getMonthNumber (text M) = month → month ≠ (-1)%Z →
  ToDate (text (d1 :: d2 :: " "%char :: M ++ " "%char :: Y ++ T))
  = Normal (text Y +:+ "-" +:+ _padZero (VNum (of_Z month)) +:+ "-0"
              +:+ text [d2]).
Proof.
  intros Hd1 Hd2 HM HneM HY HlY Hmonth Hne.
  destruct (digit_facts d1 Hd1) as (Hw1 & _ & _).
  destruct (digit_facts d2 Hd2) as (Hw2 & Hs2 & Hc2).
  assert (forallb is_word M = true) as HwM.
  { apply forallb_forall. intros ch Hch.
    rewrite forallb_forall in HM. apply alpha_facts, HM, Hch. }
  assert (∃ m M', M = m :: M' ∧ is_space m = false ∧ is_digit m = false)
    as (m & M' & HMeq & Hsm & Hdm).
  { destruct M as [|m M']; [congruence|]. cbn in HM.
    apply andb_prop in HM as [Hm _]. exists m, M'.
    destruct (alpha_facts m Hm) as (_ & ? & ?). auto. }
  set (R := " "%char :: M ++ " "%char :: Y ++ T).
  set (x0 := {| m_pos := 0; m_rest := d1 :: d2 :: R; m_caps := ∅ |}).
  assert (leading is_space R = 1) as HR.
  { apply (leading_stop is_space [" "%char]); [reflexivity|].
    rewrite HMeq. exact Hsm. }
  destruct (match_at_the_day 1 [d2] M Y T) with (x0 := x0)
    as (y & Hy & H1 & H2 & H3);
    [cbn; rewrite Hd2; reflexivity | cbn; lia | assumption..|].
  rewrite (ToDate_of_groups _ y (text [d2]) (text M) (text Y) month);
    try assumption.
  { reflexivity. }
  rewrite chars_text. unfold match_at. fold R. fold x0.
  rewrite datePattern_eq, matcher_Seq. unfold x0 at 2. rewrite matcher_Bol.
  fold x0. rewrite matcher_Seq, Opt_eq by reflexivity.
  set (d := fun z => if m_pos z =? m_pos x0 then None
                     else matcher day_month_year
                            (fun y => Some (capture 0 x0 y)) z).
  assert (matcher word_in_front d x0 = Some y) as ->; [|reflexivity].
  unfold word_in_front, Plus, Opt, Chr, Star. cbn [seq]. into_pattern.
  rewrite matcher_class by discriminate. cbn [m_rest x0].
  change (d1 :: d2 :: R) with ([d1; d2] ++ R).
  rewrite leading_stop; [|cbn; rewrite Hw1, Hw2; reflexivity | reflexivity].
  apply (first_success_at _ 1 2 1); [cbn; lia | |].
  - intros k Hk. assert (k = 2) as -> by (cbn in Hk; lia).
    unfold skip. cbn [m_pos m_rest m_caps x0 drop app Nat.add].
    rewrite ?drop_0. into_pattern.
    rewrite class_skipped by reflexivity.
    rewrite matcher_class by discriminate. cbn [m_rest cap].
    rewrite ?drop_0, HR.
    apply first_success_none. intros j Hj.
    unfold d, skip. cbn [m_pos m_rest m_caps x0].
    destruct (Nat.eqb_spec (j + 2) 0) as [E|_]; [lia|].
    apply day_month_year_fails. cbn [m_rest]. apply leading_0.
    assert (j = 0 ∨ j = 1) as [-> | ->] by lia.
    + reflexivity.
    + unfold R. cbn [drop]. rewrite ?drop_0, HMeq. exact Hdm.
  - unfold skip. cbn [m_pos m_rest m_caps x0 drop app Nat.add].
    rewrite ?drop_0. into_pattern.
    rewrite class_skipped by (apply leading_0; exact Hc2).
    rewrite class_skipped by (apply leading_0; exact Hs2).
    unfold d. cbn [m_pos x0 Nat.eqb]. exact Hy.
Qed.

End ReadingDates.

(** ** The claims at sample pages *)

Section Samples.

Import Js Dom Jq Validator Sample.

#[local] Existing Instance no_dates.

(** C1, at a name field left empty, then filled in and checked again: the
    second check passes and switches the indicator off, yet the error count
    stays 1 with no element marked, and the entry of the first check is
    still in the sequence. *)
Lemma stale_entry_after_fix :
  let r := Required [7] "" in
  let w1 := after (call r) (new_world (page InputText "name" "")) in
  let w2 := step w1 (Input 7 (field InputText "name" "Ann")) in
  let w3 := after (call r) w2 in
  result (call r) w2 = Normal true
  ∧ errors (this w3) = 1%Z
  ∧ marked (document w3) = 0%Z
  ∧ errors (this w3) ≠ marked (document w3)
  ∧ errorMessages (this w3)
    = [{| entry_element := VStr "#name"; entry_message := "Wajib diisi." |}].
Proof. vm_compute. repeat split. discriminate. Qed.

(** On the name field once it is filled in: the check passes. *)
Lemma check_on_session_witness :
  let r := Required [7] "" in
  let w := step (after (call r) (new_world (page InputText "name" "")))
             (Input 7 (field InputText "name" "Ann")) in
  let w' := after (call r) w in
  errors (this w') = (errors (this w) + (if true then 0 else 1))%Z
  ∧ errorMessages (this w') = errorMessages (this w) ++ recorded w r
  ∧ (if true
     then recorded w r = []
          ∧ cleared (element_of r) (document w') = true
     else recorded w r ≠ []).
Proof.
  apply (check_on_session (Required [7] "") true).
  vm_compute. reflexivity.
Defined.

(** C3: the range check with the bounds 18 and 99 does not fail on the
    non-numeric value abc. On a text input holding abc it returns true and
    the error count stays 0: [parseFloat] gives NaN, and neither
    [value < minValue] nor [value > maxValue] holds of NaN. The method is
    described as checking that the value falls within the range, and the
    date bounds beside it fail a value that is no date. *)
Lemma range_accepts_abc :
  let w := new_world (page InputText "age" "abc") in
  result (call age_between_18_and_99) w = Normal true
  ∧ errors (this (after (call age_between_18_and_99) w)) = 0%Z.
Proof. vm_compute. repeat split. Qed.

(** On a number input holding 17. *)
Lemma range_18_99_witness :
  let w := new_world (page InputNumber "age" "17") in
  result (range [7] (of_Z 18) (of_Z 99) "") w
  = Normal (negb (String.eqb "17" "17"))
  ∧ errors (this (after (range [7] (of_Z 18) (of_Z 99) "") w))
    = (errors (this w) + (if String.eqb "17" "17" then 1 else 0))%Z.
Proof.
  apply (range_18_99 [7] "" "17" (new_world (page InputNumber "age" "17"))).
  - vm_compute. reflexivity.
  - vm_compute. reflexivity.
  - apply list_elem_of_In. simpl. left. reflexivity.
Defined.

(** On an empty textarea. *)
Lemma required_empty_text_like_witness :
  let w := new_world (page Textarea "bio" "") in
  result (required [7] "") w = Normal false
  ∧ errors (this (after (required [7] "") w)) = (errors (this w) + 1)%Z.
Proof.
  apply (required_empty_text_like [7] "" (new_world (page Textarea "bio" ""))).
  - vm_compute. reflexivity.
  - vm_compute. reflexivity.
Defined.

(** C5, at a batch of one rule that fails on an empty select: the error
    count is 1 and the error sequence has 2 entries. *)
Lemma select_failure_records_two_entries :
  let rs := [Required [7] ""] in
  let w := after (validateFields rs) (new_world (page Select "city" "")) in
  length (List.filter (fails (new_world (page Select "city" ""))) rs) = 1
  ∧ errors (this w) = 1%Z
  ∧ length (errorMessages (this w)) = 2
  ∧ errorMessages (this w)
    = [{| entry_element := VStr "city"; entry_message := "Wajib diisi." |};
       {| entry_element := VStr "#city"; entry_message := "Wajib diisi." |}].
Proof. vm_compute. repeat split. Qed.

(** On an empty text input: required and email fail, the range check
    passes. *)
Lemma validateFields_counts_witness :
  let rs := [Required [7] ""; age_between_18_and_99; Email [7] ""] in
  let w := new_world (page InputText "contact" "") in
  let K := length (List.filter (fails w) rs) in
  let w' := after (validateFields rs) w in
  errors (this w') = Z.of_nat K
  ∧ errorMessages (this w') = concat (map (recorded w) rs)
  ∧ length (errorMessages (this w')) = K + length (failing_selects w rs)
  ∧ result (validateFields rs) w
    = (if 0 <? K then Throw (Error default_message) else Normal tt).
Proof.
  apply (validateFields_counts
           [Required [7] ""; age_between_18_and_99; Email [7] ""]
           (new_world (page InputText "contact" ""))).
  - reflexivity.
  - vm_compute. reflexivity.
Defined.

(** C7, at an age of 17 changed to 16: the range check fails, the next
    keyup switches the indicator and the message off, and the check still
    fails on the value the field then holds. *)
Lemma listener_clears_failing_field :
  let r := age_between_18_and_99 in
  let w0 := new_world (page InputText "age" "17") in
  let w2 := run [Input 7 (field InputText "age" "16"); Trigger Keyup 7]
              (after (call r) w0) in
  result (call r) w0 = Normal false
  ∧ cleared [7] (document (after (call r) w0)) = false
  ∧ cleared [7] (document w2) = true
  ∧ result (call r) w2 = Normal false.
Proof. vm_compute. repeat split. Qed.

(** On an age of 17. *)
Lemma listener_clears_whatever_the_value_witness :
  let r := age_between_18_and_99 in
  let w := new_world (page InputText "age" "17") in
  ∃ events, events ≠ [] ∧
    ∀ i ev j n, i ∈ element_of r → ev ∈ events →
      let w' := run [Input j n; Trigger ev i] (after (call r) w) in
      cleared (element_of r) (document w') = true
      ∧ this w' = this (after (call r) w).
Proof.
  apply (listener_clears_whatever_the_value age_between_18_and_99
           (new_world (page InputText "age" "17"))).
  vm_compute. reflexivity.
Defined.


(** [minLength] on a number input. *)
Lemma type_guard_mismatch_witness :
  let r := MinLength [7] (of_Z 5) "" in
  let w := new_world (page InputNumber "pin" "12") in
  result (call r) w = Normal (negb (fails_on_mismatch r))
  ∧ errors (this (after (call r) w))
    = (errors (this w) + (if fails_on_mismatch r then 1 else 0))%Z.
Proof.
  apply (type_guard_mismatch (MinLength [7] (of_Z 5) "") text_fields
           (new_world (page InputNumber "pin" "12"))).
  - reflexivity.
  - vm_compute. reflexivity.
Defined.

(** ** More sample pages *)

(** [numeric] on a text field that holds 42. *)
Lemma numeric_digits_witness :
  let w := new_world (page InputText "age" "42") in
  result (numeric [7] "") w
  = Normal (forallb is_digit (chars "42") && (1 <=? length (chars "42"))).
Proof.
  apply (numeric_digits [7] "" "42" (new_world (page InputText "age" "42")));
    vm_compute; reflexivity.
Defined.

(** [alphabetic] on a text field left empty. *)
Lemma alphabetic_letters_witness :
  let w := new_world (page InputText "name" "") in
  result (alphabetic [7] "") w
  = Normal (forallb (fun c => is_alpha c || is_char "." c || is_char "," c
                              || is_space c) (chars "")).
Proof.
  apply (alphabetic_letters [7] "" "" (new_world (page InputText "name" "")));
    vm_compute; reflexivity.
Defined.

(** [alphanumeric] on a textarea that holds Blok C 12. *)
Lemma alphanumeric_letters_digits_witness :
  let w := new_world (page Textarea "address" "Blok C 12") in
  result (alphanumeric [7] "") w
  = Normal (forallb (fun c => is_alpha c || is_digit c || is_space c)
              (chars "Blok C 12")
            && (1 <=? length (chars "Blok C 12"))).
Proof.
  apply (alphanumeric_letters_digits [7] "" "Blok C 12"
           (new_world (page Textarea "address" "Blok C 12")));
    vm_compute; reflexivity.
Defined.

(** [phoneNumber] on a telephone field. *)
Lemma phoneNumber_characters_witness :
  let s := "+62 (812) 555-0101" in
  let w := new_world (page InputTel "phone" s) in
  result (phoneNumber [7] "") w
  = Normal (forallb (fun c => is_digit c || is_char "+" c || is_space c
                              || is_char "(" c || is_char ")" c
                              || is_char "-" c) (chars s)
            && (1 <=? length (chars s))).
Proof.
  apply (phoneNumber_characters [7] "" "+62 (812) 555-0101"
           (new_world (page InputTel "phone" "+62 (812) 555-0101")));
    vm_compute; reflexivity.
Defined.

(** [email] on an e-mail field that holds a@b.c. *)
Lemma email_shape_witness :
  let w := new_world (page InputEmail "mail" "a@b.c") in
  result (email [7] "") w = Normal true
  ↔ ∃ a b c,
      chars "a@b.c" = a ++ "@"%char :: b ++ "."%char :: c
      ∧ a ≠ [] ∧ b ≠ [] ∧ c ≠ []
      ∧ forallb not_space_at a = true
      ∧ forallb not_space_at b = true
      ∧ forallb not_space_at c = true.
Proof.
  apply (email_shape [7] "" "a@b.c" (new_world (page InputEmail "mail" "a@b.c")));
    vm_compute; reflexivity.
Defined.

(** [required] on two radio buttons, none checked. *)
Lemma required_choice_witness :
  let w := new_world radios in
  let ns := nodes (document w) in
  result (required [1; 2] "") w
  = Normal (negb (is_undefined (val ns (filter_checked ns [1; 2]))))
  ∧ (filter_checked ns [1; 2] = [] →
     result (required [1; 2] "") w = Normal false
     ∧ handlers (document (after (required [1; 2] "") w))
       = on {| h_events := [Change]; h_element := [1; 2] |} [1; 2]
           (handlers (document w))).
Proof.
  apply (required_choice [1; 2] "" (new_world radios)); vm_compute; reflexivity.
Defined.

(** [required] on a file input with one file. *)
Lemma required_file_witness :
  result (required [7] "") (new_world (upload [photo]))
  = Normal (negb (length [photo] =? 0)).
Proof.
  apply (required_file [7] "" [photo] (new_world (upload [photo])));
    vm_compute; reflexivity.
Defined.

(** The file checks on a file input with no file. *)
Lemma no_file_passes_witness :
  let w := new_world (upload []) in
  result (fileType [7] ["image/png"] "") w = Normal true
  ∧ result (fileSize [7] (of_Z 1) "") w = Normal true
  ∧ result (fileExtension [7] ["png"] "") w = Normal true.
Proof.
  apply (no_file_passes [7] ["image/png"] (of_Z 1) ["png"] ""
           (new_world (upload []))).
  vm_compute. reflexivity.
Defined.

(** The file checks on a photo followed by another file. *)
Lemma first_file_decides_witness :
  let other := {| f_name := "notes.txt"; f_type := "text/plain";
                  f_size := of_Z 5000000 |} in
  let w := new_world (upload [photo; other]) in
  result (fileType [7] ["image/jpeg"] "") w
  = Normal (bool_decide (f_type photo ∈ ["image/jpeg"]))
  ∧ result (fileSize [7] (of_Z 4096) "") w
    = Normal (negb (gt (f_size photo) (of_Z 4096)))
  ∧ result (fileExtension [7] ["jpg"] "") w
    = Normal (bool_decide (extension (f_name photo) ∈ ["jpg"])).
Proof.
  apply (first_file_decides [7] ["image/jpeg"] (of_Z 4096) ["jpg"] "" photo
           [{| f_name := "notes.txt"; f_type := "text/plain";
               f_size := of_Z 5000000 |}]);
    vm_compute; reflexivity.
Defined.

(** photo.JPG against the allowed extensions JPG and PNG. *)
Lemma upper_case_extensions_match_nothing_witness :
  result (fileExtension [7] ["JPG"; "PNG"] "") (new_world (upload [photo]))
  = Normal false.
Proof.
  apply (upper_case_extensions_match_nothing [7] ["JPG"; "PNG"] "" photo []
           (new_world (upload [photo]))).
  - vm_compute. reflexivity.
  - vm_compute. reflexivity.
  - intros e He. apply elem_of_cons in He as [->|He]; [discriminate|].
    apply list_elem_of_singleton in He as ->. discriminate.
Defined.

(** [date] on a date field, with a moment that reads no date. *)
Lemma unreadable_date_fails_witness :
  result (call (Date [7] "YYYY-MM-DD" ""))
    (new_world (page InputDate "born" "tomorrow"))
  = Normal false.
Proof.
  apply (unreadable_date_fails (Date [7] "YYYY-MM-DD" "") "YYYY-MM-DD"
           [InputText; InputDate]
           (new_world (page InputDate "born" "tomorrow")));
    vm_compute; reflexivity.
Defined.

(** [required] with a message of the caller, on a select left empty. *)
Lemma failing_check_shows_its_message_witness :
  let r := Required [7] "Pilih kota." in
  let w := new_world (page Select "city" "") in
  ∃ message,
    nonempty message = true
    ∧ (nonempty (message_of r) = true → message = message_of r)
    ∧ recorded w r = entries (nodes (document w)) (element_of r) message
    ∧ all_invalid (element_of r) (document (after (call r) w)) = true
    ∧ (plain message = true →
       shown (element_of r) message (document (after (call r) w)) = true).
Proof.
  apply (failing_check_shows_its_message (Required [7] "Pilih kota.")
           (new_world (page Select "city" ""))).
  vm_compute. reflexivity.
Defined.

(** [minLength] and [maxLength] on the select without options and the text
    field. *)
Lemma length_of_null_is_an_exception_witness :
  let w := new_world mixed in
  result (minLength [1; 2] (of_Z 3) "") w = Throw TypeError
  ∧ result (maxLength [1; 2] (of_Z 3) "") w = Throw TypeError
  ∧ errors (this (after (minLength [1; 2] (of_Z 3) "") w)) = errors (this w)
  ∧ errors (this (after (maxLength [1; 2] (of_Z 3) "") w)) = errors (this w).
Proof.
  apply (length_of_null_is_an_exception [1; 2] (of_Z 3) "" (new_world mixed));
    vm_compute; reflexivity.
Defined.

(** A batch of three rules whose second one ends in a TypeError. *)
Lemma validateFields_stops_at_exception_witness :
  let pre := [Required [2] ""] in
  let r := MinLength [1; 2] (of_Z 3) "" in
  let post := [Required [1] ""] in
  let w := new_world mixed in
  result (validateFields (pre ++ r :: post)) w = Throw TypeError
  ∧ after (validateFields (pre ++ r :: post)) w
    = after (validateFields (pre ++ [r])) w
  ∧ console (after (validateFields (pre ++ r :: post)) w) = console w
  ∧ errors (this (after (validateFields (pre ++ r :: post)) w))
    = (errors (this w) + Z.of_nat (length (List.filter (fails w) pre)))%Z.
Proof.
  apply (validateFields_stops_at_exception [Required [2] ""]
           (MinLength [1; 2] (of_Z 3) "") [Required [1] ""] TypeError
           (new_world mixed));
    vm_compute; reflexivity.
Defined.

(** A check, a keystroke and a call of [throwErrorMessage]. *)
Lemma validator_never_edits_the_fields_witness :
  let l := [Call (Required [7] ""); Trigger Keyup 7; ThrowErrorMessage ""] in
  let w := new_world (page InputText "name" "") in
  nodes (document (run l w)) = nodes (document w).
Proof.
  apply (validator_never_edits_the_fields
           [Call (Required [7] ""); Trigger Keyup 7; ThrowErrorMessage ""]
           (new_world (page InputText "name" ""))).
  reflexivity.
Defined.

(** [required] on an empty text field. *)
Lemma failing_call_adds_a_listener_witness :
  let r := Required [7] "" in
  let w := new_world (page InputText "name" "") in
  length (listeners (document w) 7)
  < length (listeners (document (after (call r) w)) 7).
Proof.
  apply (failing_call_adds_a_listener (Required [7] "")
           (new_world (page InputText "name" "")) 7).
  - vm_compute. reflexivity.
  - apply list_elem_of_singleton. reflexivity.
Defined.

(** A value that is no number, against any bounds. *)
Lemma bounds_pass_on_NaN_witness :
  let w := new_world (page InputText "age" "abc") in
  result (minValue [7] (of_Z 18) "") w = Normal true
  ∧ result (maxValue [7] (of_Z 99) "") w = Normal true
  ∧ result (range [7] (of_Z 18) (of_Z 99) "") w = Normal true.
Proof.
  apply (bounds_pass_on_NaN [7] (of_Z 18) (of_Z 99) ""
           (new_world (page InputText "age" "abc"))).
  vm_compute. reflexivity.
Defined.

(** The year 2024. *)
Lemma ToRoman_reads_back_witness :
  ∃ s, SAT.Format.ToRoman 7 (of_Z 2024) = Some s ∧ Roman.roman_value s = 2024%Z.
Proof.
  apply (ToRoman_reads_back 2024 7); [vm_compute; split; discriminate|].
  vm_compute. lia.
Defined.

(** Zero. *)
Lemma ToRoman_below_one_witness : SAT.Format.ToRoman 1 (of_Z 0) = Some "".
Proof.
  apply (ToRoman_below_one (of_Z 0) 1); [reflexivity | lia].
Defined.

(** The address of the documentation. *)
Lemma AnonymizeText_masks_local_part_witness :
  let local := chars "example" in
  let domain := chars "gmail.com" in
  let email := text (local ++ "@"%char :: domain) in
  let k := if length local <? 4 then 1 else 3 in
  let masked :=
    text (take k local ++ replicate (length local - k) "*"%char
            ++ "@"%char :: domain) in
  SAT.Util.AnonymizeText email = SAT.Util.Returns masked
  ∧ String.length masked = String.length email.
Proof.
  apply (AnonymizeText_masks_local_part (chars "example") (chars "gmail.com"));
    [discriminate | reflexivity | reflexivity].
Defined.

(** A user name for an address. *)
Lemma AnonymizeText_without_at_sign_witness :
  let local := chars "admin" in
  let k := if length local <? 4 then 1 else 3 in
  SAT.Util.AnonymizeText "admin"
  = SAT.Util.Returns
      (text (take k local ++ replicate (length local - k) "*"%char)
         +:+ "@undefined").
Proof.
  apply (AnonymizeText_without_at_sign "admin"); [discriminate | reflexivity].
Defined.

(** A Friday. *)
Lemma ToDate_after_a_word_witness :
  SAT.Parse.ToDate
    (text (chars "Jumat" ++ ","%char :: " "%char :: chars "15" ++ " "%char
             :: chars "Desember" ++ " "%char :: chars "2023" ++ []))
  = Normal (text (chars "2023") +:+ "-"
              +:+ SAT.Parse._padZero (VNum (of_Z 12)) +:+ "-"
              +:+ SAT.Parse._padZero (VStr (text (chars "15")))).
Proof.
  apply (ToDate_after_a_word (chars "Jumat") (chars "15") (chars "Desember")
           (chars "2023") [] 12);
    first [reflexivity | discriminate | cbn; lia].
Defined.

(** The same day without its name, with a time after it. *)
Lemma ToDate_drops_the_first_digit_witness :
  SAT.Parse.ToDate
    (text ("1"%char :: "5"%char :: " "%char :: chars "Desember" ++ " "%char
             :: chars "2023" ++ chars " pukul 14:30"))
  = Normal (text (chars "2023") +:+ "-"
              +:+ SAT.Parse._padZero (VNum (of_Z 12)) +:+ "-0"
              +:+ text ["5"%char]).
Proof.
  apply (ToDate_drops_the_first_digit "1" "5" (chars "Desember")
           (chars "2023") (chars " pukul 14:30") 12);
    first [reflexivity | discriminate].
Defined.

End Samples.
